(** * Station uptime calculator: a shallow embedding of [station_uptime.py]

    The first part holds the definitions: the report record and the
    calculator's two dictionaries, [_merge_intervals], the
    reconciliation of one charger, the float arithmetic of the
    percentage, [calculate_station_uptime], [parse_input_file], the
    calculator once more with its lists as objects in a store, and
    [main].  The second part holds the properties.

    Python integers are unbounded and are modelled by [Z]; Python floats
    are IEEE binary64 numbers and are modelled by the Standard Library's
    [spec_float] with [prec = 53] and [emax = 1024]; dictionaries are
    [gmap]s and sets are [gset]s; exceptions are the [Raise] results of
    an error monad. *)

From Stdlib Require Import ZArith Bool Lia String Ascii.
From Stdlib Require Import Floats.SpecFloat.
From Stdlib Require DecimalString.
From stdpp Require Import base option list sorting gmap.

Local Open Scope Z_scope.

(** ** Exceptions *)

(** The exception classes that the code raises or that the interpreter
    raises on its behalf. *)
Inductive exn : Type :=
  | IOError
  | ValueError (msg : string)
  | IndexError
  | ZeroDivisionError
  | OverflowError.

Inductive result (A : Type) : Type :=
  | Ok (a : A)
  | Raise (e : exn).
Arguments Ok {A} a.
Arguments Raise {A} e.

Definition rbind {A B} (x : result A) (k : A → result B) : result B :=
  match x with
  | Ok a => k a
  | Raise e => Raise e
  end.

Notation "'let*' x := y 'in' z" := (rbind y (fun x => z))
  (at level 10, x name, y at level 100, z at level 200).

Definition is_ok {A} (x : result A) : bool :=
  match x with Ok _ => true | Raise _ => false end.

(** ** Data model *)

(** [class ChargerReport]. *)
Record ChargerReport : Type := mkReport {
  charger_id : Z;
  start_time : Z;
  end_time : Z;
  is_up : bool
}.

(** A [(start, end)] tuple. *)
Definition Interval : Type := (Z * Z)%type.

(** [class StationUptimeCalculator]: the two dictionaries built by the
    parser. *)
Record StationUptimeCalculator : Type := mkCalc {
  station_chargers : gmap Z (gset Z);
  charger_reports : gmap Z (list ChargerReport)
}.

(** ** Sorting

    [sorted] and [list.sort] are stable; a stable sort is determined by
    the order alone, so it is modelled by the insertion sort that puts an
    element in front of the elements of the sorted tail that are not
    smaller. *)
Section Sorting.
Context {A : Type} (leb : A → A → bool).

Fixpoint insert_sorted (x : A) (l : list A) : list A :=
  match l with
  | [] => [x]
  | y :: l' => if leb x y then x :: y :: l' else y :: insert_sorted x l'
  end.

Definition py_sorted (l : list A) : list A := foldr insert_sorted [] l.
End Sorting.

(** Tuples compare lexicographically; [False < True]. *)
Definition bool_leb (a b : bool) : bool := implb a b.

Definition key_leb (k1 k2 : Z * bool) : bool :=
  (k1.1 <? k2.1) || ((k1.1 =? k2.1) && bool_leb k1.2 k2.2).

Definition interval_leb (i1 i2 : Interval) : bool :=
  (i1.1 <? i2.1) || ((i1.1 =? i2.1) && (i1.2 <=? i2.2)).

(** [key=lambda x: (x.start_time, not x.is_up)]. *)
Definition report_key (x : ChargerReport) : Z * bool :=
  (start_time x, negb (is_up x)).

Definition report_leb (x y : ChargerReport) : bool :=
  key_leb (report_key x) (report_key y).

(** ** [_merge_intervals] *)

(** One iteration of the loop over [intervals[1:]]; [merged] is never
    empty there, since it starts as [[intervals[0]]]. *)
Definition merge_step (merged : list Interval) (interval : Interval)
    : list Interval :=
  match last merged with
  | Some lst =>
      if interval.1 <=? lst.2
      then removelast merged ++ [(lst.1, Z.max lst.2 interval.2)]
      else merged ++ [interval]
  | None => merged ++ [interval]
  end.

(** The function sorts its argument in place and returns a new list; the
    pair is (the argument after the call, the returned list).  (The
    sorted list of a non-empty list is not empty, so [intervals[0]]
    exists.) *)
Definition _merge_intervals_inplace (intervals : list Interval)
    : list Interval * list Interval :=
  match intervals with
  | [] => ([], [])
  | _ :: _ =>
      let intervals := py_sorted interval_leb intervals in
      match intervals with
      | [] => (intervals, [])
      | first :: rest => (intervals, foldl merge_step [first] rest)
      end
  end.

Definition _merge_intervals (intervals : list Interval) : list Interval :=
  (_merge_intervals_inplace intervals).2.

(** ** The reconciliation of one charger *)

(** The body of [for start, end in charger_intervals] for a down report
    [r]: the intervals appended to [new_intervals]. *)
Definition split_interval (r : ChargerReport) (iv : Interval)
    : list Interval :=
  let '(start, end_) := iv in
  if (end_ <=? start_time r) || (start >=? end_time r)
  then [(start, end_)]
  else (if start <? start_time r then [(start, start_time r)] else [])
       ++ (if end_ >? end_time r then [(end_time r, end_)] else []).

(** The body of [for r in reports]. *)
Definition apply_report (charger_intervals : list Interval)
    (r : ChargerReport) : list Interval :=
  if is_up r
  then charger_intervals ++ [(start_time r, end_time r)]
  else flat_map (split_interval r) charger_intervals.

Definition reconcile (reports : list ChargerReport) : list Interval :=
  foldl apply_report [] reports.

(** ** Floating point *)

Definition prec : Z := 53.
Definition emax : Z := 1024.

(** An integer as a float operand with its exact value (the mantissa is
    not yet rounded). *)
Definition Z2SF (a : Z) : spec_float :=
  match a with
  | Z0 => S754_zero false
  | Zpos p => S754_finite false p 0
  | Zneg p => S754_finite true p 0
  end.

Definition is_infinity (x : spec_float) : bool :=
  match x with S754_infinity _ => true | _ => false end.

(** [a / b] on two integers: the quotient rounded once to the nearest
    float, ties to even. *)
Definition int_true_div (a b : Z) : result spec_float :=
  if b =? 0 then Raise ZeroDivisionError
  else
    let q := SFdiv prec emax (Z2SF a) (Z2SF b) in
    if is_infinity q then Raise OverflowError else Ok q.

(** [float(n)]. *)
Definition float_of_int (n : Z) : result spec_float :=
  let x := binary_normalize prec emax n 0 false in
  if is_infinity x then Raise OverflowError else Ok x.

(** [x * n] for a float [x] and an integer [n]. *)
Definition float_mul_int (x : spec_float) (n : Z) : result spec_float :=
  let* y := float_of_int n in Ok (SFmul prec emax x y).

(** [int(x)]: truncation towards zero. *)
Definition int_of_float (x : spec_float) : result Z :=
  match x with
  | S754_zero _ => Ok 0
  | S754_infinity _ => Raise OverflowError
  | S754_nan => Raise (ValueError "cannot convert float NaN to integer")
  | S754_finite s m e =>
      let a := match e with
               | Zneg k => Z.shiftr (Zpos m) (Zpos k)
               | _ => Z.shiftl (Zpos m) e
               end in
      Ok (if s then - a else a)
  end.

(** [int((total_up_time / total_time) * 100)]. *)
Definition uptime_percentage (total_up_time total_time : Z) : result Z :=
  let* q := int_true_div total_up_time total_time in
  let* p := float_mul_int q 100 in
  int_of_float p.

(** ** [calculate_station_uptime] *)

(** The variables of the loop over the chargers of one station.
    [window = None] stands for [has_reports = False], with [min_time] and
    [max_time] still at their infinite initial values;
    [window = Some (min_time, max_time)] for [has_reports = True].
    [charger_up_intervals] is the dictionary in insertion order; the
    keys come from a set, so every key is inserted once. *)
Record station_state : Type := mkState {
  window : option (Z * Z);
  charger_up_intervals : list (Z * list Interval)
}.

Definition min_of (x : Z) (l : list Z) : Z := foldl Z.min x l.
Definition max_of (x : Z) (l : list Z) : Z := foldl Z.max x l.

(** The body of [if charger_id in self.charger_reports], on the list
    [raw] found there. *)
Definition visit_reports (st : station_state) (cid : Z)
    (raw : list ChargerReport) : station_state :=
  let reports := py_sorted report_leb raw in
  match reports with
  | [] => st
  | r0 :: rs =>
      let lo := min_of (start_time r0) (start_time <$> rs) in
      let hi := max_of (end_time r0) (end_time <$> rs) in
      let charger_intervals := reconcile reports in
      {| window :=
           Some match window st with
                | None => (lo, hi)
                | Some (min_time, max_time) =>
                    (Z.min min_time lo, Z.max max_time hi)
                end;
         charger_up_intervals :=
           match charger_intervals with
           | [] => charger_up_intervals st
           | _ :: _ => charger_up_intervals st ++ [(cid, charger_intervals)]
           end |}
  end.

(** The body of [for charger_id in charger_ids]. *)
Definition visit_charger (self : StationUptimeCalculator)
    (st : station_state) (cid : Z) : station_state :=
  match charger_reports self !! cid with
  | None => st
  | Some raw => visit_reports st cid raw
  end.

Definition initial_state : station_state :=
  {| window := None; charger_up_intervals := [] |}.

(** The loop over the chargers of a station, visited in the order
    [order]. *)
Definition scan_chargers (self : StationUptimeCalculator)
    (order : list Z) : station_state :=
  foldl (visit_charger self) initial_state order.

(** The order in which a set yields its members is not specified; the
    model takes the order of [elements].  (Any other order gives the
    same percentage, lemma [station_percentage_any_order].) *)
Definition scan_station (self : StationUptimeCalculator)
    (charger_ids : gset Z) : station_state :=
  scan_chargers self (elements charger_ids).

(** [any(start <= t <= end for start, end in intervals)]. *)
Definition up_at (t : Z) (intervals : list Interval) : bool :=
  existsb (fun iv : Interval => (iv.1 <=? t) && (t <=? iv.2)) intervals.

Definition interval_length (iv : Interval) : Z := iv.2 - iv.1.

Definition sum_lengths (l : list Interval) : Z :=
  foldr (fun iv acc => interval_length iv + acc) 0 l.

(** The body of [for station_id in sorted(...)] after the loop over the
    chargers: the percentage appended to [results]. *)
Definition station_percentage (st : station_state) : result Z :=
  match window st with
  | None => Ok 0
  | Some (min_time, max_time) =>
      let values := snd <$> charger_up_intervals st in
      if min_time =? max_time then
        Ok (if existsb (up_at min_time) values then 100 else 0)
      else
        let all_intervals := concat values in
        let merged_intervals := _merge_intervals all_intervals in
        let total_up_time := sum_lengths merged_intervals in
        let total_time := max_time - min_time in
        uptime_percentage total_up_time total_time
  end.

Definition station_uptime (self : StationUptimeCalculator)
    (charger_ids : gset Z) : result Z :=
  station_percentage (scan_station self charger_ids).

Fixpoint mapM_result {A B} (f : A → result B) (l : list A)
    : result (list B) :=
  match l with
  | [] => Ok []
  | a :: l' => let* b := f a in let* bs := mapM_result f l' in Ok (b :: bs)
  end.

Definition calculate_station_uptime (self : StationUptimeCalculator)
    : result (list (Z * Z)) :=
  mapM_result
    (fun station_id =>
       match station_chargers self !! station_id with
       | Some charger_ids =>
           let* p := station_uptime self charger_ids in Ok (station_id, p)
       | None => Raise IndexError
       end)
    (py_sorted Z.leb (elements (dom (station_chargers self)))).


(** ** Notions used in the statements *)

(** The data model's invariant on an interval. *)
Definition valid_interval (iv : Interval) : Prop := iv.1 ≤ iv.2.

(** [separated i j]: [i] ends strictly before [j] starts. *)
Definition separated (i j : Interval) : Prop := i.2 < j.1.

Definition starts_before (i j : Interval) : Prop := i.1 ≤ j.1.

(** The merge loop with the last element of [merged] held apart: [cur]
    is [merged[-1]] and the result is what [merged] gains from there. *)
Fixpoint merge_from (cur : Interval) (rest : list Interval)
    : list Interval :=
  match rest with
  | [] => [cur]
  | iv :: rest' =>
      if iv.1 <=? cur.2
      then merge_from (cur.1, Z.max cur.2 iv.2) rest'
      else cur :: merge_from iv rest'
  end.

(** ** Concrete datasets *)

Definition up (c s e : Z) : ChargerReport := mkReport c s e true.
Definition down (c s e : Z) : ChargerReport := mkReport c s e false.

(** A calculator from the station lines and the reports of each charger,
    as the parser leaves it. *)
Definition calc_of (stations : list (Z * list Z))
    (reports : list (Z * list ChargerReport)) : StationUptimeCalculator :=
  {| station_chargers := list_to_map (prod_map id list_to_set <$> stations);
     charger_reports := list_to_map reports |}.

(** ** The dataset seen from one station *)

(** The raw reports of a charger; a charger without an entry in
    [charger_reports] has none. *)
Definition reports_of (self : StationUptimeCalculator) (cid : Z)
    : list ChargerReport :=
  default [] (charger_reports self !! cid).

(** The confirmed-up intervals of a charger: its reports, sorted and
    reconciled. *)
Definition confirmed_up (self : StationUptimeCalculator) (cid : Z)
    : list Interval :=
  reconcile (py_sorted report_leb (reports_of self cid)).

Definition station_reports (self : StationUptimeCalculator)
    (charger_ids : gset Z) : list ChargerReport :=
  elements charger_ids ≫= reports_of self.

Definition station_intervals (self : StationUptimeCalculator)
    (charger_ids : gset Z) : list Interval :=
  elements charger_ids ≫= confirmed_up self.

(** [observed_window rs w]: [w] is the observed window of the reports
    [rs], that is nothing when there is no report and otherwise the least
    start time and the greatest end time. *)
Definition observed_window (rs : list ChargerReport)
    (w : option (Z * Z)) : Prop :=
  match w with
  | None => rs = []
  | Some (lo, hi) =>
      (∃ r, r ∈ rs ∧ start_time r = lo) ∧ (∀ r, r ∈ rs → lo ≤ start_time r)
      ∧ (∃ r, r ∈ rs ∧ end_time r = hi) ∧ (∀ r, r ∈ rs → end_time r ≤ hi)
  end.

(** The data model's invariant on a report, and on a dataset. *)
Definition valid_report (r : ChargerReport) : Prop :=
  start_time r ≤ end_time r.

Definition valid_dataset (self : StationUptimeCalculator) : Prop :=
  ∀ cid rs, charger_reports self !! cid = Some rs → Forall valid_report rs.

(** ** Unit cells

    All times are integers, so the length of a union of intervals is the
    number of unit cells [[k, k + 1)] that the intervals cover. *)

(** The cell [[k, k + 1)] lies in the interval. *)
Definition in_cell (k : Z) (iv : Interval) : bool :=
  (iv.1 <=? k) && (k <? iv.2).

Definition cover (l : list Interval) (k : Z) : bool := existsb (in_cell k) l.

(** The number of cells [lo, lo + 1, ..., lo + n - 1] that satisfy [P]. *)
Fixpoint count_cells (P : Z → bool) (lo : Z) (n : nat) : Z :=
  match n with
  | O => 0
  | S n' => (if P lo then 1 else 0) + count_cells P (lo + 1) n'
  end.

Definition report_cell (k : Z) (r : ChargerReport) : bool :=
  in_cell k (start_time r, end_time r).

(** The cell [k] is confirmed up by the reports [rs] of one charger: an
    up report covers it, and every down report that covers it starts
    strictly earlier than that up report. *)
Definition cell_confirmed (rs : list ChargerReport) (k : Z) : Prop :=
  ∃ u, u ∈ rs ∧ is_up u = true ∧ report_cell k u = true
       ∧ ∀ d, d ∈ rs → is_up d = false → report_cell k d = true →
              start_time d < start_time u.

(** The length of the part of the window [[lo, hi]] during which a
    charger of the station is confirmed up. *)
Definition up_length (self : StationUptimeCalculator) (charger_ids : gset Z)
    (lo hi : Z) : Z :=
  count_cells (cover (station_intervals self charger_ids)) lo
    (Z.to_nat (hi - lo)).

(** ** Rounding to the nearest float, on integers

    The value of a non-negative float is counted in units of the least
    positive float, [2 ^ emin]; the rounding of a non-negative rational
    [A / B] of such units is described by the position of the rational
    among the half-units of the target exponent. *)

Definition emin : Z := SpecFloat.emin prec emax.

(** The value of a non-negative float in units of [2 ^ emin]. *)
Definition ulps (f : spec_float) : Z :=
  match f with
  | S754_finite false m e => Zpos m * 2 ^ (e - emin)
  | _ => 0
  end.

(** A non-negative float that the operations below return: a zero, or a
    finite number with an exponent in range. *)
Definition nonneg_float (f : spec_float) : Prop :=
  match f with
  | S754_zero false => True
  | S754_finite false m e => emin ≤ e ≤ emax - prec
  | _ => False
  end.

(** The position of [N / D] on the grid of halves, in four steps per
    unit: [4 m] on the integer [m], [4 m + 2] on [m + 1/2], odd in
    between. *)
Definition code_of (N D : Z) : Z :=
  2 * (2 * N / D) + (if (2 * N) mod D =? 0 then 0 else 1).

Definition rec_of_code (c : Z) : shr_record :=
  {| shr_m := c / 4; shr_r := Z.odd (c / 2); shr_s := Z.odd c |}.

Definition loc_code (l : location) : Z :=
  match l with
  | loc_Exact => 0
  | loc_Inexact Lt => 1
  | loc_Inexact Eq => 2
  | loc_Inexact Gt => 3
  end.

(** The position after one more bit is dropped. *)
Definition halve_code (c : Z) : Z :=
  2 * (c / 4) + (if c mod 4 =? 0 then 0 else 1).

(** Round to nearest, ties to even, from a position. *)
Definition rne (c : Z) : Z :=
  let m := c / 4 in
  let k := c mod 4 in
  if k <=? 1 then m
  else if k =? 2 then (if Z.even m then m else m + 1)
  else m + 1.

(** [RN A B]: the rational [A / B] of units rounded to a float, in
    units. *)
Definition RN (A B : Z) : Z :=
  let n := Z.max (Zdigits2 (A / B) - prec) 0 in
  rne (code_of A (B * 2 ^ n)) * 2 ^ n.

(** The percentage without floats: the quotient rounded, times 100
    rounded, truncated. *)
Definition rounded_percentage (u t : Z) : Z :=
  RN (RN (u * 2 ^ (- emin)) t * 100) 1 / 2 ^ (- emin).

(** The percentage of the specification: the exact floor. *)
Definition exact_percentage (u t : Z) : Z := 100 * u / t.

(** The float with the rounded mantissa [m <= 2 ^ prec] at the exponent
    [e]. *)
Definition float_of_mant (m e : Z) : spec_float :=
  match m with
  | Zpos p =>
      if m <? 2 ^ prec then S754_finite false p e
      else S754_finite false (Z.to_pos (m / 2)) (e + 1)
  | _ => S754_zero false
  end.

(** The float that [RN A B] counts. *)
Definition float_RN (A B : Z) : spec_float :=
  let n := Z.max (Zdigits2 (A / B) - prec) 0 in
  float_of_mant (rne (code_of A (B * 2 ^ n))) (emin + n).

(** [float(100)]. *)
Definition float_100 : spec_float :=
  S754_finite false 7036874417766400 (-46).

(** ** One more report

    The calculator after the parser has stored one more report [r] for
    the charger [c]: the report is appended to the charger's list, which
    is created when the charger had none. *)
Definition add_report (self : StationUptimeCalculator) (c : Z)
    (r : ChargerReport) : StationUptimeCalculator :=
  {| station_chargers := station_chargers self;
     charger_reports :=
       <[c := reports_of self c ++ [r]]> (charger_reports self) |}.

(** The window widened by one report. *)
Definition widen (w : option (Z * Z)) (r : ChargerReport) : Z * Z :=
  match w with
  | None => (start_time r, end_time r)
  | Some (lo, hi) => (Z.min lo (start_time r), Z.max hi (end_time r))
  end.

(** ** Strings

    A [str] is a [string]; its characters are the code points below
    256.  The functions below are the built-in string methods that the
    parser calls. *)

Definition code_point (c : ascii) : Z := Z.of_N (N_of_ascii c).

(** [str.isspace] on one character. *)
Definition str_is_space (c : ascii) : bool :=
  let n := code_point c in
  ((9 <=? n) && (n <=? 13)) || ((28 <=? n) && (n <=? 32))
  || (n =? 133) || (n =? 160).

Fixpoint str_lstrip (s : string) : string :=
  match s with
  | EmptyString => EmptyString
  | String c s' => if str_is_space c then str_lstrip s' else s
  end.

Definition str_rev (s : string) : string :=
  string_of_list_ascii (rev (list_ascii_of_string s)).

Definition str_rstrip (s : string) : string :=
  str_rev (str_lstrip (str_rev s)).

(** [s.strip()]. *)
Definition str_strip (s : string) : string := str_rstrip (str_lstrip s).

(** [s.split(sep)] for a one-character separator. *)
Fixpoint str_split (sep : ascii) (s : string) : list string :=
  match s with
  | EmptyString => [EmptyString]
  | String c s' =>
      if Ascii.eqb c sep then EmptyString :: str_split sep s'
      else match str_split sep s' with
           | [] => [String c EmptyString]
           | w :: ws => String c w :: ws
           end
  end.

(** [s.split()]: the maximal runs of characters that are not white
    space; [cur] is the run being read, last character first. *)
Fixpoint str_words (cur : list ascii) (s : string) : list string :=
  match s with
  | EmptyString =>
      match cur with
      | [] => []
      | _ :: _ => [string_of_list_ascii (rev cur)]
      end
  | String c s' =>
      if str_is_space c then
        match cur with
        | [] => str_words [] s'
        | _ :: _ => string_of_list_ascii (rev cur) :: str_words [] s'
        end
      else str_words (c :: cur) s'
  end.

Definition str_split_ws (s : string) : list string := str_words [] s.

(** [s.lower()]. *)
Definition chr_lower (c : ascii) : ascii :=
  let n := code_point c in
  if (65 <=? n) && (n <=? 90) then ascii_of_N (Z.to_N (n + 32)) else c.

Fixpoint str_lower (s : string) : string :=
  match s with
  | EmptyString => EmptyString
  | String c s' => String (chr_lower c) (str_lower s')
  end.

(** [int(s)] in base 10: white space around, an optional sign, decimal
    digits with single underscores between digits.  ([prev] tells
    whether the previous character was a digit.)  The interpreter's
    limit on the number of digits is not modelled. *)
Fixpoint int_digits (acc : Z) (prev : bool) (s : string) : option Z :=
  match s with
  | EmptyString => if prev then Some acc else None
  | String c s' =>
      let n := code_point c in
      if (48 <=? n) && (n <=? 57) then int_digits (10 * acc + (n - 48)) true s'
      else if (n =? 95) && prev then int_digits acc false s'
      else None
  end.

Definition py_int (s : string) : option Z :=
  match str_strip s with
  | String "+" s' => int_digits 0 false s'
  | String "-" s' => Z.opp <$> int_digits 0 false s'
  | s' => int_digits 0 false s'
  end.

(** [l.index(x)]. *)
Fixpoint list_index (x : string) (l : list string) : option nat :=
  match l with
  | [] => None
  | y :: l' => if String.eqb y x then Some O else S <$> list_index x l'
  end.

(** ** [parse_input_file] *)

Definition int_or_raise (s : string) : result Z :=
  match py_int s with
  | Some z => Ok z
  | None => Raise (ValueError "invalid literal for int() with base 10")
  end.

Fixpoint foldM_result {S A} (f : S → A → result S) (s : S) (l : list A)
    : result S :=
  match l with
  | [] => Ok s
  | a :: l' => let* s' := f s a in foldM_result f s' l'
  end.

Definition is_blank (line : string) : bool :=
  match str_strip line with
  | EmptyString => true
  | String _ _ => false
  end.

(** The body of the loop over the lines of the stations section. *)
Definition parse_station_line (self : StationUptimeCalculator)
    (line : string) : result StationUptimeCalculator :=
  if is_blank line then Ok self
  else
    let parts := str_split_ws line in
    if (length parts <? 2)%nat
    then Raise (ValueError "Invalid station line format")
    else
      match parts with
      | [] => Raise IndexError
      | p0 :: rest =>
          let* station_id := int_or_raise p0 in
          let* charger_ids := mapM_result int_or_raise rest in
          Ok {| station_chargers :=
                  <[station_id := list_to_set charger_ids]>
                    (station_chargers self);
                charger_reports := charger_reports self |}
      end.

(** The body of the loop over the lines of the reports section. *)
Definition parse_report_line (self : StationUptimeCalculator)
    (line : string) : result StationUptimeCalculator :=
  if is_blank line then Ok self
  else
    let parts := str_split_ws line in
    if negb (length parts =? 4)%nat
    then Raise (ValueError "Invalid report line format")
    else
      match parts with
      | [p0; p1; p2; p3] =>
          let* charger_id := int_or_raise p0 in
          let* start_time := int_or_raise p1 in
          let* end_time := int_or_raise p2 in
          let is_up := String.eqb (str_lower p3) "true" in
          if start_time >? end_time
          then Raise (ValueError "Start time cannot be greater than end time")
          else Ok (add_report self charger_id
                     (mkReport charger_id start_time end_time is_up))
      | _ => Raise IndexError
      end.

Definition stations_marker : string := "[Stations]".
Definition reports_marker : string := "[Charger Availability Reports]".
Definition newline : ascii := ascii_of_N 10.

(** [content[stations_start + 1:reports_start]] and
    [content[reports_start + 1:]]. *)
Definition station_lines (content : list string)
    (stations_start reports_start : nat) : list string :=
  take (reports_start - (stations_start + 1)) (drop (stations_start + 1) content).

Definition report_lines (content : list string) (reports_start : nat)
    : list string :=
  drop (reports_start + 1) content.

Definition file_content (text : string) : list string :=
  str_split newline (str_strip text).

(** The inner [try]: both markers, or [ValueError]. *)
Definition find_sections (content : list string) : result (nat * nat) :=
  match list_index stations_marker content,
        list_index reports_marker content with
  | Some stations_start, Some reports_start =>
      Ok (stations_start, reports_start)
  | _, _ => Raise (ValueError "Missing required sections")
  end.

(** The body of the outer [try].  The file is its text, or [None] when
    it cannot be opened or read.  The calculator is updated line by
    line; when a line raises, the updates made so far are not
    returned. *)
Definition parse_body (self : StationUptimeCalculator)
    (file : option string) : result StationUptimeCalculator :=
  match file with
  | None => Raise IOError
  | Some text =>
      let content := file_content text in
      let* sections := find_sections content in
      let* self := foldM_result parse_station_line self
                     (station_lines content sections.1 sections.2) in
      foldM_result parse_report_line self (report_lines content sections.2)
  end.

(** [str(e)]; the interpreter's own messages are abbreviated. *)
Definition exn_message (e : exn) : string :=
  match e with
  | ValueError msg => msg
  | IOError => "cannot read the file"
  | IndexError => "index out of range"
  | ZeroDivisionError => "division by zero"
  | OverflowError => "result too large"
  end.

(** The exceptions that the outer handler catches. *)
Definition caught (e : exn) : Prop :=
  match e with
  | IOError | ValueError _ | IndexError => True
  | _ => False
  end.

(** [except (IOError, ValueError, IndexError) as e: raise ValueError(...)]. *)
Definition reraise_as_ValueError {A} (x : result A) : result A :=
  match x with
  | Raise ((IOError | ValueError _ | IndexError) as e) =>
      Raise (ValueError ("Error parsing input file: " ++ exn_message e))
  | _ => x
  end.

Definition parse_input_file (self : StationUptimeCalculator)
    (file : option string) : result StationUptimeCalculator :=
  reraise_as_ValueError (parse_body self file).

Definition empty_calculator : StationUptimeCalculator :=
  {| station_chargers := ∅; charger_reports := ∅ |}.

(** ** Malformed input, line by line *)

Definition station_line_malformed (line : string) : Prop :=
  is_blank line = false
  ∧ ((length (str_split_ws line) < 2)%nat
     ∨ ∃ field, field ∈ str_split_ws line ∧ py_int field = None).

Definition report_line_malformed (line : string) : Prop :=
  is_blank line = false
  ∧ (length (str_split_ws line) ≠ 4%nat
     ∨ (∃ field, field ∈ take 3 (str_split_ws line) ∧ py_int field = None)
     ∨ (∃ p1 p2 a b, str_split_ws line !! 1%nat = Some p1
                     ∧ str_split_ws line !! 2%nat = Some p2
                     ∧ py_int p1 = Some a ∧ py_int p2 = Some b ∧ a > b)).

(** The file cannot be read, a section marker is missing, or a line of
    one of the two sections is malformed. *)
Definition malformed_input (file : option string) : Prop :=
  match file with
  | None => True
  | Some text =>
      let content := file_content text in
      match list_index stations_marker content,
            list_index reports_marker content with
      | Some stations_start, Some reports_start =>
          (∃ line, line ∈ station_lines content stations_start reports_start
                   ∧ station_line_malformed line)
          ∨ (∃ line, line ∈ report_lines content reports_start
                     ∧ report_line_malformed line)
      | _, _ => True
      end
  end.

(** ** The calculator as objects in a store

    [calculate_station_uptime] once more, with the lists it works on as
    objects in a store: the report lists that [self.charger_reports]
    refers to, and the list [all_intervals] that [_merge_intervals]
    sorts in place.  Lists that a function builds and only reads stay
    values.  A location is an index into the list of objects; a new
    object goes to the end. *)
Module Heap.

Inductive object : Type :=
  | ReportList (l : list ChargerReport)
  | IntervalList (l : list Interval).

(** The two dictionaries of [self] and the objects. *)
Record state : Type := mkStore {
  station_chargers : gmap Z (gset Z);
  charger_reports : gmap Z nat;
  objects : list object
}.

Definition M (A : Type) : Type := state → result (A * state).

Definition ret {A} (a : A) : M A := fun s => Ok (a, s).

Definition bind {A B} (m : M A) (k : A → M B) : M B :=
  fun s =>
    match m s with
    | Ok (a, s') => k a s'
    | Raise e => Raise e
    end.

Definition lift {A} (x : result A) : M A :=
  fun s =>
    match x with
    | Ok a => Ok (a, s)
    | Raise e => Raise e
    end.

Definition get_stations : M (gmap Z (gset Z)) :=
  fun s => Ok (station_chargers s, s).

Definition get_charger (cid : Z) : M (option nat) :=
  fun s => Ok (charger_reports s !! cid, s).

(** A new list object. *)
Definition alloc (o : object) : M nat :=
  fun s =>
    Ok (length (objects s),
        {| station_chargers := station_chargers s;
           charger_reports := charger_reports s;
           objects := objects s ++ [o] |}).

Definition read_reports (l : nat) : M (list ChargerReport) :=
  fun s =>
    match objects s !! l with
    | Some (ReportList rs) => Ok (rs, s)
    | _ => Raise IndexError
    end.

Definition read_intervals (l : nat) : M (list Interval) :=
  fun s =>
    match objects s !! l with
    | Some (IntervalList ivs) => Ok (ivs, s)
    | _ => Raise IndexError
    end.

(** Assignment to the contents of a list object. *)
Definition write_intervals (l : nat) (ivs : list Interval) : M unit :=
  fun s =>
    Ok (tt,
        {| station_chargers := station_chargers s;
           charger_reports := charger_reports s;
           objects := <[l := IntervalList ivs]> (objects s) |}).

Fixpoint foldlM {A B} (f : B → A → M B) (b : B) (l : list A) : M B :=
  match l with
  | [] => ret b
  | a :: l' => bind (f b a) (fun b' => foldlM f b' l')
  end.

Fixpoint mapM {A B} (f : A → M B) (l : list A) : M (list B) :=
  match l with
  | [] => ret []
  | a :: l' =>
      bind (f a) (fun b => bind (mapM f l') (fun bs => ret (b :: bs)))
  end.

(** [_merge_intervals(intervals)]: [intervals.sort()] writes to the
    argument. *)
Definition _merge_intervals (intervals : nat) : M (list Interval) :=
  bind (read_intervals intervals) (fun ivs =>
  match ivs with
  | [] => ret []
  | _ :: _ =>
      bind (write_intervals intervals (py_sorted interval_leb ivs)) (fun _ =>
      bind (read_intervals intervals) (fun ivs =>
      match ivs with
      | [] => lift (Raise IndexError)
      | first :: rest => ret (foldl merge_step [first] rest)
      end))
  end).

(** The body of [for charger_id in charger_ids]; [sorted] returns a new
    list and leaves the charger's list as it is. *)
Definition visit_charger (st : station_state) (cid : Z) : M station_state :=
  bind (get_charger cid) (fun entry =>
  match entry with
  | None => ret st
  | Some l => bind (read_reports l) (fun raw => ret (visit_reports st cid raw))
  end).

Definition station_uptime (charger_ids : gset Z) : M Z :=
  bind (foldlM visit_charger initial_state (elements charger_ids)) (fun st =>
  match window st with
  | None => ret 0
  | Some (min_time, max_time) =>
      let values := snd <$> charger_up_intervals st in
      if min_time =? max_time then
        ret (if existsb (up_at min_time) values then 100 else 0)
      else
        bind (alloc (IntervalList (concat values))) (fun all_intervals =>
        bind (_merge_intervals all_intervals) (fun merged_intervals =>
        let total_up_time := sum_lengths merged_intervals in
        let total_time := max_time - min_time in
        lift (uptime_percentage total_up_time total_time)))
  end).

Definition calculate_station_uptime : M (list (Z * Z)) :=
  bind get_stations (fun stations =>
  mapM
    (fun station_id =>
       match stations !! station_id with
       | Some charger_ids =>
           bind (station_uptime charger_ids) (fun p => ret (station_id, p))
       | None => lift (Raise IndexError)
       end)
    (py_sorted Z.leb (elements (dom stations)))).

(** The calculator that the store holds, with the lists by value. *)
Definition view (s : state) : StationUptimeCalculator :=
  mkCalc (station_chargers s)
    (omap (fun l => match objects s !! l with
                    | Some (ReportList rs) => Some rs
                    | _ => None
                    end)
          (charger_reports s)).

(** Every entry of [self.charger_reports] refers to a list of reports. *)
Definition well_formed (s : state) : Prop :=
  ∀ cid l, charger_reports s !! cid = Some l →
           ∃ rs, objects s !! l = Some (ReportList rs).

(** [s'] is [s] with new objects at the end. *)
Definition extends (s s' : state) : Prop :=
  station_chargers s' = station_chargers s
  ∧ charger_reports s' = charger_reports s
  ∧ ∃ new, objects s' = objects s ++ new.

End Heap.

(** ** The whole program

    [main] without the printing: parse into a new calculator, then
    compute. *)
Definition run (file : option string)
    : result (list (Z * Z)) :=
  let* self := parse_input_file empty_calculator file in
  calculate_station_uptime self.

(** ** The confirmed units of a station, from the reports

    [cell_confirmed] as a test, and the number of units of the window
    [[lo, hi]] that a charger of the station confirms. *)
Definition unit_confirmed (rs : list ChargerReport) (k : Z) : bool :=
  existsb
    (fun u =>
       is_up u && report_cell k u
       && forallb
            (fun d =>
               is_up d || negb (report_cell k d)
               || (start_time d <? start_time u))
            rs)
    rs.

Definition station_up_units (self : StationUptimeCalculator)
    (charger_ids : gset Z) (lo hi : Z) : Z :=
  count_cells
    (fun k =>
       existsb (fun cid => unit_confirmed (reports_of self cid) k)
         (elements charger_ids))
    lo (Z.to_nat (hi - lo)).

(** ** [main]

    The process as a function of its command line and of the files:
    [argv] is [sys.argv], and [read_file path] is the text of the file
    at [path], or nothing when the file cannot be read.  The outcome is
    the list of the lines printed and the exit status. *)
Record outcome : Type := mkOutcome {
  printed : list string;
  exit_status : Z
}.

(** [str(n)] on an integer, as the f-string formats it. *)
Definition py_str (n : Z) : string :=
  DecimalString.NilZero.string_of_int (Z.to_int n).

(** [f"{station_id} {uptime}"]. *)
Definition result_line (entry : Z * Z) : string :=
  (py_str entry.1 ++ " " ++ py_str entry.2)%string.

(** [sys.argv[i]]. *)
Definition list_get {A} (l : list A) (i : nat) : result A :=
  match l !! i with
  | Some a => Ok a
  | None => Raise IndexError
  end.

(** The lines are printed once [results] is complete; every exception
    of the model is an [Exception] and is caught by the handler. *)
Definition main (argv : list string) (read_file : string → option string)
    : outcome :=
  if negb (length argv =? 2)%nat
  then {| printed := ["ERROR"%string]; exit_status := 1 |}
  else
    match
      (let* path := list_get argv 1 in
       let* calculator :=
         parse_input_file empty_calculator (read_file path) in
       calculate_station_uptime calculator)
    with
    | Ok results =>
        {| printed := result_line <$> results; exit_status := 0 |}
    | Raise _ => {| printed := ["ERROR"%string]; exit_status := 1 |}
    end.

(** * Properties *)

(** ** The result monad *)

Lemma rbind_Ok {A B} (x : result A) (k : A → result B) b :
  rbind x k = Ok b ↔ ∃ a, x = Ok a ∧ k a = Ok b.
Proof.
  destruct x as [a|e]; simpl; split.
  - eauto.
  - intros (a' & [= <-] & Hk). done.
  - done.
  - intros (a' & [=] & _).
Qed.

(** ** Sorting *)

Section SortingFacts.
Context {A : Type} (leb : A → A → bool).

Lemma insert_sorted_Permutation x l : insert_sorted leb x l ≡ₚ x :: l.
Proof.
  induction l as [|y l IH]; simpl; [done|].
  destruct (leb x y); [done|].
  rewrite IH. apply Permutation_swap.
Qed.

Lemma py_sorted_Permutation l : py_sorted leb l ≡ₚ l.
Proof.
  induction l as [|x l IH]; simpl; [done|].
  rewrite insert_sorted_Permutation. by f_equiv.
Qed.

Lemma elem_of_py_sorted x l : x ∈ py_sorted leb l ↔ x ∈ l.
Proof. by rewrite py_sorted_Permutation. Qed.

Lemma py_sorted_nil_inv l : py_sorted leb l = [] → l = [].
Proof.
  intros H. apply Permutation_nil_r. rewrite <- H.
  symmetry. apply py_sorted_Permutation.
Qed.

Lemma py_sorted_length l : length (py_sorted leb l) = length l.
Proof. by rewrite py_sorted_Permutation. Qed.

(** A list whose neighbours are in order is left as it is. *)
Lemma py_sorted_id l :
  Sorted (fun x y => leb x y = true) l → py_sorted leb l = l.
Proof.
  induction 1 as [|x l Hs IH Hhd]; simpl; [done|].
  rewrite IH. destruct Hhd as [|y l' Hxy]; simpl; [done|].
  by rewrite Hxy.
Qed.

Context (leb_total : ∀ x y, leb x y = true ∨ leb y x = true).
Context (leb_trans : ∀ x y z,
            leb x y = true → leb y z = true → leb x z = true).

Lemma insert_sorted_StronglySorted x l :
  StronglySorted (fun x y => leb x y = true) l →
  StronglySorted (fun x y => leb x y = true) (insert_sorted leb x l).
Proof.
  induction 1 as [|y l Hs IH Hall]; simpl.
  - repeat constructor.
  - destruct (leb x y) eqn:Hxy.
    + constructor; [by constructor|].
      constructor; [done|].
      eapply Forall_impl; [exact Hall|]. simpl. eauto.
    + constructor; [done|].
      rewrite insert_sorted_Permutation. constructor; [|done].
      destruct (leb_total x y); congruence.
Qed.

Lemma py_sorted_StronglySorted l :
  StronglySorted (fun x y => leb x y = true) (py_sorted leb l).
Proof.
  induction l; simpl; [constructor|].
  by apply insert_sorted_StronglySorted.
Qed.

(** Two members of the input, the first strictly below the second,
    come out in that order. *)
Lemma py_sorted_strict_order x y l :
  x ∈ l → y ∈ l → leb y x = false →
  ∃ l1 l2 l3, py_sorted leb l = l1 ++ x :: l2 ++ y :: l3.
Proof.
  intros Hx Hy Hlt.
  pose proof (py_sorted_StronglySorted l) as Hs.
  apply elem_of_py_sorted in Hx. apply elem_of_py_sorted in Hy.
  revert Hx Hy Hs. generalize (py_sorted leb l). clear l.
  intros l Hx Hy Hs.
  apply list_elem_of_split in Hx as (l1 & l2 & ->).
  apply elem_of_app in Hy as [Hy|Hy].
  - (* y before x: contradicts the order *)
    apply list_elem_of_split in Hy as (k1 & k2 & ->).
    rewrite <- app_assoc in Hs. simpl in Hs.
    apply StronglySorted_app_1_r in Hs.
    apply StronglySorted_cons in Hs as [Hall _].
    rewrite Forall_app, Forall_cons in Hall.
    destruct Hall as (_ & Hyx & _). congruence.
  - apply elem_of_cons in Hy as [->|Hy].
    + destruct (leb_total x x); congruence.
    + apply list_elem_of_split in Hy as (k1 & k2 & ->).
      by exists l1, k1, k2.
Qed.
End SortingFacts.

(** The three orders the code sorts by. *)

Lemma Zleb_total x y : (x <=? y) = true ∨ (y <=? x) = true.
Proof. rewrite !Z.leb_le. lia. Qed.

Lemma Zleb_trans x y z :
  (x <=? y) = true → (y <=? z) = true → (x <=? z) = true.
Proof. rewrite !Z.leb_le. lia. Qed.

Lemma interval_leb_spec i j :
  interval_leb i j = true ↔ i.1 < j.1 ∨ (i.1 = j.1 ∧ i.2 ≤ j.2).
Proof.
  unfold interval_leb.
  rewrite orb_true_iff, andb_true_iff, Z.ltb_lt, Z.eqb_eq, Z.leb_le. done.
Qed.

Lemma interval_leb_total i j :
  interval_leb i j = true ∨ interval_leb j i = true.
Proof. rewrite !interval_leb_spec. lia. Qed.

Lemma interval_leb_trans i j k :
  interval_leb i j = true → interval_leb j k = true →
  interval_leb i k = true.
Proof. rewrite !interval_leb_spec. lia. Qed.

Lemma report_leb_spec x y :
  report_leb x y = true ↔
  start_time x < start_time y ∨
  (start_time x = start_time y ∧ (is_up x = false → is_up y = false)).
Proof.
  unfold report_leb, key_leb, report_key, bool_leb. simpl.
  rewrite orb_true_iff, andb_true_iff, Z.ltb_lt, Z.eqb_eq.
  destruct (is_up x), (is_up y); simpl; intuition congruence.
Qed.

Lemma report_leb_total x y : report_leb x y = true ∨ report_leb y x = true.
Proof.
  rewrite !report_leb_spec.
  destruct (is_up x), (is_up y);
    destruct (Z.lt_total (start_time x) (start_time y)) as [?|[?|?]];
    intuition congruence.
Qed.

Lemma report_leb_trans x y z :
  report_leb x y = true → report_leb y z = true → report_leb x z = true.
Proof.
  rewrite !report_leb_spec.
  destruct (is_up x), (is_up y), (is_up z); intuition (try congruence; try lia).
Qed.

(** ** [_merge_intervals] *)

Lemma merge_step_snoc merged lst iv :
  merge_step (merged ++ [lst]) iv =
  if iv.1 <=? lst.2
  then merged ++ [(lst.1, Z.max lst.2 iv.2)]
  else merged ++ [lst; iv].
Proof.
  unfold merge_step. rewrite last_snoc, removelast_last.
  destruct (iv.1 <=? lst.2); [done|]. by rewrite <- app_assoc.
Qed.

Lemma foldl_merge_step merged cur rest :
  foldl merge_step (merged ++ [cur]) rest = merged ++ merge_from cur rest.
Proof.
  revert merged cur. induction rest as [|iv rest IH]; intros merged cur.
  - done.
  - simpl. rewrite merge_step_snoc.
    destruct (iv.1 <=? cur.2).
    + apply IH.
    + change [cur; iv] with ([cur] ++ [iv]). rewrite app_assoc, IH.
      by rewrite <- app_assoc.
Qed.

Lemma _merge_intervals_unfold l :
  _merge_intervals l =
  match py_sorted interval_leb l with
  | [] => []
  | first :: rest => merge_from first rest
  end.
Proof.
  unfold _merge_intervals, _merge_intervals_inplace.
  destruct l as [|x l]; [done|].
  destruct (py_sorted interval_leb (x :: l)) as [|first rest]; [done|].
  simpl. apply (foldl_merge_step [] first rest).
Qed.

(** The argument is left sorted, with the same elements. *)
Lemma _merge_intervals_inplace_fst l :
  (_merge_intervals_inplace l).1 = py_sorted interval_leb l.
Proof.
  unfold _merge_intervals_inplace. destruct l as [|x l]; [done|].
  by destruct (py_sorted interval_leb (x :: l)).
Qed.

Lemma merge_from_head cur rest :
  ∃ e tl, merge_from cur rest = (cur.1, e) :: tl ∧ cur.2 ≤ e.
Proof.
  revert cur. induction rest as [|iv rest IH]; intros cur; simpl.
  - exists cur.2, []. by destruct cur.
  - destruct (iv.1 <=? cur.2).
    + destruct (IH (cur.1, Z.max cur.2 iv.2)) as (e & tl & -> & He).
      simpl in *. exists e, tl. split; [done|lia].
    + exists cur.2, (merge_from iv rest). by destruct cur.
Qed.

Lemma merge_from_starts cur rest j :
  j ∈ merge_from cur rest → ∃ i, i ∈ cur :: rest ∧ j.1 = i.1.
Proof.
  revert cur. induction rest as [|iv rest IH]; intros cur; simpl.
  - intros ->%list_elem_of_singleton. exists cur. split; [left|done].
  - destruct (iv.1 <=? cur.2).
    + intros (i & Hi & ->)%IH.
      apply elem_of_cons in Hi as [->|Hi].
      * exists cur. split; [left|done].
      * exists i. split; [by do 2 right|done].
    + intros [->|Hj]%elem_of_cons.
      * exists cur. split; [left|done].
      * apply IH in Hj as (i & Hi & ->). exists i. split; [by right|done].
Qed.

Lemma merge_from_sorted cur rest :
  Forall (starts_before cur) rest →
  StronglySorted starts_before rest →
  StronglySorted (fun i j => starts_before i j ∧ separated i j)
    (merge_from cur rest).
Proof.
  revert cur. induction rest as [|iv rest IH]; intros cur Hcur Hs; simpl.
  - repeat constructor.
  - apply Forall_cons in Hcur as [Hiv Hcur].
    apply StronglySorted_cons in Hs as [Hall Hs].
    destruct (Z.leb_spec iv.1 cur.2) as [Hle|Hgt].
    + apply IH; [|done]. done.
    + constructor; [by apply IH|].
      apply Forall_forall. intros j Hj.
      apply merge_from_starts in Hj as (i & Hi & Hji).
      unfold starts_before, separated in *. rewrite Hji.
      apply elem_of_cons in Hi as [->|Hi]; [lia|].
      rewrite Forall_forall in Hall. specialize (Hall _ Hi). lia.
Qed.

Lemma merge_from_valid cur rest :
  valid_interval cur → Forall valid_interval rest →
  Forall valid_interval (merge_from cur rest).
Proof.
  revert cur. induction rest as [|iv rest IH]; intros cur Hc Hr; simpl.
  - by constructor.
  - apply Forall_cons in Hr as [Hiv Hr].
    destruct (iv.1 <=? cur.2).
    + apply IH; [|done]. unfold valid_interval in *. simpl. lia.
    + constructor; [done|]. by apply IH.
Qed.

Lemma merge_from_separated cur rest :
  Sorted separated (cur :: rest) → merge_from cur rest = cur :: rest.
Proof.
  revert cur. induction rest as [|iv rest IH]; intros cur Hs; simpl.
  - done.
  - apply Sorted_inv in Hs as [Hs Hhd]. apply HdRel_inv in Hhd.
    unfold separated in Hhd.
    destruct (Z.leb_spec iv.1 cur.2); [lia|]. by rewrite IH.
Qed.

Lemma interval_sorted_starts l :
  StronglySorted (fun i j => interval_leb i j = true) l →
  StronglySorted starts_before l.
Proof.
  induction 1 as [|x l Hs IH Hall]; constructor; [done|].
  eapply Forall_impl; [exact Hall|].
  intros j Hj. apply interval_leb_spec in Hj. unfold starts_before. lia.
Qed.

Lemma _merge_intervals_sorted l :
  StronglySorted (fun i j => starts_before i j ∧ separated i j)
    (_merge_intervals l).
Proof.
  rewrite _merge_intervals_unfold.
  pose proof (py_sorted_StronglySorted interval_leb interval_leb_total
                interval_leb_trans l) as Hs.
  destruct (py_sorted interval_leb l) as [|first rest]; [constructor|].
  apply interval_sorted_starts, StronglySorted_cons in Hs as [Hall Hs].
  by apply merge_from_sorted.
Qed.

Lemma _merge_intervals_valid l :
  Forall valid_interval l → Forall valid_interval (_merge_intervals l).
Proof.
  intros Hl. rewrite _merge_intervals_unfold.
  assert (Forall valid_interval (py_sorted interval_leb l)) as Hs.
  { by rewrite py_sorted_Permutation. }
  destruct (py_sorted interval_leb l) as [|first rest]; [done|].
  apply Forall_cons in Hs as [? ?]. by apply merge_from_valid.
Qed.

Lemma separated_valid_sorted l :
  Forall valid_interval l → Sorted separated l →
  Sorted (fun i j => interval_leb i j = true) l.
Proof.
  intros Hv Hs. induction Hs as [|x l Hs IH Hhd]; [constructor|].
  apply Forall_cons in Hv as [Hx Hv].
  constructor; [by apply IH|].
  destruct Hhd as [|y l' Hxy]; constructor.
  apply interval_leb_spec. unfold separated, valid_interval in *. lia.
Qed.

(** C6.  The merge rule: two intervals [(a, b)] and [(c, d)] with
    [a <= c] are merged into one iff [c <= b], touching end points
    included, and the merged interval ends at [max b d]; this is the rule
    of every step of the loop; and the output of the merge is sorted by
    start with every interval ending strictly before the next ones
    start. *)
Theorem merge_rule :
  (∀ a b c d : Z, a ≤ b → c ≤ d → a ≤ c →
     _merge_intervals [(a, b); (c, d)] =
       (if decide (c ≤ b) then [(a, Z.max b d)] else [(a, b); (c, d)])
     ∧ _merge_intervals [(c, d); (a, b)] =
       (if decide (c ≤ b) then [(a, Z.max b d)] else [(a, b); (c, d)]))
  ∧ (∀ (merged : list Interval) (a b c d : Z),
       merge_step (merged ++ [(a, b)]) (c, d) =
       if decide (c ≤ b) then merged ++ [(a, Z.max b d)]
       else merged ++ [(a, b); (c, d)])
  ∧ (∀ l : list Interval,
       StronglySorted (fun i j => starts_before i j ∧ separated i j)
         (_merge_intervals l)).
Proof.
  split; [|split].
  - intros a b c d Hab Hcd Hac.
    rewrite !_merge_intervals_unfold. simpl.
    unfold interval_leb; simpl.
    destruct (Z.ltb_spec a c), (Z.ltb_spec c a), (Z.eqb_spec a c),
      (Z.eqb_spec c a), (Z.leb_spec b d), (Z.leb_spec d b);
      simpl; try lia;
      repeat case_decide;
      repeat match goal with
             | |- context [?x <=? ?y] => destruct (Z.leb_spec x y)
             end; simpl in *; try lia; subst;
      rewrite ?(Z.max_comm d b); try done;
      repeat f_equal; lia.
  - intros merged a b c d. rewrite merge_step_snoc. simpl.
    case_decide; destruct (Z.leb_spec c b); done || lia.
  - apply _merge_intervals_sorted.
Qed.

Lemma merge_rule_witness :
  _merge_intervals [(0, 5); (5, 9)] = [(0, 9)]
  ∧ _merge_intervals [(0, 5); (6, 9)] = [(0, 5); (6, 9)].
Proof.
  destruct merge_rule as (Hpair & _ & _). split.
  - apply (Hpair 0 5 5 9); lia.
  - apply (Hpair 0 5 6 9); lia.
Defined.

Lemma _merge_intervals_separated l :
  Forall valid_interval l → Sorted separated l → _merge_intervals l = l.
Proof.
  intros Hv Hs. rewrite _merge_intervals_unfold.
  rewrite (py_sorted_id _ _ (separated_valid_sorted _ Hv Hs)).
  destruct l as [|first rest]; [done|]. by apply merge_from_separated.
Qed.

(** C8.  Merging is idempotent on merged lists: a list of intervals
    (start <= end) in which every interval starts strictly after the
    previous one ends, hence sorted by start, non-overlapping and
    non-touching, is returned as it is. *)
Theorem merge_idempotent (l : list Interval) :
  Forall valid_interval l → Sorted starts_before l → Sorted separated l →
  _merge_intervals l = l.
Proof.
  intros Hv _ Hs. rewrite _merge_intervals_unfold.
  assert (Sorted (fun i j => interval_leb i j = true) l) as Hsorted
    by (by apply separated_valid_sorted).
  rewrite (py_sorted_id _ _ Hsorted).
  destruct l as [|first rest]; [done|]. by apply merge_from_separated.
Qed.

Lemma merge_idempotent_witness :
  _merge_intervals [(0, 5); (7, 7); (9, 12)] = [(0, 5); (7, 7); (9, 12)].
Proof.
  apply merge_idempotent.
  - repeat constructor; unfold valid_interval; simpl; lia.
  - repeat constructor; unfold starts_before; simpl; lia.
  - repeat constructor; unfold separated; simpl; lia.
Defined.

Lemma StronglySorted_weaken {A} (R S : A → A → Prop) l :
  (∀ x y, R x y → S x y) → StronglySorted R l → StronglySorted S l.
Proof.
  intros HRS. induction 1 as [|x l Hs IH Hall]; constructor; [done|].
  eapply Forall_impl; [exact Hall|]. auto.
Qed.

(** Merging the output of a merge changes nothing. *)
Lemma _merge_intervals_twice l :
  Forall valid_interval l →
  _merge_intervals (_merge_intervals l) = _merge_intervals l.
Proof.
  intros Hv. pose proof (_merge_intervals_sorted l) as Hs.
  apply _merge_intervals_separated.
  - by apply _merge_intervals_valid.
  - apply StronglySorted_Sorted.
    eapply StronglySorted_weaken; [|exact Hs]. by intros ?? [? ?].
Qed.

(** ** The reconciliation of one charger *)

Lemma split_interval_spec r a b :
  split_interval r (a, b) =
  if decide (b ≤ start_time r ∨ a >= end_time r) then [(a, b)]
  else (if decide (a < start_time r) then [(a, start_time r)] else [])
       ++ (if decide (b > end_time r) then [(end_time r, b)] else []).
Proof.
  unfold split_interval.
  destruct (Z.leb_spec b (start_time r)), (Z.geb_spec a (end_time r)),
    (Z.ltb_spec a (start_time r)), (Z.gtb_spec b (end_time r));
    simpl; repeat case_decide; simpl; done || lia.
Qed.

(** The order of the reports of one charger: at equal start times an up
    report comes before a down report. *)
Lemma sorted_up_before_down (u d : ChargerReport) (l : list ChargerReport) :
  u ∈ l → d ∈ l → is_up u = true → is_up d = false →
  start_time u = start_time d →
  ∃ l1 l2 l3, py_sorted report_leb l = l1 ++ u :: l2 ++ d :: l3.
Proof.
  intros Hu Hd Hup Hdown Heq.
  apply (py_sorted_strict_order _ report_leb_total report_leb_trans);
    [done..|].
  apply not_true_is_false. rewrite report_leb_spec. intros [?|[_ H]].
  - lia.
  - specialize (H Hdown). congruence.
Qed.

(** C1.  What the code does with a down report and an up report of one
    charger that start together: the sort key [(start_time, not is_up)]
    puts the up report first, the down report is applied last and removes
    the interval, and the station is at 0; applied down first and up
    last, the same two reports leave the interval [(0, 100)]. *)
Theorem tie_break_applies_up_first :
  py_sorted report_leb [down 7 0 100; up 7 0 100]
    = [up 7 0 100; down 7 0 100]
  ∧ reconcile (py_sorted report_leb [down 7 0 100; up 7 0 100]) = []
  ∧ reconcile [down 7 0 100; up 7 0 100] = [(0, 100)]
  ∧ calculate_station_uptime
      (calc_of [(0, [7])] [(7, [down 7 0 100; up 7 0 100])]) = Ok [(0, 0)].
Proof. repeat split; vm_compute; reflexivity. Qed.

(** C4.  A down report [(s, e)] maps every interval [(a, b)] of the
    running list, in order: the interval is kept when [b <= s] or
    [a >= e]; otherwise it is replaced by [(a, s)] when [a < s] and by
    [(e, b)] when [b > e], so that an interval of this second kind that
    lies inside [[s, e]] leaves nothing. *)
Theorem down_report_transform (r : ChargerReport) (ivs : list Interval) :
  is_up r = false →
  let s := start_time r in
  let e := end_time r in
  apply_report ivs r =
    flat_map
      (fun iv : Interval =>
         let '(a, b) := iv in
         if decide (b ≤ s ∨ a >= e) then [(a, b)]
         else (if decide (a < s) then [(a, s)] else [])
              ++ (if decide (b > e) then [(e, b)] else []))
      ivs
  ∧ (∀ a b, b ≤ s ∨ a >= e → apply_report [(a, b)] r = [(a, b)])
  ∧ (∀ a b, ¬ (b ≤ s ∨ a >= e) → s ≤ a → b ≤ e →
       apply_report [(a, b)] r = []).
Proof.
  intros Hdown s e. unfold apply_report. rewrite Hdown.
  split; [|split].
  - induction ivs as [|[a b] ivs IH]; cbn [flat_map]; [done|].
    by rewrite IH, split_interval_spec.
  - intros a b H. cbn [flat_map]. rewrite split_interval_spec.
    by rewrite decide_True.
  - intros a b H Ha Hb. cbn [flat_map]. rewrite split_interval_spec.
    rewrite decide_False by done.
    rewrite decide_False by (subst s; lia).
    rewrite decide_False by (subst e; lia). done.
Qed.

Lemma down_report_transform_witness :
  apply_report [(0, 10); (20, 30); (40, 50); (24, 26)] (down 1 5 25)
    = [(0, 5); (25, 30); (40, 50); (25, 26)]
  ∧ apply_report [(6, 20)] (down 1 5 25) = [].
Proof.
  pose proof (down_report_transform (down 1 5 25)
                [(0, 10); (20, 30); (40, 50); (24, 26)] eq_refl)
    as (H1 & _ & H3).
  split.
  - exact H1.
  - apply H3; simpl; lia.
Defined.

(** ** The scan of the chargers of a station *)

Lemma min_of_spec x l :
  min_of x l ∈ x :: l ∧ ∀ y, y ∈ x :: l → min_of x l ≤ y.
Proof.
  unfold min_of. revert x. induction l as [|z l IH]; intros x; simpl.
  - split; [left|]. intros y ->%list_elem_of_singleton. lia.
  - destruct (IH (Z.min x z)) as [Hin Hle]. split.
    + apply elem_of_cons in Hin as [->|Hin].
      * destruct (Z.min_spec x z) as [[_ ->]|[_ ->]]; [left|right; left].
      * by do 2 right.
    + intros y Hy. apply elem_of_cons in Hy as [->|Hy].
      * specialize (Hle (Z.min x z)). etrans; [apply Hle; left|lia].
      * apply elem_of_cons in Hy as [->|Hy].
        -- specialize (Hle (Z.min x z)). etrans; [apply Hle; left|lia].
        -- apply Hle. by right.
Qed.

Lemma max_of_spec x l :
  max_of x l ∈ x :: l ∧ ∀ y, y ∈ x :: l → y ≤ max_of x l.
Proof.
  unfold max_of. revert x. induction l as [|z l IH]; intros x; simpl.
  - split; [left|]. intros y ->%list_elem_of_singleton. lia.
  - destruct (IH (Z.max x z)) as [Hin Hle]. split.
    + apply elem_of_cons in Hin as [->|Hin].
      * destruct (Z.max_spec x z) as [[_ ->]|[_ ->]]; [right; left|left].
      * by do 2 right.
    + intros y Hy. apply elem_of_cons in Hy as [->|Hy].
      * specialize (Hle (Z.max x z)). etrans; [|apply Hle; left]. lia.
      * apply elem_of_cons in Hy as [->|Hy].
        -- specialize (Hle (Z.max x z)). etrans; [|apply Hle; left]. lia.
        -- apply Hle. by right.
Qed.

Lemma observed_window_unique rs w1 w2 :
  observed_window rs w1 → observed_window rs w2 → w1 = w2.
Proof.
  destruct w1 as [[lo1 hi1]|], w2 as [[lo2 hi2]|]; simpl.
  - intros ((r1 & Hr1 & <-) & Hlo1 & (r2 & Hr2 & <-) & Hhi1)
           ((r3 & Hr3 & <-) & Hlo2 & (r4 & Hr4 & <-) & Hhi2).
    f_equal. f_equal.
    + apply Z.le_antisymm; auto.
    + apply Z.le_antisymm; auto.
  - intros ((r & Hr & _) & _) ->. by apply elem_of_nil in Hr.
  - intros -> ((r & Hr & _) & _). by apply elem_of_nil in Hr.
  - done.
Qed.

Lemma observed_window_Permutation rs rs' w :
  rs ≡ₚ rs' → observed_window rs w → observed_window rs' w.
Proof.
  intros Hp. destruct w as [[lo hi]|]; simpl.
  - setoid_rewrite Hp. done.
  - intros ->. by apply Permutation_nil_l in Hp.
Qed.

(** The window of a non-empty list of reports, as the code computes it
    from the sorted list. *)
Lemma observed_window_min_max r0 rs :
  observed_window (r0 :: rs)
    (Some (min_of (start_time r0) (start_time <$> rs),
           max_of (end_time r0) (end_time <$> rs))).
Proof.
  destruct (min_of_spec (start_time r0) (start_time <$> rs)) as [Hmin Hle].
  destruct (max_of_spec (end_time r0) (end_time <$> rs)) as [Hmax Hge].
  change (start_time r0 :: (start_time <$> rs))
    with (start_time <$> (r0 :: rs)) in *.
  change (end_time r0 :: (end_time <$> rs))
    with (end_time <$> (r0 :: rs)) in *.
  repeat split.
  - apply list_elem_of_fmap in Hmin as (r & -> & Hr). eauto.
  - intros r Hr. apply Hle. by apply list_elem_of_fmap_2.
  - apply list_elem_of_fmap in Hmax as (r & -> & Hr). eauto.
  - intros r Hr. apply Hge. by apply list_elem_of_fmap_2.
Qed.

Lemma observed_window_app rs1 rs2 w1 lo hi :
  observed_window rs1 w1 → observed_window rs2 (Some (lo, hi)) →
  observed_window (rs1 ++ rs2)
    (Some match w1 with
          | None => (lo, hi)
          | Some (min_time, max_time) =>
              (Z.min min_time lo, Z.max max_time hi)
          end).
Proof.
  intros H1 ((r1 & Hr1 & Hlo) & Hlo' & (r2 & Hr2 & Hhi) & Hhi').
  destruct w1 as [[lo1 hi1]|]; simpl in *.
  - destruct H1 as ((r3 & Hr3 & Hlo1) & Hlo1' & (r4 & Hr4 & Hhi1) & Hhi1').
    repeat split.
    + destruct (Z.min_spec lo1 lo) as [[_ ->]|[_ ->]];
        [exists r3|exists r1]; rewrite elem_of_app; auto.
    + intros r [Hr|Hr]%elem_of_app; [specialize (Hlo1' _ Hr)
                                     |specialize (Hlo' _ Hr)]; lia.
    + destruct (Z.max_spec hi1 hi) as [[_ ->]|[_ ->]];
        [exists r2|exists r4]; rewrite elem_of_app; auto.
    + intros r [Hr|Hr]%elem_of_app; [specialize (Hhi1' _ Hr)
                                     |specialize (Hhi' _ Hr)]; lia.
  - subst rs1. simpl. repeat split; eauto.
Qed.

Lemma visit_charger_window self st cid rs :
  observed_window rs (window st) →
  observed_window (rs ++ reports_of self cid)
    (window (visit_charger self st cid)).
Proof.
  intros Hw. unfold visit_charger, visit_reports, reports_of.
  destruct (charger_reports self !! cid) as [raw|]; simpl;
    [|by rewrite app_nil_r].
  destruct (py_sorted report_leb raw) as [|r0 rs0] eqn:Hsorted.
  - apply py_sorted_nil_inv in Hsorted as ->. by rewrite app_nil_r.
  - cbn [window]. apply observed_window_app; [done|].
    eapply observed_window_Permutation; [|apply observed_window_min_max].
    rewrite <- Hsorted. apply py_sorted_Permutation.
Qed.

Lemma visit_charger_intervals self st cid :
  charger_up_intervals (visit_charger self st cid) =
  charger_up_intervals st ++
    match confirmed_up self cid with
    | [] => []
    | _ :: _ => [(cid, confirmed_up self cid)]
    end.
Proof.
  unfold visit_charger, visit_reports, confirmed_up, reports_of.
  destruct (charger_reports self !! cid) as [raw|]; simpl;
    [|by rewrite app_nil_r].
  destruct (py_sorted report_leb raw) as [|r0 rs0] eqn:Hsorted.
  - by rewrite app_nil_r.
  - cbn [charger_up_intervals].
    destruct (reconcile (r0 :: rs0)); [by rewrite app_nil_r|done].
Qed.

Lemma visit_charger_concat self st cid :
  concat (snd <$> charger_up_intervals (visit_charger self st cid)) =
  concat (snd <$> charger_up_intervals st) ++ confirmed_up self cid.
Proof.
  rewrite visit_charger_intervals, fmap_app, concat_app.
  destruct (confirmed_up self cid); simpl; by rewrite ?app_nil_r.
Qed.

Lemma scan_fold self st cids rs :
  observed_window rs (window st) →
  let st' := foldl (visit_charger self) st cids in
  observed_window (rs ++ (cids ≫= reports_of self)) (window st')
  ∧ concat (snd <$> charger_up_intervals st') =
    concat (snd <$> charger_up_intervals st) ++ (cids ≫= confirmed_up self).
Proof.
  revert st rs. induction cids as [|cid cids IH]; intros st rs Hw; simpl.
  - by rewrite !app_nil_r.
  - destruct (IH (visit_charger self st cid) (rs ++ reports_of self cid))
      as [IH1 IH2]; [by apply visit_charger_window|].
    split.
    + by rewrite <- app_assoc in IH1.
    + rewrite IH2, visit_charger_concat. by rewrite <- app_assoc.
Qed.

(** The scan computes the observed window of the station's raw reports
    and gathers the confirmed-up intervals of its chargers. *)
Lemma scan_station_window self charger_ids :
  observed_window (station_reports self charger_ids)
    (window (scan_station self charger_ids)).
Proof.
  apply (scan_fold self initial_state (elements charger_ids) []). done.
Qed.

Lemma scan_station_intervals self charger_ids :
  concat (snd <$> charger_up_intervals (scan_station self charger_ids)) =
  station_intervals self charger_ids.
Proof.
  apply (scan_fold self initial_state (elements charger_ids) []). done.
Qed.

Lemma existsb_up_at t (values : list (list Interval)) :
  existsb (up_at t) values = true ↔
  ∃ iv, iv ∈ concat values ∧ iv.1 ≤ t ≤ iv.2.
Proof.
  induction values as [|ivs values IH]; simpl.
  - split; [done|]. intros (iv & Hiv & _). by apply elem_of_nil in Hiv.
  - rewrite orb_true_iff, IH. setoid_rewrite elem_of_app.
    unfold up_at. rewrite existsb_exists.
    setoid_rewrite <- list_elem_of_In.
    setoid_rewrite andb_true_iff. setoid_rewrite Z.leb_le.
    split.
    + intros [(iv & Hiv & Ht)|(iv & Hiv & Ht)]; eauto.
    + intros (iv & [Hiv|Hiv] & Ht); eauto.
Qed.

Lemma elem_of_station_intervals self charger_ids iv :
  iv ∈ station_intervals self charger_ids ↔
  ∃ cid, cid ∈ charger_ids ∧ iv ∈ confirmed_up self cid.
Proof.
  unfold station_intervals. rewrite list_elem_of_bind.
  setoid_rewrite elem_of_elements. split.
  - intros (cid & ? & ?). eauto.
  - intros (cid & ? & ?). eauto.
Qed.

Lemma elem_of_station_reports self charger_ids r :
  r ∈ station_reports self charger_ids ↔
  ∃ cid, cid ∈ charger_ids ∧ r ∈ reports_of self cid.
Proof.
  unfold station_reports. rewrite list_elem_of_bind.
  setoid_rewrite elem_of_elements. split.
  - intros (cid & ? & ?). eauto.
  - intros (cid & ? & ?). eauto.
Qed.

(** The order of the visit does not matter. *)
Lemma py_sorted_Permutation_eq {A} (leb : A → A → bool) l1 l2 :
  (∀ x y, leb x y = true ∨ leb y x = true) →
  (∀ x y z, leb x y = true → leb y z = true → leb x z = true) →
  (∀ x y, leb x y = true → leb y x = true → x = y) →
  l1 ≡ₚ l2 → py_sorted leb l1 = py_sorted leb l2.
Proof.
  intros Htotal Htrans Hanti Hp.
  apply (StronglySorted_unique_strong (fun x y => leb x y = true)).
  - intros x y _ _. apply Hanti.
  - by apply py_sorted_StronglySorted.
  - by apply py_sorted_StronglySorted.
  - by rewrite !py_sorted_Permutation.
Qed.

Lemma _merge_intervals_Permutation l1 l2 :
  l1 ≡ₚ l2 → _merge_intervals l1 = _merge_intervals l2.
Proof.
  intros Hp. rewrite !_merge_intervals_unfold.
  rewrite (py_sorted_Permutation_eq interval_leb l1 l2); [done|..|done].
  - apply interval_leb_total.
  - apply interval_leb_trans.
  - intros [a b] [c d]. rewrite !interval_leb_spec. simpl.
    intros ? ?. f_equal; lia.
Qed.

Lemma station_percentage_any_order self order1 order2 :
  order1 ≡ₚ order2 →
  station_percentage (scan_chargers self order1) =
  station_percentage (scan_chargers self order2).
Proof.
  intros Hp.
  destruct (scan_fold self initial_state order1 [] eq_refl) as [Hw1 Hc1].
  destruct (scan_fold self initial_state order2 [] eq_refl) as [Hw2 Hc2].
  fold (scan_chargers self order1) in Hw1, Hc1.
  fold (scan_chargers self order2) in Hw2, Hc2.
  simpl in Hw1, Hw2, Hc1, Hc2.
  assert (order2 ≫= reports_of self ≡ₚ order1 ≫= reports_of self) as Hr
    by (by rewrite Hp).
  pose proof (observed_window_unique _ _ _ Hw1
                (observed_window_Permutation _ _ _ Hr Hw2)) as Hwin.
  assert (concat (snd <$> charger_up_intervals (scan_chargers self order1))
          ≡ₚ concat (snd <$> charger_up_intervals (scan_chargers self order2)))
    as Hc by (by rewrite Hc1, Hc2, Hp).
  unfold station_percentage. rewrite Hwin.
  destruct (window (scan_chargers self order2)) as [[lo hi]|]; [|done].
  destruct (lo =? hi).
  - f_equal.
    assert (existsb (up_at lo)
              (snd <$> charger_up_intervals (scan_chargers self order1))
            = existsb (up_at lo)
                (snd <$> charger_up_intervals (scan_chargers self order2)))
      as ->; [|done].
    apply eq_true_iff_eq. rewrite !existsb_up_at. by setoid_rewrite Hc.
  - by rewrite (_merge_intervals_Permutation _ _ Hc).
Qed.

(** C5.  A station whose reports all lie at one instant [t] (the least
    start time and the greatest end time are both [t]) gets 100 when one
    of its chargers has a confirmed-up interval [(start, end)] with
    [start <= t <= end] and 0 otherwise; the answer is a value, no
    division takes place. *)
Theorem instant_window (self : StationUptimeCalculator)
    (charger_ids : gset Z) (t : Z) :
  observed_window (station_reports self charger_ids) (Some (t, t)) →
  ((∃ cid iv, cid ∈ charger_ids ∧ iv ∈ confirmed_up self cid
              ∧ iv.1 ≤ t ≤ iv.2) →
   station_uptime self charger_ids = Ok 100)
  ∧ (¬ (∃ cid iv, cid ∈ charger_ids ∧ iv ∈ confirmed_up self cid
                  ∧ iv.1 ≤ t ≤ iv.2) →
     station_uptime self charger_ids = Ok 0).
Proof.
  intros Hw.
  pose proof (scan_station_window self charger_ids) as Hscan.
  pose proof (observed_window_unique _ _ _ Hscan Hw) as Hwin.
  unfold station_uptime, station_percentage. rewrite Hwin, Z.eqb_refl.
  destruct (existsb _ _) eqn:Hex.
  - split; [done|]. intros Hno. exfalso. apply Hno.
    apply existsb_up_at in Hex as (iv & Hiv & Ht).
    rewrite scan_station_intervals in Hiv.
    apply elem_of_station_intervals in Hiv as (cid & ? & ?). eauto.
  - split; [|done]. intros (cid & iv & Hcid & Hiv & Ht).
    apply not_true_iff_false in Hex. exfalso. apply Hex.
    apply existsb_up_at. exists iv. split; [|done].
    rewrite scan_station_intervals. apply elem_of_station_intervals. eauto.
Qed.

Lemma instant_window_witness :
  station_uptime (calc_of [(0, [1000])] [(1000, [up 1000 100 100])])
    {[1000]} = Ok 100.
Proof.
  refine (proj1 (instant_window _ {[1000]} 100 _) _).
  - vm_compute. repeat split.
    + exists (up 1000 100 100). split; [left|reflexivity].
    + intros r ->%list_elem_of_singleton. discriminate.
    + exists (up 1000 100 100). split; [left|reflexivity].
    + intros r ->%list_elem_of_singleton. discriminate.
  - exists 1000, (100, 100). split; [set_solver|].
    split; [vm_compute; left|simpl; lia].
Defined.

(** ** Counting cells *)

Lemma count_cells_ext P Q lo n :
  (∀ k, lo ≤ k < lo + Z.of_nat n → P k = Q k) →
  count_cells P lo n = count_cells Q lo n.
Proof.
  revert lo. induction n as [|n IH]; intros lo H; simpl; [done|].
  rewrite (H lo) by lia. f_equal. apply IH. intros k Hk. apply H. lia.
Qed.

Lemma count_cells_mono P Q lo n :
  (∀ k, lo ≤ k < lo + Z.of_nat n → P k = true → Q k = true) →
  count_cells P lo n ≤ count_cells Q lo n.
Proof.
  revert lo. induction n as [|n IH]; intros lo H; simpl; [done|].
  assert (count_cells P (lo + 1) n ≤ count_cells Q (lo + 1) n) as Hle.
  { apply IH. intros k Hk. apply H. lia. }
  specialize (H lo). destruct (P lo), (Q lo); lia.
Qed.

Lemma count_cells_bounds P lo n : 0 ≤ count_cells P lo n ≤ Z.of_nat n.
Proof.
  revert lo. induction n as [|n IH]; intros lo; simpl; [lia|].
  specialize (IH (lo + 1)). destruct (P lo); lia.
Qed.

Lemma count_cells_false P lo n :
  (∀ k, lo ≤ k < lo + Z.of_nat n → P k = false) → count_cells P lo n = 0.
Proof.
  revert lo. induction n as [|n IH]; intros lo H; simpl; [done|].
  rewrite (H lo) by lia. rewrite IH; [done|]. intros k Hk. apply H. lia.
Qed.

Lemma count_cells_app P lo n m :
  count_cells P lo (n + m) =
  count_cells P lo n + count_cells P (lo + Z.of_nat n) m.
Proof.
  revert lo. induction n as [|n IH]; intros lo.
  - simpl. by rewrite Z.add_0_r.
  - cbn [Nat.add count_cells]. rewrite IH.
    replace (lo + 1 + Z.of_nat n) with (lo + Z.of_nat (S n)) by lia. lia.
Qed.

Lemma count_cells_or P Q lo n :
  (∀ k, P k = true → Q k = true → False) →
  count_cells (fun k => P k || Q k) lo n =
  count_cells P lo n + count_cells Q lo n.
Proof.
  intros Hdisj. revert lo. induction n as [|n IH]; intros lo; simpl; [done|].
  rewrite IH. specialize (Hdisj lo).
  destruct (P lo), (Q lo); simpl; lia.
Qed.

Lemma in_cell_spec k iv : in_cell k iv = true ↔ iv.1 ≤ k < iv.2.
Proof. unfold in_cell. rewrite andb_true_iff, Z.leb_le, Z.ltb_lt. done. Qed.

Lemma count_cells_interval a b lo n :
  count_cells (fun k => in_cell k (a, b)) lo n =
  Z.max 0 (Z.min b (lo + Z.of_nat n) - Z.max a lo).
Proof.
  revert lo. induction n as [|n IH]; intros lo; simpl count_cells.
  - lia.
  - rewrite IH. unfold in_cell. simpl.
    destruct (Z.leb_spec a lo), (Z.ltb_spec lo b); simpl; lia.
Qed.

(** ** Covered cells *)

Lemma cover_spec l k : cover l k = true ↔ ∃ iv, iv ∈ l ∧ iv.1 ≤ k < iv.2.
Proof.
  unfold cover. rewrite existsb_exists.
  setoid_rewrite <- list_elem_of_In. by setoid_rewrite in_cell_spec.
Qed.

Lemma bool_eq_iff (b1 b2 : bool) : (b1 = true ↔ b2 = true) → b1 = b2.
Proof. destruct b1, b2; intuition congruence. Qed.

Lemma cover_Permutation l l' k : l ≡ₚ l' → cover l k = cover l' k.
Proof.
  intros Hp. apply bool_eq_iff. rewrite !cover_spec.
  by setoid_rewrite Hp.
Qed.

Lemma cover_app l1 l2 k : cover (l1 ++ l2) k = cover l1 k || cover l2 k.
Proof. apply existsb_app. Qed.

Lemma cover_merge_from cur rest k :
  Forall (starts_before cur) rest →
  StronglySorted starts_before rest →
  cover (merge_from cur rest) k = cover (cur :: rest) k.
Proof.
  revert cur. induction rest as [|iv rest IH]; intros cur Hcur Hs; [done|].
  apply Forall_cons in Hcur as [Hiv Hcur].
  apply StronglySorted_cons in Hs as [Hall Hs].
  cbn [merge_from]. destruct (Z.leb_spec iv.1 cur.2) as [Hle|Hgt].
  - rewrite IH; [|done..].
    unfold cover. cbn [existsb]. rewrite orb_assoc. f_equal.
    unfold in_cell, starts_before in *. simpl.
    destruct (Z.leb_spec cur.1 k), (Z.leb_spec iv.1 k), (Z.ltb_spec k cur.2),
      (Z.ltb_spec k iv.2), (Z.ltb_spec k (Z.max cur.2 iv.2));
      simpl; done || lia.
  - change (cover (cur :: merge_from iv rest) k)
      with (in_cell k cur || cover (merge_from iv rest) k).
    by rewrite IH.
Qed.

Lemma cover__merge_intervals l k :
  cover (_merge_intervals l) k = cover l k.
Proof.
  rewrite _merge_intervals_unfold.
  rewrite <- (cover_Permutation _ _ k (py_sorted_Permutation interval_leb l)).
  pose proof (py_sorted_StronglySorted interval_leb interval_leb_total
                interval_leb_trans l) as Hs.
  destruct (py_sorted interval_leb l) as [|first rest]; [done|].
  apply interval_sorted_starts, StronglySorted_cons in Hs as [Hall Hs].
  by apply cover_merge_from.
Qed.

(** The lengths of separated intervals add up to the number of cells
    they cover. *)
Lemma sum_lengths_count l lo n :
  Forall valid_interval l →
  Forall (fun iv : Interval => lo ≤ iv.1 ∧ iv.2 ≤ lo + Z.of_nat n) l →
  StronglySorted separated l →
  sum_lengths l = count_cells (cover l) lo n.
Proof.
  intros Hv Hin Hs. induction Hs as [|iv l Hs IH Hall]; simpl.
  - symmetry. by apply count_cells_false.
  - apply Forall_cons in Hv as [Hiv Hv]. apply Forall_cons in Hin as [Hb Hin].
    rewrite IH by done.
    change (cover (iv :: l)) with (fun k => in_cell k iv || cover l k).
    rewrite count_cells_or.
    + f_equal. destruct iv as [a b]. rewrite count_cells_interval.
      unfold interval_length, valid_interval in *. simpl in *. lia.
    + intros k Hk (j & Hj & Hkj)%cover_spec. apply in_cell_spec in Hk.
      rewrite Forall_forall in Hall. specialize (Hall _ Hj).
      unfold separated in Hall. lia.
Qed.

(** The total up time computed from the merged intervals is the number
    of cells of the window that the intervals cover. *)
Lemma total_up_time_count l lo n :
  Forall valid_interval l →
  Forall (fun iv : Interval => lo ≤ iv.1 ∧ iv.2 ≤ lo + Z.of_nat n) l →
  sum_lengths (_merge_intervals l) = count_cells (cover l) lo n.
Proof.
  intros Hv Hin.
  rewrite (sum_lengths_count _ lo n).
  - apply count_cells_ext. intros k _. apply cover__merge_intervals.
  - by apply _merge_intervals_valid.
  - apply Forall_forall. intros j Hj.
    assert (∃ i, i ∈ l ∧ j.1 = i.1) as (i & Hi & Hji).
    { revert Hj. rewrite _merge_intervals_unfold.
      pose proof (py_sorted_Permutation interval_leb l) as Hp.
      destruct (py_sorted interval_leb l) as [|first rest].
      - by intros ?%elem_of_nil.
      - intros (i & Hi & ?)%merge_from_starts. exists i.
        by rewrite <- Hp. }
    pose proof (_merge_intervals_valid l Hv) as Hmv.
    rewrite Forall_forall in Hin, Hmv.
    split; [rewrite Hji; by apply Hin|].
    (* the end: read from the cells *)
    destruct (decide (j.1 < j.2)) as [Hlt|Hge].
    + assert (cover l (j.2 - 1) = true) as Hc.
      { rewrite <- cover__merge_intervals. apply cover_spec.
        exists j. split; [done|lia]. }
      apply cover_spec in Hc as (i' & Hi' & ?).
      specialize (Hin _ Hi'). lia.
    + specialize (Hmv _ Hj). specialize (Hin _ Hi).
      rewrite Forall_forall in Hv. specialize (Hv _ Hi).
      unfold valid_interval in *. lia.
  - eapply StronglySorted_weaken; [|apply _merge_intervals_sorted].
    by intros ?? [? ?].
Qed.

(** ** The cells confirmed up by the reports of one charger *)

Lemma cover_flat_map (f : Interval → list Interval) l k :
  cover (flat_map f l) k = existsb (fun iv => cover (f iv) k) l.
Proof.
  induction l as [|iv l IH]; simpl; [done|].
  by rewrite cover_app, IH.
Qed.

Lemma cover_split_interval r iv k :
  cover (split_interval r iv) k = in_cell k iv && negb (report_cell k r).
Proof.
  destruct iv as [a b]. unfold split_interval, report_cell, in_cell. simpl.
  destruct (Z.leb_spec b (start_time r)), (Z.geb_spec a (end_time r)),
    (Z.ltb_spec a (start_time r)), (Z.gtb_spec b (end_time r));
    simpl; unfold in_cell; simpl;
    destruct (Z.leb_spec a k), (Z.ltb_spec k b),
      (Z.leb_spec (start_time r) k), (Z.ltb_spec k (end_time r)),
      (Z.ltb_spec k (start_time r)), (Z.leb_spec (end_time r) k);
    simpl; done || lia.
Qed.

Lemma cover_apply_report ivs r k :
  cover (apply_report ivs r) k =
  if is_up r then cover ivs k || report_cell k r
  else cover ivs k && negb (report_cell k r).
Proof.
  unfold apply_report. destruct (is_up r).
  - rewrite cover_app. simpl. by rewrite orb_false_r.
  - rewrite cover_flat_map. unfold cover.
    induction ivs as [|iv ivs IH]; simpl; [done|].
    rewrite IH. fold (cover (split_interval r iv) k).
    rewrite cover_split_interval.
    destruct (in_cell k iv), (report_cell k r), (existsb (in_cell k) ivs);
      done.
Qed.

Lemma reconcile_snoc s r :
  reconcile (s ++ [r]) = apply_report (reconcile s) r.
Proof. unfold reconcile. by rewrite foldl_app. Qed.

(** A cell is covered after the reconciliation iff some up report covers
    it and no down report applied later does. *)
Lemma cover_reconcile s k :
  cover (reconcile s) k = true ↔
  ∃ l1 u l2, s = l1 ++ u :: l2 ∧ is_up u = true ∧ report_cell k u = true
    ∧ ∀ d, d ∈ l2 → is_up d = false → report_cell k d = false.
Proof.
  induction s as [|r s IH] using rev_ind.
  - split; [done|]. intros (l1 & u & l2 & H & _). by destruct l1.
  - rewrite reconcile_snoc, cover_apply_report.
    destruct (is_up r) eqn:Hr.
    + rewrite orb_true_iff, IH. split.
      * intros [(l1 & u & l2 & -> & Hu & Hk & Hd)|Hk].
        -- exists l1, u, (l2 ++ [r]). rewrite <- app_assoc. simpl.
           repeat split; [done..|].
           intros d [Hd'|Hd']%elem_of_app; [by apply Hd|].
           apply list_elem_of_singleton in Hd' as ->. congruence.
        -- exists s, r, []. repeat split; [done..|].
           by intros d ?%elem_of_nil.
      * intros (l1 & u & l2 & Heq & Hu & Hk & Hd).
        destruct l2 as [|x l2 _] using rev_ind.
        -- apply app_inj_tail in Heq as [_ ->]. by right.
        -- change (l1 ++ u :: l2 ++ [x]) with (l1 ++ (u :: l2) ++ [x]) in Heq.
           rewrite app_assoc in Heq. apply app_inj_tail in Heq as [-> ->].
           left. exists l1, u, l2. repeat split; [done..|].
           intros d Hd'. apply Hd. rewrite elem_of_app. by left.
    + rewrite andb_true_iff, negb_true_iff, IH. split.
      * intros [(l1 & u & l2 & -> & Hu & Hk & Hd) Hk'].
        exists l1, u, (l2 ++ [r]). rewrite <- app_assoc. simpl.
        repeat split; [done..|].
        intros d [Hd'|Hd']%elem_of_app; [by apply Hd|].
        by apply list_elem_of_singleton in Hd' as ->.
      * intros (l1 & u & l2 & Heq & Hu & Hk & Hd).
        destruct l2 as [|x l2 _] using rev_ind.
        -- apply app_inj_tail in Heq as [_ ->]. congruence.
        -- change (l1 ++ u :: l2 ++ [x]) with (l1 ++ (u :: l2) ++ [x]) in Heq.
           rewrite app_assoc in Heq. apply app_inj_tail in Heq as [-> ->].
           split.
           ++ exists l1, u, l2. repeat split; [done..|].
              intros d Hd'. apply Hd. rewrite elem_of_app. by left.
           ++ apply Hd; [|done]. rewrite elem_of_app. right. left.
Qed.

Lemma cell_confirmed_Permutation rs rs' k :
  rs ≡ₚ rs' → cell_confirmed rs k ↔ cell_confirmed rs' k.
Proof. intros Hp. unfold cell_confirmed. by setoid_rewrite Hp. Qed.

(** With the reports in the order of the sort key: the up report has to
    start no later than every down report on the cell. *)
Lemma cover_confirmed rs k :
  cover (reconcile (py_sorted report_leb rs)) k = true ↔ cell_confirmed rs k.
Proof.
  pose proof (py_sorted_StronglySorted report_leb report_leb_total
                report_leb_trans rs) as Hs.
  rewrite <- (cell_confirmed_Permutation _ _ k
                (py_sorted_Permutation report_leb rs)).
  rewrite cover_reconcile. unfold cell_confirmed.
  revert Hs. generalize (py_sorted report_leb rs). clear rs. intros s Hs.
  split.
  - intros (l1 & u & l2 & -> & Hu & Hk & Hd).
    exists u. split; [rewrite elem_of_app; right; left|].
    repeat split; [done..|].
    intros d Hin Hdown Hdk.
    apply elem_of_app in Hin as [Hin|Hin].
    + apply StronglySorted_app in Hs as (Hall & _ & _).
      assert (report_leb d u = true) as Hle by (apply Hall; [done|left]).
      apply report_leb_spec in Hle as [?|[_ Hle]]; [done|].
      specialize (Hle Hdown). congruence.
    + apply elem_of_cons in Hin as [->|Hin]; [congruence|].
      specialize (Hd _ Hin Hdown). congruence.
  - intros (u & Hin & Hu & Hk & Hd).
    apply list_elem_of_split in Hin as (l1 & l2 & ->).
    exists l1, u, l2. repeat split; [done..|].
    intros d Hin Hdown. apply not_true_iff_false. intros Hdk.
    assert (start_time d < start_time u) as Hlt.
    { apply Hd; [|done..]. rewrite elem_of_app. right. by right. }
    apply StronglySorted_app_1_r, StronglySorted_cons in Hs as [Hall _].
    rewrite Forall_forall in Hall. specialize (Hall _ Hin).
    apply report_leb_spec in Hall. lia.
Qed.

(** The reconciled intervals are intervals, and they lie inside any
    window that holds the reports. *)
Lemma apply_report_bounds lo hi ivs r :
  valid_report r → lo ≤ start_time r → end_time r ≤ hi →
  Forall (fun iv : Interval => lo ≤ iv.1 ∧ iv.1 ≤ iv.2 ∧ iv.2 ≤ hi) ivs →
  Forall (fun iv : Interval => lo ≤ iv.1 ∧ iv.1 ≤ iv.2 ∧ iv.2 ≤ hi)
    (apply_report ivs r).
Proof.
  intros Hv Hlo Hhi Hivs. unfold apply_report, valid_report in *.
  destruct (is_up r).
  - apply Forall_app. split; [done|]. by repeat constructor.
  - induction Hivs as [|[a b] ivs Hiv Hivs IH]; cbn [flat_map]; [done|].
    apply Forall_app. split; [|done]. rewrite split_interval_spec.
    simpl in Hiv.
    repeat case_decide; simpl; repeat constructor; simpl; lia.
Qed.

Lemma reconcile_bounds lo hi s :
  Forall (fun r => valid_report r ∧ lo ≤ start_time r ∧ end_time r ≤ hi) s →
  Forall (fun iv : Interval => lo ≤ iv.1 ∧ iv.1 ≤ iv.2 ∧ iv.2 ≤ hi)
    (reconcile s).
Proof.
  induction s as [|r s IH] using rev_ind; intros Hs; [constructor|].
  apply Forall_app in Hs as [Hs Hr]. apply Forall_cons in Hr as [(?&?&?) _].
  rewrite reconcile_snoc. apply apply_report_bounds; auto.
Qed.

(** ** The station level *)

Lemma station_intervals_bounds self charger_ids lo hi :
  Forall valid_report (station_reports self charger_ids) →
  observed_window (station_reports self charger_ids) (Some (lo, hi)) →
  Forall (fun iv : Interval => lo ≤ iv.1 ∧ iv.1 ≤ iv.2 ∧ iv.2 ≤ hi)
    (station_intervals self charger_ids).
Proof.
  intros Hv (_ & Hlo & _ & Hhi). apply Forall_forall. intros iv Hiv.
  apply elem_of_station_intervals in Hiv as (cid & Hcid & Hiv).
  revert iv Hiv. apply Forall_forall. apply reconcile_bounds.
  apply Forall_forall. intros r Hr. apply elem_of_py_sorted in Hr.
  assert (r ∈ station_reports self charger_ids) as Hin.
  { apply elem_of_station_reports. eauto. }
  rewrite Forall_forall in Hv. auto.
Qed.

Lemma cover_station_intervals self charger_ids k :
  cover (station_intervals self charger_ids) k = true ↔
  ∃ cid, cid ∈ charger_ids ∧ cell_confirmed (reports_of self cid) k.
Proof.
  rewrite cover_spec. setoid_rewrite elem_of_station_intervals.
  setoid_rewrite <- cover_confirmed. setoid_rewrite cover_spec.
  split.
  - intros (iv & (cid & Hcid & Hiv) & Hk). eauto.
  - intros (cid & Hcid & iv & Hiv & Hk). eauto.
Qed.

Lemma observed_window_ordered rs lo hi :
  Forall valid_report rs → observed_window rs (Some (lo, hi)) → lo ≤ hi.
Proof.
  intros Hv ((r & Hr & <-) & _ & _ & Hhi).
  rewrite Forall_forall in Hv. specialize (Hv _ Hr). specialize (Hhi _ Hr).
  unfold valid_report in Hv. lia.
Qed.

(** The percentage of a station with a window of positive length is
    computed from the number of covered cells of the window. *)
Lemma station_uptime_positive self charger_ids lo hi :
  Forall valid_report (station_reports self charger_ids) →
  observed_window (station_reports self charger_ids) (Some (lo, hi)) →
  lo ≠ hi →
  station_uptime self charger_ids =
  uptime_percentage (up_length self charger_ids lo hi) (hi - lo).
Proof.
  intros Hv Hw Hne.
  pose proof (scan_station_window self charger_ids) as Hscan.
  pose proof (observed_window_unique _ _ _ Hscan Hw) as Hwin.
  pose proof (observed_window_ordered _ _ _ Hv Hw) as Hle.
  pose proof (station_intervals_bounds _ _ _ _ Hv Hw) as Hb.
  unfold station_uptime, station_percentage. rewrite Hwin.
  destruct (Z.eqb_spec lo hi) as [?|_]; [done|].
  rewrite scan_station_intervals. unfold up_length.
  rewrite (total_up_time_count _ lo (Z.to_nat (hi - lo))); [done|..].
  - eapply Forall_impl; [exact Hb|]. unfold valid_interval.
    by intros iv (_ & ? & _).
  - eapply Forall_impl; [exact Hb|]. simpl. intros iv ?. lia.
Qed.

Lemma up_length_bounds self charger_ids lo hi :
  lo ≤ hi → 0 ≤ up_length self charger_ids lo hi ≤ hi - lo.
Proof.
  intros Hle. unfold up_length.
  pose proof (count_cells_bounds (cover (station_intervals self charger_ids))
                lo (Z.to_nat (hi - lo))). lia.
Qed.

(** ** Binary digits *)

Lemma pow2_pos n : 0 ≤ n → 0 < 2 ^ n.
Proof. intros. by apply Z.pow_pos_nonneg. Qed.

Lemma pow2_succ n : 0 ≤ n → 2 ^ (n + 1) = 2 * 2 ^ n.
Proof. intros. rewrite Z.pow_add_r by lia. lia. Qed.

Lemma pow2_le n m : 0 ≤ n ≤ m → 2 ^ n ≤ 2 ^ m.
Proof. intros. apply Z.pow_le_mono_r; lia. Qed.

Lemma pow2_lt n m : 0 ≤ n < m → 2 ^ n < 2 ^ m.
Proof. intros. apply Z.pow_lt_mono_r; lia. Qed.

Lemma digits2_pos_spec p :
  2 ^ (Zpos (digits2_pos p) - 1) ≤ Zpos p < 2 ^ Zpos (digits2_pos p).
Proof.
  induction p as [p IH|p IH|]; simpl digits2_pos.
  - rewrite Pos2Z.inj_succ.
    replace (Z.succ (Zpos (digits2_pos p)) - 1)
      with (Zpos (digits2_pos p) - 1 + 1) by lia.
    unfold Z.succ. rewrite !pow2_succ by lia. lia.
  - rewrite Pos2Z.inj_succ.
    replace (Z.succ (Zpos (digits2_pos p)) - 1)
      with (Zpos (digits2_pos p) - 1 + 1) by lia.
    unfold Z.succ. rewrite !pow2_succ by lia. lia.
  - simpl. lia.
Qed.

Lemma Zdigits2_nonneg m : 0 ≤ Zdigits2 m.
Proof. destruct m; simpl; lia. Qed.

Lemma Zdigits2_spec m :
  0 < m → 2 ^ (Zdigits2 m - 1) ≤ m < 2 ^ Zdigits2 m.
Proof. destruct m as [|p|p]; [lia| |lia]. intros _. apply digits2_pos_spec. Qed.

Lemma Zdigits2_pos m : 0 < m → 0 < Zdigits2 m.
Proof. destruct m; simpl; lia. Qed.

Lemma Zdigits2_unique m d :
  0 < m → 2 ^ (d - 1) ≤ m < 2 ^ d → Zdigits2 m = d.
Proof.
  intros Hm [Hlo Hhi]. pose proof (Zdigits2_spec m Hm) as [Hlo' Hhi'].
  pose proof (Zdigits2_pos m Hm) as Hd.
  assert (0 < d).
  { destruct (Z.le_gt_cases d 0) as [Hle|]; [|done].
    assert (2 ^ d ≤ 1); [|lia].
    destruct (Z.eq_dec d 0) as [->|]; [done|].
    rewrite Z.pow_neg_r by lia. lia. }
  destruct (Z.lt_total (Zdigits2 m) d) as [Hlt|[Heq|Hgt]]; [|done|].
  - assert (2 ^ Zdigits2 m ≤ 2 ^ (d - 1)) by (apply pow2_le; lia). lia.
  - assert (2 ^ d ≤ 2 ^ (Zdigits2 m - 1)) by (apply pow2_le; lia). lia.
Qed.

Lemma Zdigits2_mono m m' : 0 ≤ m ≤ m' → Zdigits2 m ≤ Zdigits2 m'.
Proof.
  intros [Hm Hle]. destruct (Z.eq_dec m 0) as [->|Hne].
  - apply Zdigits2_nonneg.
  - pose proof (Zdigits2_spec m ltac:(lia)) as [Hlo _].
    pose proof (Zdigits2_spec m' ltac:(lia)) as [_ Hhi].
    destruct (Z.le_gt_cases (Zdigits2 m) (Zdigits2 m')) as [|Hgt]; [done|].
    assert (2 ^ Zdigits2 m' ≤ 2 ^ (Zdigits2 m - 1)).
    { apply pow2_le. pose proof (Zdigits2_nonneg m'). lia. }
    lia.
Qed.

(** The digits of a quotient by a power of two. *)
Lemma Zdigits2_div_pow2 m n :
  0 ≤ m → 0 ≤ n → Zdigits2 (m / 2 ^ n) = Z.max (Zdigits2 m - n) 0.
Proof.
  intros Hm Hn. pose proof (pow2_pos n Hn) as Hp.
  destruct (Z.eq_dec m 0) as [->|Hne].
  { rewrite Z.div_0_l by lia. simpl. lia. }
  pose proof (Zdigits2_spec m ltac:(lia)) as [Hlo Hhi].
  pose proof (Zdigits2_pos m ltac:(lia)) as Hd.
  destruct (Z.le_gt_cases (Zdigits2 m) n) as [Hsmall|Hbig].
  - assert (m < 2 ^ n).
    { eapply Z.lt_le_trans; [exact Hhi|]. apply pow2_le. lia. }
    rewrite Z.div_small by lia. simpl. lia.
  - rewrite Z.max_l by lia.
    assert (2 ^ (Zdigits2 m - 1) = 2 ^ (Zdigits2 m - n - 1) * 2 ^ n) as E1.
    { rewrite <- Z.pow_add_r by lia. f_equal. lia. }
    assert (2 ^ Zdigits2 m = 2 ^ (Zdigits2 m - n) * 2 ^ n) as E2.
    { rewrite <- Z.pow_add_r by lia. f_equal. lia. }
    apply Zdigits2_unique.
    + apply Z.div_str_pos. split; [lia|].
      eapply Z.le_trans; [|exact Hlo]. apply pow2_le. lia.
    + split.
      * apply Z.div_le_lower_bound; [lia|]. rewrite Z.mul_comm. lia.
      * apply Z.div_lt_upper_bound; [lia|]. rewrite Z.mul_comm. lia.
Qed.

(** The digits of a product with a power of two. *)
Lemma Zdigits2_mul_pow2 m n :
  0 < m → 0 ≤ n → Zdigits2 (m * 2 ^ n) = Zdigits2 m + n.
Proof.
  intros Hm Hn. pose proof (pow2_pos n Hn) as Hp.
  pose proof (Zdigits2_spec m Hm) as [Hlo Hhi].
  pose proof (Zdigits2_pos m Hm) as Hd.
  apply Zdigits2_unique; [lia|].
  replace (Zdigits2 m + n - 1) with (Zdigits2 m - 1 + n) by lia.
  rewrite !Z.pow_add_r by lia. split; nia.
Qed.

(** ** Positions and rounding *)

Ltac divmod := Z.to_euclidean_division_equations; nia.

Lemma Zodd_mod2 a : Z.odd a = negb (a mod 2 =? 0).
Proof.
  rewrite Zmod_odd. by destruct (Z.odd a).
Qed.

Lemma code_of_nonneg N D : 0 ≤ N → 0 < D → 0 ≤ code_of N D.
Proof.
  intros. unfold code_of.
  assert (0 ≤ 2 * N / D) by (apply Z.div_pos; lia).
  destruct (_ =? 0); lia.
Qed.

Lemma code_of_div4 N D : 0 < D → code_of N D / 4 = N / D.
Proof.
  intros HD. unfold code_of.
  assert (2 * N / D / 2 = N / D) as E.
  { rewrite Z.div_div by lia. rewrite (Z.mul_comm D 2).
    by rewrite Z.div_mul_cancel_l by lia. }
  rewrite <- E. destruct (_ =? 0); divmod.
Qed.

Lemma code_of_scale N D k :
  0 < D → 0 < k → code_of (N * k) (D * k) = code_of N D.
Proof.
  intros HD Hk. unfold code_of.
  rewrite !Z.mul_assoc, Z.div_mul_cancel_r by lia.
  rewrite Z.mul_mod_distr_r by lia.
  destruct (Z.eqb_spec (2 * N mod D) 0) as [->|Hne]; [done|].
  destruct (Z.eqb_spec (2 * N mod D * k) 0); [nia|done].
Qed.

Lemma halve_code_of N D :
  0 < D → halve_code (code_of N D) = code_of N (D * 2).
Proof.
  intros HD. unfold halve_code. rewrite code_of_div4 by done.
  unfold code_of at 2.
  replace (2 * N / (D * 2)) with (N / D)
    by (rewrite (Z.mul_comm D 2); by rewrite Z.div_mul_cancel_l by lia).
  f_equal.
  assert (code_of N D mod 4 = 0 ↔ (2 * N) mod (D * 2) = 0) as Hiff.
  { unfold code_of.
    destruct (Z.eqb_spec ((2 * N) mod D) 0) as [H0|Hn0].
    - split; intros H.
      + assert ((2 * N / D) mod 2 = 0) as Hev by divmod.
        apply Z.mod_divide in H0; [|lia]. destruct H0 as [q Hq].
        rewrite Hq in Hev |- *. rewrite Z.div_mul in Hev by lia.
        apply Z.mod_divide in Hev; [|lia]. destruct Hev as [q' ->].
        replace (q' * 2 * D) with (q' * (D * 2)) by lia.
        apply Z.mod_mul. lia.
      + apply Z.mod_divide in H; [|lia]. destruct H as [q Hq].
        rewrite Hq. replace (q * (D * 2)) with (q * 2 * D) by lia.
        rewrite Z.div_mul by lia. divmod.
    - split; intros H; [divmod|].
      exfalso. apply Hn0.
      apply Z.mod_divide in H; [|lia]. destruct H as [q Hq].
      rewrite Hq. replace (q * (D * 2)) with (q * 2 * D) by lia.
      apply Z.mod_mul. lia. }
  destruct (Z.eqb_spec (code_of N D mod 4) 0),
    (Z.eqb_spec ((2 * N) mod (D * 2)) 0); tauto || done.
Qed.

Lemma shr_1_nonneg m r s :
  0 ≤ m →
  shr_1 {| shr_m := m; shr_r := r; shr_s := s |} =
  {| shr_m := m / 2; shr_r := Z.odd m; shr_s := r || s |}.
Proof.
  intros Hm. destruct m as [|[p|p|]|p]; try lia; simpl; f_equal.
  - rewrite Pos2Z.inj_xI. divmod.
  - rewrite Pos2Z.inj_xO. divmod.
Qed.

Lemma shr_1_code c :
  0 ≤ c → shr_1 (rec_of_code c) = rec_of_code (halve_code c).
Proof.
  intros Hc. unfold rec_of_code. rewrite shr_1_nonneg by divmod.
  unfold halve_code. f_equal.
  - destruct (_ =? 0); divmod.
  - rewrite !Zodd_mod2. f_equal.
    destruct (c mod 4 =? 0);
      destruct (Z.eqb_spec ((c / 4) mod 2) 0),
        (Z.eqb_spec (((2 * (c / 4) + 0) / 2) mod 2) 0),
        (Z.eqb_spec (((2 * (c / 4) + 1) / 2) mod 2) 0);
      try done; divmod.
  - rewrite !Zodd_mod2.
    destruct (Z.eqb_spec (c mod 4) 0), (Z.eqb_spec ((c / 2) mod 2) 0),
      (Z.eqb_spec (c mod 2) 0),
      (Z.eqb_spec ((2 * (c / 4) + 0) mod 2) 0),
      (Z.eqb_spec ((2 * (c / 4) + 1) mod 2) 0);
      simpl; try done; divmod.
Qed.

Lemma iter_shr_1_code p N D :
  0 ≤ N → 0 < D →
  SpecFloat.iter_pos shr_1 p (rec_of_code (code_of N D)) =
  rec_of_code (code_of N (D * 2 ^ Zpos p)).
Proof.
  intros HN. revert D.
  induction p as [p IH|p IH|]; intros D HD; cbn [SpecFloat.iter_pos].
  - rewrite shr_1_code by (by apply code_of_nonneg).
    rewrite halve_code_of by done.
    assert (0 < 2 ^ Zpos p) by (by apply pow2_pos).
    rewrite IH by lia. rewrite IH by nia.
    assert (2 ^ Zpos p~1 = 2 * 2 ^ Zpos p * 2 ^ Zpos p) as ->.
    { rewrite (Pos2Z.inj_xI p).
      replace (2 * Zpos p + 1) with (1 + Zpos p + Zpos p) by lia.
      by rewrite !Z.pow_add_r by lia. }
    by rewrite !Z.mul_assoc.
  - assert (0 < 2 ^ Zpos p) by (by apply pow2_pos).
    rewrite IH by lia. rewrite IH by nia.
    assert (2 ^ Zpos p~0 = 2 ^ Zpos p * 2 ^ Zpos p) as ->.
    { rewrite (Pos2Z.inj_xO p).
      replace (2 * Zpos p) with (Zpos p + Zpos p) by lia.
      by rewrite !Z.pow_add_r by lia. }
    by rewrite !Z.mul_assoc.
  - rewrite shr_1_code by (by apply code_of_nonneg).
    by rewrite halve_code_of by done.
Qed.

Lemma shr_code N D e n :
  0 ≤ N → 0 < D → 0 ≤ n →
  shr (rec_of_code (code_of N D)) e n =
  (rec_of_code (code_of N (D * 2 ^ n)), e + n).
Proof.
  intros HN HD Hn. unfold shr. destruct n as [|p|p]; [|  |lia].
  - by rewrite Z.mul_1_r, Z.add_0_r.
  - by rewrite iter_shr_1_code.
Qed.

Lemma shr_record_of_loc_code m l :
  shr_record_of_loc m l = rec_of_code (4 * m + loc_code l).
Proof.
  unfold rec_of_code.
  destruct l as [|[]]; simpl; f_equal;
    rewrite ?Zodd_mod2;
    repeat match goal with
           | |- context [?x =? 0] => destruct (Z.eqb_spec x 0)
           end; try done; divmod.
Qed.

Lemma rne_rec_of_code c :
  round_nearest_even (shr_m (rec_of_code c))
    (loc_of_shr_record (rec_of_code c)) = rne c.
Proof.
  unfold rec_of_code, rne. simpl. rewrite !Zodd_mod2.
  destruct (Z.eqb_spec ((c / 2) mod 2) 0), (Z.eqb_spec (c mod 2) 0),
    (Z.leb_spec (c mod 4) 1), (Z.eqb_spec (c mod 4) 2);
    simpl; try done; divmod.
Qed.

Lemma rne_bounds c : c / 4 ≤ rne c ≤ c / 4 + 1.
Proof.
  unfold rne.
  destruct (c mod 4 <=? 1), (c mod 4 =? 2), (Z.even (c / 4)); lia.
Qed.

Lemma rne_exact m : rne (4 * m) = m.
Proof.
  unfold rne. replace (4 * m / 4) with m by divmod.
  replace (4 * m mod 4) with 0 by divmod. done.
Qed.

Lemma rne_mono c c' : c ≤ c' → rne c ≤ rne c'.
Proof.
  intros Hle. destruct (Z.eq_dec (c / 4) (c' / 4)) as [Heq|Hne].
  - unfold rne. rewrite Heq.
    destruct (Z.leb_spec (c mod 4) 1), (Z.leb_spec (c' mod 4) 1),
      (Z.eqb_spec (c mod 4) 2), (Z.eqb_spec (c' mod 4) 2),
      (Z.even (c' / 4)); try lia; divmod.
  - pose proof (rne_bounds c). pose proof (rne_bounds c').
    assert (c / 4 + 1 ≤ c' / 4) by divmod. lia.
Qed.

Lemma div_le_cross a b c d :
  0 < b → 0 < d → a * d ≤ c * b → a / b ≤ c / d.
Proof.
  intros Hb Hd H. apply Z.div_le_lower_bound; [done|].
  assert (b * (a / b) ≤ a) by (apply Z.mul_div_le; lia).
  assert (c < d * (c / d) + d).
  { pose proof (Z.mod_pos_bound c d Hd). pose proof (Z.div_mod c d). lia. }
  assert (d * (a / b) < d * (c / d) + d); [nia|nia].
Qed.

Lemma code_of_mono N D N' D' :
  0 < D → 0 < D' → N * D' ≤ N' * D → code_of N D ≤ code_of N' D'.
Proof.
  intros HD HD' H. unfold code_of.
  assert (2 * N / D ≤ 2 * N' / D') as Hq by (apply div_le_cross; lia).
  destruct (Z.eq_dec (2 * N / D) (2 * N' / D')) as [Heq|Hne].
  - rewrite Heq.
    destruct (Z.eqb_spec (2 * N mod D) 0) as [|Hn0]; [destruct (_ =? 0); lia|].
    destruct (Z.eqb_spec (2 * N' mod D') 0) as [H0|]; [|lia].
    exfalso.
    pose proof (Z.div_mod (2 * N) D). pose proof (Z.div_mod (2 * N') D').
    pose proof (Z.mod_pos_bound (2 * N) D HD).
    rewrite H0 in *. rewrite Heq in *.
    assert (2 * N' * D = D * D' * (2 * N' / D')) by nia.
    nia.
  - destruct (_ =? 0), (_ =? 0); lia.
Qed.

(** ** [binary_round_aux] *)

Lemma fexp_eq x : fexp prec emax x = Z.max (x - 53) (-1074).
Proof. reflexivity. Qed.

Lemma emin_eq : emin = -1074.
Proof. reflexivity. Qed.

Lemma prec_eq : prec = 53.
Proof. reflexivity. Qed.

Lemma emax_eq : emax = 1024.
Proof. reflexivity. Qed.

Lemma code_of_int m : code_of m 1 = 4 * m.
Proof.
  unfold code_of. rewrite Z.div_1_r, Z.mod_1_r. simpl. lia.
Qed.

Lemma shr_fexp_code N D ex lx :
  0 ≤ N → 0 < D →
  4 * (N / D) + loc_code lx = code_of N D →
  0 ≤ fexp prec emax (Zdigits2 (N / D) + ex) - ex →
  shr_fexp prec emax (N / D) ex lx =
  (rec_of_code
     (code_of N (D * 2 ^ (fexp prec emax (Zdigits2 (N / D) + ex) - ex))),
   fexp prec emax (Zdigits2 (N / D) + ex)).
Proof.
  intros HN HD Hc Hn. unfold shr_fexp.
  rewrite shr_record_of_loc_code, Hc, shr_code by done.
  f_equal. lia.
Qed.

(** The second shift of [binary_round_aux]: it only acts on a mantissa
    that the rounding has carried to [2 ^ prec]. *)
Lemma shr_fexp_rounded m e :
  0 ≤ m ≤ 2 ^ prec → emin ≤ e →
  shr_fexp prec emax m e loc_Exact =
  if m <? 2 ^ prec then (rec_of_code (4 * m), e)
  else (rec_of_code (4 * (m / 2)), e + 1).
Proof.
  intros [Hm0 HmP] He. rewrite emin_eq in He. unfold shr_fexp.
  rewrite shr_record_of_loc_code. simpl loc_code. rewrite Z.add_0_r.
  rewrite fexp_eq.
  destruct (Z.ltb_spec m (2 ^ prec)) as [Hlt|Hge].
  - assert (Zdigits2 m ≤ 53) as Hd.
    { destruct (Z.eq_dec m 0) as [->|]; [simpl; lia|].
      pose proof (Zdigits2_spec m ltac:(lia)) as [Hlo _].
      destruct (Z.le_gt_cases (Zdigits2 m) 53) as [|Hgt]; [done|].
      assert (2 ^ 53 ≤ 2 ^ (Zdigits2 m - 1)) by (apply pow2_le; lia).
      rewrite prec_eq in Hlt. lia. }
    unfold shr.
    destruct (Z.max (Zdigits2 m + e - 53) (-1074) - e) eqn:E; [done| |done].
    lia.
  - assert (m = 2 ^ prec) as -> by lia.
    assert (Zdigits2 (2 ^ prec) = 54) as -> by reflexivity.
    replace (Z.max (54 + e - 53) (-1074) - e) with 1 by lia.
    rewrite <- (code_of_int (2 ^ prec)).
    rewrite shr_code by (rewrite ?prec_eq; lia).
    reflexivity.
Qed.

Lemma binary_round_aux_code N D ex lx :
  0 ≤ N → 0 < D →
  4 * (N / D) + loc_code lx = code_of N D →
  let e1 := fexp prec emax (Zdigits2 (N / D) + ex) in
  ex ≤ e1 → e1 + 1 ≤ emax - prec →
  binary_round_aux prec emax false (N / D) ex lx =
  float_of_mant (rne (code_of N (D * 2 ^ (e1 - ex)))) e1.
Proof.
  intros HN HD Hc e1 Hex He1.
  assert (0 < 2 ^ (e1 - ex)) as Hpow by (apply pow2_pos; lia).
  assert (emin ≤ e1) as Hemin.
  { subst e1. rewrite fexp_eq, emin_eq. lia. }
  set (c1 := code_of N (D * 2 ^ (e1 - ex))).
  assert (c1 / 4 = N / D / 2 ^ (e1 - ex)) as Hm1.
  { unfold c1. rewrite code_of_div4 by nia. by rewrite Z.div_div by lia. }
  assert (0 ≤ N / D) as Hmx by (apply Z.div_pos; lia).
  assert (Zdigits2 (c1 / 4) ≤ 53) as Hd1.
  { rewrite Hm1, Zdigits2_div_pow2 by lia.
    subst e1. rewrite fexp_eq in *. lia. }
  assert (0 ≤ c1 / 4 < 2 ^ prec) as Hm1b.
  { split; [rewrite Hm1; apply Z.div_pos; lia|].
    destruct (Z.eq_dec (c1 / 4) 0) as [->|Hne]; [done|].
    assert (0 < c1 / 4).
    { rewrite Hm1 in *. assert (0 ≤ N / D / 2 ^ (e1 - ex)); [|lia].
      apply Z.div_pos; lia. }
    pose proof (Zdigits2_spec (c1 / 4) ltac:(done)) as [_ Hhi].
    eapply Z.lt_le_trans; [exact Hhi|]. apply pow2_le.
    pose proof (Zdigits2_nonneg (c1 / 4)). rewrite prec_eq. lia. }
  pose proof (rne_bounds c1) as Hrne.
  unfold binary_round_aux.
  rewrite shr_fexp_code by (done || (fold e1; lia)).
  fold e1. fold c1. rewrite rne_rec_of_code.
  rewrite shr_fexp_rounded by lia.
  unfold float_of_mant.
  destruct (Z.ltb_spec (rne c1) (2 ^ prec)) as [Hlt|Hge].
  - cbn [shr_m rec_of_code].
    replace (4 * rne c1 / 4) with (rne c1) by divmod.
    destruct (rne c1) as [|p|p] eqn:E; [done| |lia].
    destruct (Z.leb_spec e1 (emax - prec)); [done|lia].
  - cbn [shr_m rec_of_code].
    replace (4 * (rne c1 / 2) / 4) with (rne c1 / 2) by divmod.
    assert (rne c1 = 2 ^ prec) as E by lia. rewrite E.
    change (2 ^ prec / 2) with (Zpos (Z.to_pos (2 ^ prec / 2))).
    cbn match.
    destruct (2 ^ prec) eqn:E2; [done| |done].
    destruct (Z.leb_spec (e1 + 1) (emax - prec)); [done|lia].
Qed.

Lemma float_of_mant_ulps m e :
  0 ≤ m ≤ 2 ^ prec → emin ≤ e →
  ulps (float_of_mant m e) = m * 2 ^ (e - emin).
Proof.
  intros Hm He. unfold float_of_mant.
  destruct m as [|p|p]; [done| |lia].
  destruct (Z.ltb_spec (Zpos p) (2 ^ prec)); [done|].
  assert (Zpos p = 2 ^ prec) as -> by lia.
  unfold ulps. replace (e + 1 - emin) with (e - emin + 1) by lia.
  rewrite pow2_succ by lia.
  change (Zpos (Z.to_pos (2 ^ prec / 2))) with (2 ^ prec / 2).
  change (2 ^ prec) with (2 * (2 ^ prec / 2)) at 2. lia.
Qed.

Lemma float_of_mant_nonneg m e :
  emin ≤ e → e + 1 ≤ emax - prec → nonneg_float (float_of_mant m e).
Proof.
  intros. unfold float_of_mant. destruct m; [done| |done].
  destruct (_ <? _); simpl; lia.
Qed.

(** ** Division of two integers *)

Lemma new_location_code N D :
  0 ≤ N → 0 < D →
  4 * (N / D) + loc_code (new_location D (N mod D)) = code_of N D.
Proof.
  intros HN HD.
  pose proof (Z.div_mod N D ltac:(lia)) as Hdm.
  pose proof (Z.mod_pos_bound N D HD) as Hk.
  set (q := N / D) in *. set (k := N mod D) in *.
  assert (code_of N D =
          4 * q + (if k =? 0 then 0
                   else match 2 * k ?= D with Lt => 1 | Eq => 2 | Gt => 3 end))
    as ->.
  { unfold code_of. rewrite Hdm.
    replace (2 * (D * q + k)) with (2 * k + (2 * q) * D) by lia.
    rewrite Z.div_add, Z_mod_plus_full by lia.
    destruct (Z.eqb_spec k 0) as [->|Hk0].
    { change (2 * 0) with 0. rewrite Z.div_0_l, Z.mod_0_l by lia.
      simpl. lia. }
    destruct (Z.compare_spec (2 * k) D) as [Heq|Hlt|Hgt].
    - rewrite Heq, Z.div_same, Z.mod_same by lia. simpl. lia.
    - rewrite Z.div_small, Z.mod_small by lia.
      destruct (Z.eqb_spec (2 * k) 0); lia.
    - replace (2 * k) with ((2 * k - D) + 1 * D) by lia.
      rewrite Z.div_add, Z_mod_plus_full by lia.
      rewrite Z.div_small, Z.mod_small by lia.
      destruct (Z.eqb_spec (2 * k - D) 0); lia. }
  f_equal. unfold new_location, new_location_even, new_location_odd.
  destruct (Z.even D) eqn:Hev.
  - destruct (k =? 0); [done|]. by destruct (2 * k ?= D).
  - destruct (k =? 0); [done|].
    assert (D mod 2 = 1) as Hodd.
    { rewrite Zmod_odd, <- Z.negb_even, Hev. done. }
    destruct (Z.compare_spec (2 * k + 1) D), (Z.compare_spec (2 * k) D);
      try done; divmod.
Qed.

Lemma Zdigits2_scaled N D k :
  0 < D → 1 ≤ N / D → 0 ≤ k →
  Zdigits2 (N * 2 ^ k / D) = Zdigits2 (N / D) + k.
Proof.
  intros HD Hq Hk.
  pose proof (Zdigits2_spec (N / D) ltac:(lia)) as [Hlo Hhi].
  pose proof (Zdigits2_pos (N / D) ltac:(lia)) as Hd.
  pose proof (pow2_pos k Hk) as Hpk.
  set (d := Zdigits2 (N / D)) in *.
  assert (2 ^ (d - 1) * D ≤ N).
  { pose proof (Z.mul_div_le N D HD). nia. }
  assert (N < 2 ^ d * D).
  { pose proof (Z.div_mod N D ltac:(lia)).
    pose proof (Z.mod_pos_bound N D HD). nia. }
  assert (0 < 2 ^ (d - 1)) by (apply pow2_pos; lia).
  apply Zdigits2_unique.
  - apply Z.div_str_pos. nia.
  - replace (d + k - 1) with (d - 1 + k) by lia.
    rewrite !Z.pow_add_r by lia. split.
    + apply Z.div_le_lower_bound; [done|]. nia.
    + apply Z.div_lt_upper_bound; [done|]. nia.
Qed.

(** The quotient of two positive integers [u <= t], as a float: the
    rational [u / t], taken in units of [2 ^ emin], at its rounding
    exponent. *)
Lemma SFdiv_int u t :
  0 < u ≤ t →
  let n := Z.max (Zdigits2 (u * 2 ^ (- emin) / t) - prec) 0 in
  SFdiv prec emax (Z2SF u) (Z2SF t) =
  float_of_mant (rne (code_of (u * 2 ^ (- emin)) (t * 2 ^ n))) (emin + n).
Proof.
  intros [Hu Hut] n.
  destruct u as [|pu|pu]; [lia| |lia]. destruct t as [|pt|pt]; [lia| |lia].
  cbn [Z2SF SFdiv xorb]. unfold SFdiv_core_binary.
  set (u := Zpos pu) in *. set (t := Zpos pt) in *.
  rewrite !Z.add_0_r, Z.sub_0_r, Z.sub_0_l, fexp_eq.
  pose proof (Zdigits2_mono u t ltac:(lia)) as Hd12.
  pose proof (Zdigits2_spec u Hu) as [Hulo Huhi].
  pose proof (Zdigits2_spec t ltac:(lia)) as [Htlo Hthi].
  pose proof (Zdigits2_pos u Hu) as Hd1.
  set (d1 := Zdigits2 u) in *. set (d2 := Zdigits2 t) in *.
  rewrite Z.min_l by lia.
  set (e' := Z.max (d1 - d2 - 53) (-1074)).
  assert (-1074 ≤ e' < 0) as He' by (subst e'; lia).
  destruct (- e') as [|ps|ps] eqn:Es; [lia| |lia].
  rewrite <- Es. rewrite Z.shiftl_mul_pow2 by lia.
  set (s := - e') in *.
  assert (0 < 2 ^ s) as Hps by (apply pow2_pos; lia).
  rewrite (surjective_pairing (Z.div_eucl _ _)).
  change (Z.div_eucl (u * 2 ^ s) t).1 with (u * 2 ^ s / t).
  change (Z.div_eucl (u * 2 ^ s) t).2 with ((u * 2 ^ s) mod t).
  set (N := u * 2 ^ s).
  assert (0 ≤ N) as HN by nia.
  (* the size of the quotient *)
  assert (N / t ≤ 2 ^ s) as Hqhi.
  { apply Z.div_le_upper_bound; [lia|]. nia. }
  assert (Zdigits2 (N / t) ≤ s + 1) as Hdq.
  { destruct (Z.eq_dec (N / t) 0) as [->|Hne]; [simpl; lia|].
    assert (0 ≤ N / t) by (apply Z.div_pos; lia).
    pose proof (Zdigits2_spec (N / t) ltac:(lia)) as [Hlo _].
    destruct (Z.le_gt_cases (Zdigits2 (N / t)) (s + 1)) as [|Hgt]; [done|].
    assert (2 ^ (s + 1) ≤ 2 ^ (Zdigits2 (N / t) - 1)) by (apply pow2_le; lia).
    rewrite pow2_succ in * by lia. lia. }
  assert (-1074 < e' → 2 ^ 52 ≤ N / t) as Hqlo.
  { intros Hnorm. assert (s = d2 - d1 + 53) as Hs by (subst s e'; lia).
    apply Z.div_le_lower_bound; [lia|]. unfold N.
    assert (2 ^ s = 2 ^ (d2 - d1 + 1) * 2 ^ 52) as ->.
    { rewrite <- Z.pow_add_r by lia. f_equal. lia. }
    assert (2 ^ d2 = 2 ^ (d1 - 1) * 2 ^ (d2 - d1 + 1)) as Hd2.
    { rewrite <- Z.pow_add_r by lia. f_equal. lia. }
    assert (0 < 2 ^ (d2 - d1 + 1)) by (apply pow2_pos; lia).
    nia. }
  assert (-1074 < e' → 53 ≤ Zdigits2 (N / t)) as Hdqlo.
  { intros Hnorm. specialize (Hqlo Hnorm).
    pose proof (Zdigits2_spec (N / t) ltac:(lia)) as [_ Hhi].
    destruct (Z.le_gt_cases 53 (Zdigits2 (N / t))) as [|Hlt]; [done|].
    assert (2 ^ Zdigits2 (N / t) ≤ 2 ^ 52).
    { apply pow2_le. pose proof (Zdigits2_nonneg (N / t)). lia. }
    lia. }
  rewrite binary_round_aux_code;
    [|done|lia|by apply new_location_code
     |rewrite fexp_eq; lia|rewrite fexp_eq, emax_eq, prec_eq; lia].
  rewrite fexp_eq.
  set (e1 := Z.max (Zdigits2 (N / t) + e' - 53) (-1074)).
  (* back to units of [2 ^ emin] *)
  assert (u * 2 ^ (- emin) = N * 2 ^ (1074 - s)) as HA.
  { unfold N. rewrite <- Z.mul_assoc, <- Z.pow_add_r by lia.
    do 2 f_equal. rewrite emin_eq. lia. }
  assert (0 < 2 ^ (1074 - s)) as Hpk by (apply pow2_pos; lia).
  assert (e1 = emin + n) as He1.
  { subst e1 n. rewrite HA, emin_eq, prec_eq.
    destruct (Z.eq_dec e' (-1074)) as [Heq|Hne].
    - replace (1074 - s) with 0 by lia. rewrite Z.mul_1_r. lia.
    - rewrite Zdigits2_scaled; [lia|lia| |lia].
      specialize (Hqlo ltac:(lia)). lia. }
  rewrite He1. f_equal. f_equal.
  rewrite HA. rewrite <- (code_of_scale N _ (2 ^ (1074 - s))); [|nia|done].
  f_equal. rewrite <- Z.mul_assoc, <- Z.pow_add_r by lia.
  do 2 f_equal. rewrite emin_eq in *. lia.
Qed.

(** ** The rounding function *)

Lemma RN_digits_bound A B :
  0 ≤ A → 0 < B →
  let n := Z.max (Zdigits2 (A / B) - prec) 0 in
  0 ≤ A / (B * 2 ^ n) < 2 ^ prec.
Proof.
  intros HA HB n.
  assert (0 ≤ n) by (subst n; lia).
  assert (0 < 2 ^ n) by (by apply pow2_pos).
  assert (0 ≤ A / B) by (apply Z.div_pos; lia).
  rewrite <- Z.div_div by lia.
  split; [apply Z.div_pos; lia|].
  destruct (Z.eq_dec (A / B / 2 ^ n) 0) as [->|Hne]; [done|].
  assert (0 ≤ A / B / 2 ^ n) by (apply Z.div_pos; lia).
  pose proof (Zdigits2_spec (A / B / 2 ^ n) ltac:(lia)) as [_ Hhi].
  eapply Z.lt_le_trans; [exact Hhi|].
  rewrite Zdigits2_div_pow2 by lia. apply pow2_le.
  subst n. rewrite prec_eq. lia.
Qed.

Lemma RN_rne_bound A B :
  0 ≤ A → 0 < B →
  let n := Z.max (Zdigits2 (A / B) - prec) 0 in
  0 ≤ rne (code_of A (B * 2 ^ n)) ≤ 2 ^ prec.
Proof.
  intros HA HB n. pose proof (RN_digits_bound A B HA HB) as Hb.
  cbv zeta in Hb. fold n in Hb.
  assert (0 < 2 ^ n) by (apply pow2_pos; subst n; lia).
  pose proof (rne_bounds (code_of A (B * 2 ^ n))) as Hr.
  rewrite code_of_div4 in Hr by nia. lia.
Qed.

Lemma ulps_float_RN A B :
  0 ≤ A → 0 < B → ulps (float_RN A B) = RN A B.
Proof.
  intros HA HB. unfold float_RN, RN.
  rewrite float_of_mant_ulps; [|by apply RN_rne_bound|lia].
  do 2 f_equal. lia.
Qed.

Lemma RN_nonneg A B : 0 ≤ A → 0 < B → 0 ≤ RN A B.
Proof.
  intros HA HB. unfold RN.
  pose proof (RN_rne_bound A B HA HB) as [H _]. cbv zeta in H.
  set (n := Z.max (Zdigits2 (A / B) - prec) 0) in *.
  assert (0 < 2 ^ n) by (apply pow2_pos; subst n; lia). nia.
Qed.

Lemma RN_scale A B k : 0 < B → 0 < k → RN (A * k) (B * k) = RN A B.
Proof.
  intros HB Hk. unfold RN. rewrite Z.div_mul_cancel_r by lia.
  set (n := Z.max (Zdigits2 (A / B) - prec) 0).
  assert (0 < 2 ^ n) by (apply pow2_pos; subst n; lia).
  replace (B * k * 2 ^ n) with (B * 2 ^ n * k) by lia.
  rewrite code_of_scale by nia. done.
Qed.

(** Rounding is monotone. *)
Lemma RN_mono A B A' B' :
  0 ≤ A → 0 < B → 0 < B' → A * B' ≤ A' * B → RN A B ≤ RN A' B'.
Proof.
  intros HA HB HB' Hle.
  assert (0 ≤ A') as HA' by nia.
  assert (A / B ≤ A' / B') as Hq by (by apply div_le_cross).
  assert (0 ≤ A / B) as Hq0 by (apply Z.div_pos; lia).
  pose proof (Zdigits2_mono (A / B) (A' / B') ltac:(lia)) as Hd.
  pose proof (RN_digits_bound A B HA HB) as Hb.
  pose proof (RN_rne_bound A B HA HB) as Hr.
  cbv zeta in Hb, Hr. unfold RN.
  set (n := Z.max (Zdigits2 (A / B) - prec) 0) in *.
  set (n' := Z.max (Zdigits2 (A' / B') - prec) 0) in *.
  assert (0 ≤ n ≤ n') as Hn by (subst n n'; lia).
  assert (0 < 2 ^ n) as Hp by (apply pow2_pos; lia).
  assert (0 < 2 ^ n') as Hp' by (apply pow2_pos; lia).
  destruct (Z.eq_dec n n') as [Heq|Hne].
  - rewrite <- Heq. apply Z.mul_le_mono_nonneg_r; [lia|].
    apply rne_mono, code_of_mono; nia.
  - (* the larger value rounds in a higher binade *)
    assert (n' = Zdigits2 (A' / B') - prec ∧ 0 < n') as [Hn' Hpos]
      by (subst n n'; lia).
    assert (0 < A' / B') as Hq'.
    { destruct (Z.eq_dec (A' / B') 0) as [E|]; [|lia].
      rewrite E in Hn'. simpl in Hn'. rewrite prec_eq in Hn'. lia. }
    pose proof (Zdigits2_spec (A' / B') Hq') as [Hlo' _].
    pose proof (rne_bounds (code_of A' (B' * 2 ^ n'))) as Hr'.
    rewrite code_of_div4, <- Z.div_div in Hr' by nia.
    assert (2 ^ (prec - 1) ≤ A' / B' / 2 ^ n') as Hm'.
    { apply Z.div_le_lower_bound; [done|].
      rewrite <- Z.pow_add_r by (rewrite ?prec_eq; lia).
      replace (n' + (prec - 1)) with (Zdigits2 (A' / B') - 1) by lia. done. }
    assert (2 ^ n' = 2 ^ n * 2 ^ (n' - n)) as Hsplit.
    { rewrite <- Z.pow_add_r by lia. f_equal. lia. }
    assert (2 ≤ 2 ^ (n' - n)) as H2.
    { change 2 with (2 ^ 1) at 1. apply pow2_le. lia. }
    assert (2 ^ prec = 2 * 2 ^ (prec - 1)) as HP by reflexivity.
    assert (0 < 2 ^ (prec - 1)) as HQ by done.
    rewrite HP in Hr.
    set (R := rne (code_of A (B * 2 ^ n))) in *.
    set (R' := rne (code_of A' (B' * 2 ^ n'))) in *.
    set (Q := 2 ^ (prec - 1)) in *. set (Y := 2 ^ (n' - n)) in *.
    set (X := 2 ^ n) in *. set (X' := 2 ^ n') in *.
    clearbody R R' Q Y X X'. subst X'.
    transitivity (2 * Q * X); [nia|].
    transitivity (Q * (X * Y)); [nia|].
    apply Z.mul_le_mono_nonneg_r; [nia|lia].
Qed.

(** A float's worth of units is left as it is. *)
Lemma RN_one : RN (2 ^ (- emin)) 1 = 2 ^ (- emin).
Proof. vm_compute. reflexivity. Qed.

Lemma RN_hundred : RN (2 ^ (- emin) * 100) 1 = 2 ^ (- emin) * 100.
Proof. vm_compute. reflexivity. Qed.

Lemma RN_zero B : 0 < B → RN 0 B = 0.
Proof.
  intros HB. unfold RN. rewrite Z.div_0_l by lia.
  change (Z.max (Zdigits2 0 - prec) 0) with 0.
  rewrite Z.pow_0_r, !Z.mul_1_r. unfold code_of.
  change (2 * 0) with 0. rewrite Z.div_0_l, Z.mod_0_l by lia. done.
Qed.

Lemma RN_le_one u t :
  0 ≤ u ≤ t → 0 < t → RN (u * 2 ^ (- emin)) t ≤ 2 ^ (- emin).
Proof.
  intros Hu Ht. rewrite <- RN_one at 2.
  assert (0 < 2 ^ (- emin)) by done.
  apply RN_mono; nia.
Qed.

(** ** Multiplication by 100, conversion to an integer *)

Lemma float_of_int_100 : float_of_int 100 = Ok float_100.
Proof. reflexivity. Qed.

Lemma SFmul_100 f :
  nonneg_float f → ulps f ≤ 2 ^ (- emin) →
  SFmul prec emax f float_100 = float_RN (ulps f * 100) 1.
Proof.
  intros Hf Hle. destruct f as [[]| | |[] m e]; try done.
  simpl in Hf. unfold float_100. cbn [SFmul xorb].
  set (M := 7036874417766400).
  rewrite Pos2Z.inj_mul. fold M.
  set (N := Zpos m * M).
  assert (0 < Zpos m) as Hm by lia.
  rewrite emin_eq in *. unfold ulps in *. rewrite emin_eq in *.
  replace (e - -1074) with (e + 1074) in * by lia.
  assert (0 < 2 ^ (e + 1074)) as Hpe by (apply pow2_pos; lia).
  pose proof (Zdigits2_spec (Zpos m) Hm) as [Hmlo Hmhi].
  pose proof (Zdigits2_pos (Zpos m) Hm) as Hdm.
  set (dm := Zdigits2 (Zpos m)) in *.
  (* the value is at most one *)
  assert (dm + e ≤ 1) as Hmag.
  { destruct (Z.le_gt_cases (dm + e) 1) as [|Hgt]; [done|].
    assert (2 ^ 1074 < 2 ^ (dm - 1) * 2 ^ (e + 1074)); [|nia].
    rewrite <- Z.pow_add_r by lia. apply pow2_lt. lia. }
  assert (Zdigits2 N = dm + 53 ∨ Zdigits2 N = dm + 52) as HdN.
  { assert (M = 25 * 2 ^ 48) as HM by reflexivity.
    assert (0 < 2 ^ (dm - 1)) by (apply pow2_pos; lia).
    assert (2 ^ dm = 2 * 2 ^ (dm - 1)) as Hdm2.
    { rewrite <- pow2_succ by lia. f_equal. lia. }
    destruct (Z.le_gt_cases (2 ^ (dm + 52)) N) as [Hbig|Hsmall].
    - left. apply Zdigits2_unique; [nia|].
      replace (dm + 53 - 1) with (dm + 52) by lia. split; [done|].
      rewrite Z.pow_add_r by lia. unfold N.
      assert (M < 2 ^ 53) by done. nia.
    - right. apply Zdigits2_unique; [nia|].
      split; [|done]. replace (dm + 52 - 1) with (dm - 1 + 52) by lia.
      rewrite Z.pow_add_r by lia. unfold N.
      assert (2 ^ 52 ≤ M) by done. nia. }
  replace N with (N / 1) at 1 by apply Z.div_1_r.
  rewrite binary_round_aux_code;
    [|nia|done|rewrite Z.div_1_r, code_of_int; simpl; lia
     |rewrite Z.div_1_r, fexp_eq; lia
     |rewrite Z.div_1_r, fexp_eq, emax_eq, prec_eq; lia].
  rewrite Z.div_1_r, fexp_eq. unfold float_RN.
  rewrite Z.div_1_r, emin_eq, prec_eq.
  set (A := Zpos m * 2 ^ (e + 1074) * 100).
  assert (0 < A) as HA by nia.
  set (e1 := Z.max (Zdigits2 N + (e + -46) - 53) (-1074)).
  set (n := Z.max (Zdigits2 A - 53) 0).
  (* [N] and [A] differ by a power of two *)
  assert (M = 100 * 2 ^ 46) as HM by reflexivity.
  destruct (Z.le_gt_cases 46 (e + 1074)) as [Hk|Hk].
  - assert (A = N * 2 ^ (e + 1074 - 46)) as HAN.
    { unfold A, N. rewrite HM.
      replace (2 ^ (e + 1074)) with (2 ^ 46 * 2 ^ (e + 1074 - 46)); [lia|].
      rewrite <- Z.pow_add_r by lia. f_equal. lia. }
    assert (0 < N) by (unfold N; nia).
    assert (Zdigits2 A = Zdigits2 N + (e + 1074 - 46)) as HdA.
    { rewrite HAN. apply Zdigits2_mul_pow2; lia. }
    assert (e1 = -1074 + n) as He1 by (subst e1 n; lia).
    rewrite He1. f_equal. f_equal.
    assert (0 < 2 ^ (e + 1074 - 46)) by (apply pow2_pos; lia).
    rewrite HAN.
    rewrite <- (code_of_scale N _ (2 ^ (e + 1074 - 46))); [|nia|done].
    f_equal. rewrite !Z.mul_1_l, <- Z.pow_add_r by lia. f_equal. lia.
  - assert (N = A * 2 ^ (46 - (e + 1074))) as HNA.
    { unfold A, N. rewrite HM.
      replace (2 ^ 46) with (2 ^ (e + 1074) * 2 ^ (46 - (e + 1074))); [lia|].
      rewrite <- Z.pow_add_r by lia. f_equal. lia. }
    assert (Zdigits2 N = Zdigits2 A + (46 - (e + 1074))) as HdA.
    { rewrite HNA. apply Zdigits2_mul_pow2; lia. }
    assert (e1 = -1074 + n) as He1 by (subst e1 n; lia).
    rewrite He1. f_equal. f_equal.
    assert (0 < 2 ^ (46 - (e + 1074))) by (apply pow2_pos; lia).
    assert (0 ≤ n) by (subst n; lia).
    assert (0 < 2 ^ n) by (by apply pow2_pos).
    rewrite HNA.
    rewrite <- (code_of_scale A _ (2 ^ (46 - (e + 1074)))); [|nia|done].
    f_equal. rewrite !Z.mul_1_l, <- Z.pow_add_r by lia. f_equal. lia.
Qed.

Lemma int_of_float_ulps f :
  nonneg_float f → int_of_float f = Ok (ulps f / 2 ^ (- emin)).
Proof.
  intros Hf. destruct f as [[]| | |[] m e]; try done.
  simpl in Hf. unfold int_of_float, ulps. f_equal.
  rewrite emin_eq in *. replace (e - -1074) with (e + 1074) by lia.
  change (- -1074) with 1074.
  assert (0 < 2 ^ (e + 1074)) by (apply pow2_pos; lia).
  destruct e as [|k|k].
  - rewrite Z.shiftl_mul_pow2 by lia. simpl (0 + 1074).
    rewrite Z.pow_0_r, Z.mul_1_r. by rewrite Z.div_mul by lia.
  - rewrite Z.shiftl_mul_pow2 by lia.
    rewrite Z.pow_add_r, Z.mul_assoc by lia. by rewrite Z.div_mul by lia.
  - rewrite Z.shiftr_div_pow2 by lia.
    replace (2 ^ 1074) with (2 ^ Zpos k * 2 ^ (Zneg k + 1074)).
    + assert (0 < 2 ^ Zpos k) by (apply pow2_pos; lia).
      by rewrite Z.div_mul_cancel_r by lia.
    + rewrite <- Z.pow_add_r by lia. f_equal. lia.
Qed.

Lemma float_RN_nonneg A B :
  0 ≤ A → 0 < B → RN A B ≤ 2 ^ (- emin) * 100 →
  nonneg_float (float_RN A B).
Proof.
  intros HA HB Hle. unfold float_RN.
  pose proof (RN_rne_bound A B HA HB) as Hr. cbv zeta in Hr.
  unfold RN in Hle.
  set (n := Z.max (Zdigits2 (A / B) - prec) 0) in *.
  assert (0 ≤ n) by (subst n; lia).
  destruct (Z.le_gt_cases n 1100) as [Hsmall|Hbig].
  { apply float_of_mant_nonneg; rewrite ?emin_eq, ?emax_eq, ?prec_eq; lia. }
  (* a large exponent needs a large value *)
  exfalso.
  assert (n = Zdigits2 (A / B) - prec) as Hn by (subst n; lia).
  assert (0 < A / B).
  { destruct (Z.eq_dec (A / B) 0) as [E|].
    { rewrite E, prec_eq in Hn. simpl in Hn. lia. }
    assert (0 ≤ A / B) by (apply Z.div_pos; lia). lia. }
  pose proof (Zdigits2_spec (A / B) ltac:(done)) as [Hlo _].
  pose proof (rne_bounds (code_of A (B * 2 ^ n))) as Hb.
  assert (0 < 2 ^ n) by (by apply pow2_pos).
  rewrite code_of_div4, <- Z.div_div in Hb by nia.
  assert (2 ^ (prec - 1) ≤ A / B / 2 ^ n) as Hm.
  { apply Z.div_le_lower_bound; [done|].
    rewrite <- Z.pow_add_r by (rewrite ?prec_eq; lia).
    replace (n + (prec - 1)) with (Zdigits2 (A / B) - 1) by lia. done. }
  assert (2 ^ (- emin) * 100 < 2 ^ (prec - 1) * 2 ^ n); [|nia].
  assert (2 ^ (- emin) * 100 < 2 ^ (prec - 1) * 2 ^ 1100) by done.
  assert (2 ^ 1100 ≤ 2 ^ n) by (apply pow2_le; lia).
  assert (0 < 2 ^ (prec - 1)) by done. nia.
Qed.

(** ** The percentage *)

Lemma rounded_percentage_zero t : 0 < t → rounded_percentage 0 t = 0.
Proof.
  intros Ht. unfold rounded_percentage.
  rewrite Z.mul_0_l, RN_zero by done. reflexivity.
Qed.

Lemma rounded_percentage_full t : 0 < t → rounded_percentage t t = 100.
Proof.
  intros Ht. unfold rounded_percentage.
  replace (RN (t * 2 ^ (- emin)) t) with (RN (2 ^ (- emin) * t) (1 * t))
    by (f_equal; lia).
  rewrite RN_scale, RN_one, RN_hundred by lia.
  rewrite Z.mul_comm. by apply Z.div_mul.
Qed.

(** The percentage grows with the quotient. *)
Lemma rounded_percentage_mono u t u' t' :
  0 ≤ u → 0 < t → 0 < t' → u * t' ≤ u' * t →
  rounded_percentage u t ≤ rounded_percentage u' t'.
Proof.
  intros Hu Ht Ht' Hle. unfold rounded_percentage.
  assert (0 < 2 ^ (- emin)) as HK by done.
  apply Z.div_le_mono; [done|].
  assert (0 ≤ RN (u * 2 ^ (- emin)) t) by (apply RN_nonneg; nia).
  apply RN_mono; [lia|lia|lia|].
  rewrite !Z.mul_1_r. apply Z.mul_le_mono_nonneg_r; [lia|].
  apply RN_mono; nia.
Qed.

Lemma rounded_percentage_range u t :
  0 ≤ u ≤ t → 0 < t → 0 ≤ rounded_percentage u t ≤ 100.
Proof.
  intros Hu Ht. split.
  - rewrite <- (rounded_percentage_zero t Ht).
    apply rounded_percentage_mono; lia.
  - rewrite <- (rounded_percentage_full t Ht).
    apply rounded_percentage_mono; nia.
Qed.

(** The float computation of the code, for a quotient between 0 and 1:
    it returns, and its value is the twice-rounded percentage. *)
Lemma uptime_percentage_rounded u t :
  0 ≤ u ≤ t → 0 < t →
  uptime_percentage u t = Ok (rounded_percentage u t).
Proof.
  intros Hu Ht. unfold uptime_percentage, int_true_div.
  destruct (Z.eqb_spec t 0) as [|_]; [lia|].
  assert (0 < 2 ^ (- emin)) as HK by done.
  destruct (Z.eq_dec u 0) as [->|Hne].
  { destruct t as [|pt|pt]; [lia| |lia].
    rewrite rounded_percentage_zero by done. reflexivity. }
  pose proof (SFdiv_int u t ltac:(lia)) as Hdiv. cbv zeta in Hdiv.
  fold (float_RN (u * 2 ^ (- emin)) t) in Hdiv. rewrite Hdiv.
  pose proof (RN_le_one u t Hu Ht) as Hone.
  assert (0 ≤ RN (u * 2 ^ (- emin)) t) as Hnn by (apply RN_nonneg; nia).
  assert (nonneg_float (float_RN (u * 2 ^ (- emin)) t)) as Hf1.
  { apply float_RN_nonneg; [nia|lia|lia]. }
  assert (is_infinity (float_RN (u * 2 ^ (- emin)) t) = false) as ->.
  { by destruct (float_RN _ _) as [[]| | |[] ? ?]. }
  cbn [rbind]. unfold float_mul_int. rewrite float_of_int_100. cbn [rbind].
  rewrite SFmul_100 by (rewrite ?ulps_float_RN by (nia || lia); done).
  rewrite ulps_float_RN by (nia || lia).
  assert (RN (RN (u * 2 ^ (- emin)) t * 100) 1 ≤ 2 ^ (- emin) * 100) as H100.
  { rewrite <- RN_hundred. apply RN_mono; lia. }
  rewrite int_of_float_ulps by (apply float_RN_nonneg; lia).
  by rewrite ulps_float_RN by lia.
Qed.

(** C2.  The percentage that the code computes with floats is not the
    exact floor: a station that is up for 29 of 100 time units gets 28,
    because [29 / 100] is rounded to a float below 0.29 and the product
    with 100 to a float below 29. *)
Theorem float_percentage_below_floor :
  uptime_percentage 29 100 = Ok 28
  ∧ exact_percentage 29 100 = 29
  ∧ calculate_station_uptime
      (calc_of [(0, [1])] [(1, [up 1 0 29; down 1 29 100])]) = Ok [(0, 28)].
Proof. repeat split; vm_compute; reflexivity. Qed.

(** The float percentage can also exceed the exact floor. *)
Lemma float_percentage_above_floor :
  uptime_percentage (2 ^ 60 - 1) (2 ^ 60) = Ok 100
  ∧ exact_percentage (2 ^ 60 - 1) (2 ^ 60) = 99.
Proof. split; vm_compute; reflexivity. Qed.

(** ** The result list *)

Lemma mapM_result_Ok {A B} (f : A → result B) (g : A → B) l :
  (∀ a, a ∈ l → f a = Ok (g a)) → mapM_result f l = Ok (g <$> l).
Proof.
  induction l as [|a l IH]; intros H; simpl; [done|].
  rewrite (H a) by left. simpl. rewrite IH; [done|].
  intros a' Ha'. apply H. by right.
Qed.

Lemma mapM_result_inv {A B} (f : A → result B) l bs :
  mapM_result f l = Ok bs → Forall2 (fun a b => f a = Ok b) l bs.
Proof.
  revert bs. induction l as [|a l IH]; intros bs; simpl.
  - intros [= <-]. constructor.
  - intros (b & Hb & (bs' & Hbs & [= <-])%rbind_Ok)%rbind_Ok.
    constructor; auto.
Qed.

Lemma mapM_result_total {A B} (f : A → result B) (P : B → Prop) l :
  (∀ a, a ∈ l → ∃ b, f a = Ok b ∧ P b) →
  ∃ bs, mapM_result f l = Ok bs ∧ Forall P bs.
Proof.
  induction l as [|a l IH]; intros H; simpl.
  - exists []. split; [done|constructor].
  - destruct (H a) as (b & -> & Hb); [left|].
    destruct IH as (bs & -> & Hall).
    { intros a' Hin. apply H. by right. }
    simpl. exists (b :: bs). split; [done|]. by constructor.
Qed.

Lemma valid_dataset_station self charger_ids :
  valid_dataset self → Forall valid_report (station_reports self charger_ids).
Proof.
  intros Hv. apply Forall_forall. intros r Hr.
  apply elem_of_station_reports in Hr as (cid & _ & Hr).
  unfold reports_of in Hr.
  destruct (charger_reports self !! cid) as [rs|] eqn:E; simpl in Hr.
  - specialize (Hv _ _ E). rewrite Forall_forall in Hv. auto.
  - by apply elem_of_nil in Hr.
Qed.

(** The percentage of a station over valid reports: the three cases of
    the policy table. *)
Lemma station_uptime_cases self charger_ids :
  Forall valid_report (station_reports self charger_ids) →
  ∃ p, station_uptime self charger_ids = Ok p ∧ 0 ≤ p ≤ 100 ∧
    match window (scan_station self charger_ids) with
    | None => p = 0
    | Some (lo, hi) =>
        lo ≤ hi ∧
        if decide (lo = hi)
        then p = (if existsb (up_at lo)
                       (snd <$> charger_up_intervals
                                  (scan_station self charger_ids))
                  then 100 else 0)
        else p = rounded_percentage (up_length self charger_ids lo hi)
                   (hi - lo)
    end.
Proof.
  intros Hv. pose proof (scan_station_window self charger_ids) as Hw.
  destruct (window (scan_station self charger_ids)) as [[lo hi]|] eqn:Ewin.
  - pose proof (observed_window_ordered _ _ _ Hv Hw) as Hle.
    case_decide as Heq.
    + subst hi. unfold station_uptime, station_percentage. rewrite Ewin, Z.eqb_refl.
      eexists. split; [done|]. split; [|done].
      destruct (existsb _ _); lia.
    + rewrite (station_uptime_positive _ _ lo hi) by done.
      pose proof (up_length_bounds self charger_ids lo hi Hle) as Hb.
      rewrite uptime_percentage_rounded by lia.
      eexists. split; [done|]. split; [|done].
      apply rounded_percentage_range; lia.
  - unfold station_uptime, station_percentage. rewrite Ewin. exists 0. repeat split; lia.
Qed.

Lemma elem_of_station_ids self sid :
  sid ∈ py_sorted Z.leb (elements (dom (station_chargers self))) ↔
  is_Some (station_chargers self !! sid).
Proof. by rewrite elem_of_py_sorted, elem_of_elements, elem_of_dom. Qed.

(** On valid reports the calculator returns. *)
Lemma calculate_station_uptime_returns self :
  valid_dataset self → ∃ results, calculate_station_uptime self = Ok results.
Proof.
  intros Hv. unfold calculate_station_uptime.
  destruct (mapM_result_total
              (fun station_id =>
                 match station_chargers self !! station_id with
                 | Some charger_ids =>
                     let* p := station_uptime self charger_ids in
                     Ok (station_id, p)
                 | None => Raise IndexError
                 end)
              (fun _ => True)
              (py_sorted Z.leb (elements (dom (station_chargers self)))))
    as (results & Hr & _); [|eauto].
  intros sid [cids Hc]%elem_of_station_ids. rewrite Hc.
  destruct (station_uptime_cases self cids) as (p & -> & _).
  { by apply valid_dataset_station. }
  by exists (sid, p).
Qed.

(** C7.  On a dataset whose reports satisfy [start_time <= end_time],
    the calculator returns a list, and every percentage in it is an
    integer between 0 and 100. *)
Theorem percentage_range (self : StationUptimeCalculator) :
  valid_dataset self →
  ∃ results, calculate_station_uptime self = Ok results
    ∧ Forall (fun '(_, p) => 0 ≤ p ≤ 100) results.
Proof.
  intros Hv. unfold calculate_station_uptime.
  apply mapM_result_total.
  intros sid [cids Hc]%elem_of_station_ids. rewrite Hc.
  destruct (station_uptime_cases self cids) as (p & -> & Hp & _).
  { by apply valid_dataset_station. }
  by exists (sid, p).
Qed.

Lemma percentage_range_witness :
  ∃ results,
    calculate_station_uptime
      (calc_of [(0, [1; 2]); (1, [3])]
         [(1, [up 1 0 10; down 1 5 30]); (2, [up 2 20 25])]) = Ok results
    ∧ Forall (fun '(_, p) => 0 ≤ p ≤ 100) results.
Proof.
  apply percentage_range.
  intros cid rs. unfold calc_of. cbn [charger_reports list_to_map foldr].
  intros H.
  destruct (decide (cid = 1)) as [->|?].
  { rewrite lookup_insert_eq in H. injection H as <-.
    repeat constructor; unfold valid_report; simpl; lia. }
  rewrite lookup_insert_ne in H by done.
  destruct (decide (cid = 2)) as [->|?].
  { rewrite lookup_insert_eq in H. injection H as <-.
    repeat constructor; unfold valid_report; simpl; lia. }
  rewrite lookup_insert_ne in H by done. by rewrite lookup_empty in H.
Defined.

(** Without the invariant the bound fails: a report that ends before it
    starts contributes a negative length. *)
Lemma percentage_range_needs_valid :
  calculate_station_uptime
    (calc_of [(0, [1])] [(1, [up 1 0 10; up 1 20 5])]) = Ok [(0, -50)].
Proof. vm_compute. reflexivity. Qed.

(** ** Reports at one instant, reports without an up report *)

Lemma reconcile_has_up s iv :
  iv ∈ reconcile s → ∃ u, u ∈ s ∧ is_up u = true.
Proof.
  revert iv. induction s as [|r s IH] using rev_ind; intros iv.
  - by intros ?%elem_of_nil.
  - rewrite reconcile_snoc. unfold apply_report.
    destruct (is_up r) eqn:Hr.
    + intros _. exists r. split; [|done]. rewrite elem_of_app. right. left.
    + intros Hiv. apply list_elem_of_In, in_flat_map in Hiv as (iv' & Hiv' & _).
      apply list_elem_of_In, IH in Hiv' as (u & Hu & Hup).
      exists u. split; [|done]. rewrite elem_of_app. by left.
Qed.

(** When every report is at the instant [t], every up report leaves the
    interval [(t, t)] and no down report removes it. *)
Lemma reconcile_instant t s :
  Forall (fun r => start_time r = t ∧ end_time r = t) s →
  Forall (fun iv => iv = (t, t)) (reconcile s)
  ∧ ((∃ u, u ∈ s ∧ is_up u = true) → reconcile s ≠ []).
Proof.
  induction s as [|r s IH] using rev_ind; intros Hs.
  - split; [constructor|]. intros (u & Hu & _). by apply elem_of_nil in Hu.
  - apply Forall_app in Hs as [Hs Hr]. apply Forall_cons in Hr as [[Hr1 Hr2] _].
    destruct (IH Hs) as [IH1 IH2]. rewrite reconcile_snoc.
    unfold apply_report. destruct (is_up r) eqn:Hup.
    + split.
      * apply Forall_app. split; [done|]. rewrite Hr1, Hr2. by repeat constructor.
      * intros _. by destruct (reconcile s).
    + assert (flat_map (split_interval r) (reconcile s) = reconcile s) as ->.
      { revert IH1. generalize (reconcile s). intros l Hl.
        induction Hl as [|iv l -> Hl IHl]; simpl; [done|].
        rewrite IHl, Hr1, Hr2.
        destruct (Z.leb_spec t t); [done|lia]. }
      split; [done|]. intros (u & Hu & Hu').
      apply IH2. exists u. split; [|done].
      apply elem_of_app in Hu as [?|Hu]; [done|].
      apply list_elem_of_singleton in Hu as ->. congruence.
Qed.

(** ** The station after one more report *)

Section AddReport.
Context (self : StationUptimeCalculator) (charger_ids : gset Z).
Context (c : Z) (r : ChargerReport).
Context (Hc : c ∈ charger_ids).

Lemma reports_of_add_report cid :
  reports_of (add_report self c r) cid =
  if decide (cid = c) then reports_of self c ++ [r] else reports_of self cid.
Proof.
  unfold reports_of at 1, add_report. cbn [charger_reports].
  case_decide as Heq.
  - subst. by rewrite lookup_insert_eq.
  - by rewrite lookup_insert_ne.
Qed.

Lemma elem_of_station_reports_add x :
  x ∈ station_reports (add_report self c r) charger_ids ↔
  x = r ∨ x ∈ station_reports self charger_ids.
Proof.
  rewrite !elem_of_station_reports. split.
  - intros (cid & Hcid & Hx). rewrite reports_of_add_report in Hx.
    case_decide as Heq.
    + subst. apply elem_of_app in Hx as [Hx|Hx]; [right; eauto|].
      left. by apply list_elem_of_singleton in Hx.
    + right. eauto.
  - intros [->|(cid & Hcid & Hx)].
    + exists c. split; [done|]. rewrite reports_of_add_report.
      rewrite decide_True by done. rewrite elem_of_app. right. left.
    + exists cid. split; [done|]. rewrite reports_of_add_report.
      case_decide; [subst; rewrite elem_of_app; by left|done].
Qed.

Lemma valid_add_report :
  valid_report r →
  Forall valid_report (station_reports self charger_ids) →
  Forall valid_report (station_reports (add_report self c r) charger_ids).
Proof.
  intros Hr Hv. apply Forall_forall.
  intros x [->|Hx]%elem_of_station_reports_add; [done|].
  rewrite Forall_forall in Hv. auto.
Qed.

Lemma observed_window_add w :
  observed_window (station_reports self charger_ids) w →
  observed_window (station_reports (add_report self c r) charger_ids)
    (Some (widen w r)).
Proof.
  intros Hw. destruct w as [[lo hi]|]; simpl in *.
  - destruct Hw as ((r1 & Hr1 & Hlo) & Hlo' & (r2 & Hr2 & Hhi) & Hhi').
    setoid_rewrite elem_of_station_reports_add. repeat split.
    + destruct (Z.min_spec lo (start_time r)) as [[_ ->]|[_ ->]]; eauto.
    + intros x [->|Hx]; [lia|]. specialize (Hlo' _ Hx). lia.
    + destruct (Z.max_spec hi (end_time r)) as [[_ ->]|[_ ->]]; eauto.
    + intros x [->|Hx]; [lia|]. specialize (Hhi' _ Hx). lia.
  - setoid_rewrite elem_of_station_reports_add. rewrite Hw.
    repeat split; eauto.
    + intros x [->|Hx]; [lia|]. by apply elem_of_nil in Hx.
    + intros x [->|Hx]; [lia|]. by apply elem_of_nil in Hx.
Qed.

(** More up reports confirm more cells; more down reports fewer. *)
Lemma cell_confirmed_add_up rs k :
  is_up r = true → cell_confirmed rs k → cell_confirmed (rs ++ [r]) k.
Proof.
  intros Hup (u & Hu & Huu & Hk & Hd). exists u.
  split; [rewrite elem_of_app; by left|]. repeat split; [done..|].
  intros d [Hd'|Hd']%elem_of_app; [by apply Hd|].
  apply list_elem_of_singleton in Hd' as ->. congruence.
Qed.

Lemma cell_confirmed_add_down rs k :
  is_up r = false → cell_confirmed (rs ++ [r]) k → cell_confirmed rs k.
Proof.
  intros Hdown (u & Hu & Huu & Hk & Hd). exists u.
  apply elem_of_app in Hu as [Hu|Hu].
  - repeat split; [done..|]. intros d Hd'. apply Hd.
    rewrite elem_of_app. by left.
  - apply list_elem_of_singleton in Hu as ->. congruence.
Qed.

Lemma cover_add_up k :
  is_up r = true →
  cover (station_intervals self charger_ids) k = true →
  cover (station_intervals (add_report self c r) charger_ids) k = true.
Proof.
  intros Hup. rewrite !cover_station_intervals.
  intros (cid & Hcid & Hk). exists cid. split; [done|].
  rewrite reports_of_add_report. case_decide; [|done].
  subst. by apply cell_confirmed_add_up.
Qed.

Lemma cover_add_down k :
  is_up r = false →
  cover (station_intervals (add_report self c r) charger_ids) k = true →
  cover (station_intervals self charger_ids) k = true.
Proof.
  intros Hdown. rewrite !cover_station_intervals.
  intros (cid & Hcid & Hk). exists cid. split; [done|].
  rewrite reports_of_add_report in Hk. case_decide; [|done].
  subst. by apply cell_confirmed_add_down.
Qed.

End AddReport.

Lemma station_intervals_have_up self charger_ids iv :
  iv ∈ station_intervals self charger_ids →
  ∃ u, u ∈ station_reports self charger_ids ∧ is_up u = true.
Proof.
  intros (cid & Hcid & Hiv)%elem_of_station_intervals.
  apply reconcile_has_up in Hiv as (u & Hu & Hup).
  apply elem_of_py_sorted in Hu. exists u. split; [|done].
  apply elem_of_station_reports. eauto.
Qed.

(** At an instant window an up report of the station shows. *)
Lemma station_instant_up self charger_ids t u :
  observed_window (station_reports self charger_ids) (Some (t, t)) →
  Forall valid_report (station_reports self charger_ids) →
  u ∈ station_reports self charger_ids → is_up u = true →
  ∃ iv, iv ∈ station_intervals self charger_ids ∧ iv.1 ≤ t ≤ iv.2.
Proof.
  intros (_ & Hlo & _ & Hhi) Hv (cid & Hcid & Hu)%elem_of_station_reports Hup.
  assert (Forall (fun r => start_time r = t ∧ end_time r = t)
            (py_sorted report_leb (reports_of self cid))) as Hall.
  { apply Forall_forall. intros x Hx%elem_of_py_sorted.
    assert (x ∈ station_reports self charger_ids) as Hin.
    { apply elem_of_station_reports. eauto. }
    rewrite Forall_forall in Hv.
    specialize (Hv _ Hin). specialize (Hlo _ Hin). specialize (Hhi _ Hin).
    unfold valid_report in Hv. lia. }
  destruct (reconcile_instant t _ Hall) as [Hivs Hne].
  fold (confirmed_up self cid) in Hivs, Hne.
  destruct (confirmed_up self cid) as [|iv ivs] eqn:E.
  { exfalso. apply Hne; [|done]. exists u. by rewrite elem_of_py_sorted. }
  apply Forall_cons in Hivs as [-> _]. exists (t, t).
  split; [|simpl; lia].
  apply elem_of_station_intervals. exists cid. split; [done|].
  rewrite E. left.
Qed.

(** The percentage of a station over valid reports, from its data. *)
Lemma station_uptime_char self charger_ids w :
  Forall valid_report (station_reports self charger_ids) →
  observed_window (station_reports self charger_ids) w →
  ∃ p, station_uptime self charger_ids = Ok p ∧ 0 ≤ p ≤ 100 ∧
    match w with
    | None => p = 0
    | Some (lo, hi) =>
        lo ≤ hi
        ∧ (lo = hi →
           (p = 100 ∧ ∃ iv, iv ∈ station_intervals self charger_ids
                            ∧ iv.1 ≤ lo ≤ iv.2)
           ∨ (p = 0 ∧ ¬ ∃ iv, iv ∈ station_intervals self charger_ids
                              ∧ iv.1 ≤ lo ≤ iv.2))
        ∧ (lo ≠ hi →
           p = rounded_percentage (up_length self charger_ids lo hi)
                 (hi - lo))
    end.
Proof.
  intros Hv Hw.
  pose proof (scan_station_window self charger_ids) as Hscan.
  pose proof (observed_window_unique _ _ _ Hscan Hw) as Hwin.
  destruct (station_uptime_cases self charger_ids Hv) as (p & Hp & Hr & Hc).
  exists p. split; [done|]. split; [done|].
  rewrite Hwin in Hc. destruct w as [[lo hi]|]; [|done].
  destruct Hc as [Hle Hc]. split; [done|]. split.
  - intros Heq. rewrite decide_True in Hc by done.
    destruct (existsb _ _) eqn:Hex.
    + left. split; [done|].
      apply existsb_up_at in Hex. by rewrite scan_station_intervals in Hex.
    + right. split; [done|]. intros Hiv.
      apply not_true_iff_false in Hex. apply Hex, existsb_up_at.
      by rewrite scan_station_intervals.
  - intros Hne. by rewrite decide_False in Hc.
Qed.

Lemma up_length_no_intervals self charger_ids lo hi :
  (∀ iv, iv ∉ station_intervals self charger_ids) →
  up_length self charger_ids lo hi = 0.
Proof.
  intros Hno. unfold up_length. apply count_cells_false.
  intros k _. apply not_true_iff_false.
  intros (iv & Hiv & _)%cover_spec. by apply (Hno iv).
Qed.

(** Cells outside the window hold no interval, so a wider window counts
    the same cells. *)
Lemma count_cells_widen P lo hi lo' hi' :
  lo' ≤ lo → lo ≤ hi → hi ≤ hi' →
  (∀ k, P k = true → lo ≤ k < hi) →
  count_cells P lo' (Z.to_nat (hi' - lo')) =
  count_cells P lo (Z.to_nat (hi - lo)).
Proof.
  intros H1 H2 H3 HP.
  replace (Z.to_nat (hi' - lo'))
    with (Z.to_nat (lo - lo') + (Z.to_nat (hi - lo) + Z.to_nat (hi' - hi)))%nat
    by lia.
  rewrite !count_cells_app.
  rewrite (count_cells_false P lo').
  - rewrite (count_cells_false _ (_ + _ + _)).
    + rewrite Z2Nat.id by lia. replace (lo' + (lo - lo')) with lo by lia. lia.
    + intros k Hk. apply not_true_iff_false. intros Hk'%HP. lia.
  - intros k Hk. apply not_true_iff_false. intros Hk'%HP. lia.
Qed.

(** A station without an up report is at 0. *)
Lemma station_uptime_no_up self charger_ids :
  Forall valid_report (station_reports self charger_ids) →
  (∀ u, u ∈ station_reports self charger_ids → is_up u = false) →
  station_uptime self charger_ids = Ok 0.
Proof.
  intros Hv Hno.
  assert (∀ iv, iv ∉ station_intervals self charger_ids) as Hiv.
  { intros iv (u & Hu & Hup)%station_intervals_have_up.
    specialize (Hno _ Hu). congruence. }
  pose proof (scan_station_window self charger_ids) as Hw.
  destruct (station_uptime_char self charger_ids _ Hv Hw) as (p & Hp & _ & Hc).
  rewrite Hp. f_equal.
  destruct (window (scan_station self charger_ids)) as [[lo hi]|]; [|done].
  destruct Hc as (Hle & Heq & Hne).
  destruct (decide (lo = hi)) as [E|E].
  - destruct (Heq E) as [[_ (iv & Hin & _)]|[-> _]]; [|done].
    by apply Hiv in Hin.
  - rewrite (Hne E), up_length_no_intervals by done.
    apply rounded_percentage_zero. lia.
Qed.

Lemma station_uptime_add_report (self : StationUptimeCalculator)
    (charger_ids : gset Z) (c : Z) (r : ChargerReport) (p p' : Z) :
  valid_dataset self → valid_report r → c ∈ charger_ids →
  station_uptime self charger_ids = Ok p →
  station_uptime (add_report self c r) charger_ids = Ok p' →
  (is_up r = true →
   (∀ lo hi,
      observed_window (station_reports self charger_ids) (Some (lo, hi)) →
      lo ≤ start_time r ∧ end_time r ≤ hi) →
   p ≤ p')
  ∧ (is_up r = false → p' ≤ p).
Proof.
  intros Hv Hr Hc Hp Hp'.
  pose proof (valid_dataset_station self charger_ids Hv) as Hvs.
  pose proof (valid_add_report self charger_ids c r Hc Hr Hvs) as Hvs'.
  pose proof (scan_station_window self charger_ids) as Hw.
  set (w := window (scan_station self charger_ids)) in *.
  pose proof (observed_window_add self charger_ids c r Hc w Hw) as Hw'.
  destruct (station_uptime_char _ _ _ Hvs Hw) as (q & Hq & Hqr & Hqc).
  destruct (station_uptime_char _ _ _ Hvs' Hw') as (q' & Hq' & Hqr' & Hqc').
  rewrite Hp in Hq. injection Hq as <-.
  rewrite Hp' in Hq'. injection Hq' as <-.
  assert (r ∈ station_reports (add_report self c r) charger_ids) as Hrin.
  { apply elem_of_station_reports_add; auto. }
  split.
  - (* an up report inside the window *)
    intros Hup Hin. destruct w as [[lo hi]|]; [|lia].
    destruct (Hin lo hi Hw) as [Hlo Hhi].
    unfold widen in Hw', Hqc'.
    rewrite Z.min_l, Z.max_l in Hw', Hqc' by lia.
    destruct Hqc as (Hle & Heq & Hne). destruct Hqc' as (_ & Heq' & Hne').
    destruct (decide (lo = hi)) as [E|E].
    + destruct (Heq' E) as [[-> _]|[_ Hno]]; [lia|].
      exfalso. apply Hno. subst hi.
      by apply (station_instant_up _ _ lo r).
    + rewrite (Hne E), (Hne' E).
      pose proof (up_length_bounds self charger_ids lo hi Hle).
      apply rounded_percentage_mono; [lia..|].
      apply Z.mul_le_mono_nonneg_r; [lia|].
      apply count_cells_mono. intros k _. by apply cover_add_up.
  - (* a down report *)
    intros Hdown. destruct w as [[lo hi]|].
    + destruct Hqc as (Hle & Heq & Hne).
      destruct (decide (lo = hi)) as [E|E].
      * destruct (Heq E) as [[-> _]|[-> Hno]]; [lia|].
        assert (station_uptime (add_report self c r) charger_ids = Ok 0)
          as H0; [|rewrite H0 in Hp'; by injection Hp' as <-].
        apply station_uptime_no_up; [done|].
        intros u [->|Hu]%elem_of_station_reports_add; [done| |done].
        apply not_true_iff_false. intros Huu. apply Hno. subst hi.
        by apply (station_instant_up _ _ lo u).
      * unfold widen in Hw', Hqc'.
        destruct Hqc' as (Hle' & _ & Hne').
        rewrite (Hne E), Hne' by (unfold valid_report in Hr; lia).
        pose proof (up_length_bounds self charger_ids lo hi Hle) as Hb.
        pose proof (up_length_bounds (add_report self c r) charger_ids _ _ Hle')
          as Hb'.
        assert (up_length (add_report self c r) charger_ids
                  (Z.min lo (start_time r)) (Z.max hi (end_time r))
                ≤ up_length self charger_ids lo hi) as Hlen.
        { unfold up_length at 2.
          rewrite <- (count_cells_widen _ lo hi (Z.min lo (start_time r))
                        (Z.max hi (end_time r))); [|lia..|].
          - apply count_cells_mono. intros k _. by apply cover_add_down.
          - intros k (iv & Hiv & Hk)%cover_spec.
            pose proof (station_intervals_bounds _ _ _ _ Hvs Hw) as Hbd.
            rewrite Forall_forall in Hbd. specialize (Hbd _ Hiv). lia. }
        apply rounded_percentage_mono; [lia..|]. nia.
    + simpl in Hw. rewrite Hqc.
      assert (station_uptime (add_report self c r) charger_ids = Ok 0)
        as H0; [|rewrite H0 in Hp'; by injection Hp' as <-].
      apply station_uptime_no_up; [done|].
      intros u [->|Hu]%elem_of_station_reports_add; [done| |done].
      rewrite Hw in Hu. by apply elem_of_nil in Hu.
Qed.

(** C3, as the code has it.  On a dataset of valid reports, the station
    has a percentage before and after one more report for one of its
    chargers; one more up report does not lower the percentage when the
    report lies inside the observed window of the station (or the
    station had no report at all); one more down report never raises
    it. *)
Theorem report_monotonicity (self : StationUptimeCalculator)
    (charger_ids : gset Z) (c : Z) (r : ChargerReport) :
  valid_dataset self → valid_report r → c ∈ charger_ids →
  ∃ p p',
    station_uptime self charger_ids = Ok p
    ∧ station_uptime (add_report self c r) charger_ids = Ok p'
    ∧ (is_up r = true →
       (∀ lo hi,
          observed_window (station_reports self charger_ids)
            (Some (lo, hi)) →
          lo ≤ start_time r ∧ end_time r ≤ hi) →
       p ≤ p')
    ∧ (is_up r = false → p' ≤ p).
Proof.
  intros Hv Hr Hc.
  pose proof (valid_dataset_station self charger_ids Hv) as Hvs.
  pose proof (valid_add_report self charger_ids c r Hc Hr Hvs) as Hvs'.
  destruct (station_uptime_cases _ _ Hvs) as (p & Hp & _).
  destruct (station_uptime_cases _ _ Hvs') as (p' & Hp' & _).
  exists p, p'. split; [done|]. split; [done|].
  by apply (station_uptime_add_report self charger_ids c r).
Qed.

Lemma valid_dataset_calc_of stations reports :
  Forall (fun cr : Z * list ChargerReport => Forall valid_report cr.2)
    reports →
  valid_dataset (calc_of stations reports).
Proof.
  intros Hall cid rs. unfold calc_of. cbn [charger_reports].
  induction Hall as [|[c l] reports Hl Hall IH]; simpl.
  - by rewrite lookup_empty.
  - destruct (decide (cid = c)) as [->|Hne].
    + rewrite lookup_insert_eq. by intros [= <-].
    + by rewrite lookup_insert_ne.
Qed.

Lemma report_monotonicity_witness :
  ∃ p p',
    station_uptime
      (calc_of [(0, [1])] [(1, [up 1 0 50; down 1 50 100])]) {[1]} = Ok p
    ∧ station_uptime
        (add_report (calc_of [(0, [1])] [(1, [up 1 0 50; down 1 50 100])])
           1 (down 1 25 40)) {[1]} = Ok p'
    ∧ p' ≤ p.
Proof.
  destruct (report_monotonicity
              (calc_of [(0, [1])] [(1, [up 1 0 50; down 1 50 100])])
              {[1]} 1 (down 1 25 40)) as (p & p' & Hp & Hp' & _ & Hdown).
  - apply valid_dataset_calc_of.
    repeat constructor; unfold valid_report; simpl; lia.
  - unfold valid_report. simpl. lia.
  - set_solver.
  - exists p, p'. split; [done|]. split; [done|]. by apply Hdown.
Defined.

(** C3 as stated fails: an up report outside the observed window widens
    the window, and the percentage of the station drops from 100 to
    50. *)
Lemma up_report_can_lower_percentage :
  let self := calc_of [(0, [1])] [(1, [up 1 0 100])] in
  ¬ (∀ p p',
       station_uptime self {[1]} = Ok p →
       station_uptime (add_report self 1 (up 1 200 201)) {[1]} = Ok p' →
       p ≤ p').
Proof.
  intros self H. specialize (H 100 50).
  assert (100 ≤ 50); [|lia].
  apply H; vm_compute; reflexivity.
Qed.

(** ** [parse_input_file] *)

Lemma is_ok_false {A} (x : result A) : is_ok x = false ↔ ∃ e, x = Raise e.
Proof.
  destruct x as [a|e]; simpl; split; try done.
  - intros [e [=]].
  - eauto.
Qed.

Lemma is_ok_true {A} (x : result A) : is_ok x = true ↔ ∃ a, x = Ok a.
Proof.
  destruct x as [a|e]; simpl; split; try done.
  - eauto.
  - intros [a [=]].
Qed.

Lemma int_or_raise_Ok s z : int_or_raise s = Ok z ↔ py_int s = Some z.
Proof.
  unfold int_or_raise. destruct (py_int s); split; congruence.
Qed.

Lemma int_or_raise_Raise s e :
  int_or_raise s = Raise e → py_int s = None ∧ caught e.
Proof.
  unfold int_or_raise. destruct (py_int s); [done|]. by intros [= <-].
Qed.

Lemma mapM_int_Raise l e :
  mapM_result int_or_raise l = Raise e →
  (∃ field, field ∈ l ∧ py_int field = None) ∧ caught e.
Proof.
  induction l as [|s l IH]; simpl; [done|].
  destruct (int_or_raise s) as [z|e'] eqn:Hs; simpl.
  - destruct (mapM_result int_or_raise l) as [zs|e''] eqn:Hl; simpl; [done|].
    intros [= <-]. destruct (IH eq_refl) as [(f & Hf & Hn) Hc].
    split; [|done]. exists f. split; [by right|done].
  - intros [= <-]. apply int_or_raise_Raise in Hs as [Hs Hc].
    split; [|done]. exists s. split; [left|done].
Qed.

Lemma mapM_int_Ok l zs :
  mapM_result int_or_raise l = Ok zs →
  ∀ field, field ∈ l → is_Some (py_int field).
Proof.
  intros H%mapM_result_inv. induction H as [|s z l zs Hs _ IH].
  - by intros ? ?%elem_of_nil.
  - intros f [->|Hf]%elem_of_cons; [|by apply IH].
    apply int_or_raise_Ok in Hs. eauto.
Qed.

(** A station line raises iff it is malformed, whatever the state. *)
Lemma parse_station_line_Raise self line :
  (∃ e, parse_station_line self line = Raise e) ↔
  station_line_malformed line.
Proof.
  unfold parse_station_line, station_line_malformed.
  destruct (is_blank line).
  { split; [by intros [e [=]]|by intros [[=] _]]. }
  destruct (Nat.ltb_spec (length (str_split_ws line)) 2) as [Hlt|Hge].
  { split; [auto|eauto]. }
  destruct (str_split_ws line) as [|p0 rest]; [simpl in Hge; lia|].
  destruct (int_or_raise p0) as [z|e0] eqn:H0; simpl.
  - destruct (mapM_result int_or_raise rest) as [zs|e1] eqn:H1; simpl.
    + split; [by intros [e [=]]|].
      intros [_ [?|(f & Hf & Hn)]]; [simpl in *; lia|].
      apply int_or_raise_Ok in H0.
      apply elem_of_cons in Hf as [->|Hf]; [congruence|].
      destruct (mapM_int_Ok _ _ H1 _ Hf) as [? ?]. congruence.
    + split; [|eauto]. intros _. split; [done|]. right.
      apply mapM_int_Raise in H1 as [(f & Hf & Hn) _].
      exists f. split; [by right|done].
  - split; [|eauto]. intros _. split; [done|]. right.
    apply int_or_raise_Raise in H0 as [H0 _].
    exists p0. split; [left|done].
Qed.

Lemma parse_station_line_caught self line e :
  parse_station_line self line = Raise e → caught e.
Proof.
  unfold parse_station_line. destruct (is_blank line); [done|].
  destruct (_ <? _)%nat; [by intros [= <-]|].
  destruct (str_split_ws line) as [|p0 rest]; [by intros [= <-]|].
  destruct (int_or_raise p0) as [z|e0] eqn:H0; simpl.
  - destruct (mapM_result int_or_raise rest) as [zs|e1] eqn:H1; simpl; [done|].
    intros [= <-]. by apply mapM_int_Raise in H1 as [_ ?].
  - intros [= <-]. by apply int_or_raise_Raise in H0 as [_ ?].
Qed.

Lemma parse_station_line_reports self line self' :
  parse_station_line self line = Ok self' →
  charger_reports self' = charger_reports self.
Proof.
  unfold parse_station_line. destruct (is_blank line); [by intros [= <-]|].
  destruct (_ <? _)%nat; [done|].
  destruct (str_split_ws line) as [|p0 rest]; [done|].
  destruct (int_or_raise p0); simpl; [|done].
  destruct (mapM_result int_or_raise rest); simpl; [|done].
  by intros [= <-].
Qed.

(** The same for a report line. *)
Lemma parse_report_line_cases self line :
  match parse_report_line self line with
  | Ok self' =>
      ¬ report_line_malformed line
      ∧ (self' = self
         ∨ ∃ c r, self' = add_report self c r ∧ valid_report r)
  | Raise e => report_line_malformed line ∧ caught e
  end.
Proof.
  unfold parse_report_line, report_line_malformed.
  destruct (is_blank line).
  { split; [by intros [[=] _]|by left]. }
  destruct (Nat.eqb_spec (length (str_split_ws line)) 4) as [Hlen|Hlen];
    simpl; [|by auto].
  destruct (str_split_ws line) as [|p0 [|p1 [|p2 [|p3 [|]]]]]; try done.
  clear Hlen. simpl take.
  destruct (int_or_raise p0) as [c|e0] eqn:H0; simpl.
  2:{ apply int_or_raise_Raise in H0 as [H0 ?]. split; [|done].
      split; [done|]. right. left. exists p0. split; [left|done]. }
  destruct (int_or_raise p1) as [a|e1] eqn:H1; simpl.
  2:{ apply int_or_raise_Raise in H1 as [H1 ?]. split; [|done].
      split; [done|]. right. left. exists p1. split; [right; left|done]. }
  destruct (int_or_raise p2) as [b|e2] eqn:H2; simpl.
  2:{ apply int_or_raise_Raise in H2 as [H2 ?]. split; [|done].
      split; [done|]. right. left. exists p2.
      split; [do 2 right; left|done]. }
  apply int_or_raise_Ok in H0, H1, H2.
  destruct (Z.gtb_spec a b) as [Hgt|Hle].
  - split; [|done]. split; [done|]. do 2 right.
    exists p1, p2, a, b. repeat split; [done..|lia].
  - split.
    + intros [_ [?|[(f & Hf & Hn)|(q1 & q2 & a' & b' & E1 & E2 & Ha & Hb & ?)]]].
      * done.
      * repeat (apply elem_of_cons in Hf as [->|Hf]; [congruence|]).
        by apply elem_of_nil in Hf.
      * simpl in E1, E2. injection E1 as <-. injection E2 as <-.
        rewrite H1 in Ha. rewrite H2 in Hb.
        injection Ha as <-. injection Hb as <-. lia.
    + right. eexists _, _. split; [done|]. unfold valid_report. simpl. lia.
Qed.

Lemma parse_report_line_Raise self line :
  (∃ e, parse_report_line self line = Raise e) ↔ report_line_malformed line.
Proof.
  pose proof (parse_report_line_cases self line) as H.
  destruct (parse_report_line self line) as [self'|e].
  - destruct H as [H _]. split; [by intros [e [=]]|done].
  - destruct H as [H _]. split; eauto.
Qed.

Section FoldM.
Context {S A : Type} (f : S → A → result S) (bad : A → Prop).
Context (Hf : ∀ s a, (∃ e, f s a = Raise e) ↔ bad a).

Lemma foldM_result_Raise s l :
  (∃ e, foldM_result f s l = Raise e) ↔ ∃ a, a ∈ l ∧ bad a.
Proof.
  revert s. induction l as [|a l IH]; intros s; simpl.
  - split; [by intros [e [=]]|]. intros (a & Ha & _). by apply elem_of_nil in Ha.
  - destruct (f s a) as [s'|e] eqn:E; simpl.
    + rewrite IH. split.
      * intros (a' & Ha' & Hb). exists a'. split; [by right|done].
      * intros (a' & [->|Ha']%elem_of_cons & Hb); [|eauto].
        apply (Hf s) in Hb as [e He]. congruence.
    + split; [|eauto]. intros _. exists a. split; [left|].
      apply (Hf s). eauto.
Qed.

Lemma foldM_result_invariant (I : S → Prop) (C : exn → Prop) s l :
  (∀ s a s', I s → f s a = Ok s' → I s') →
  (∀ s a e, f s a = Raise e → C e) →
  I s →
  match foldM_result f s l with
  | Ok s' => I s'
  | Raise e => C e
  end.
Proof.
  intros HI HC. revert s. induction l as [|a l IH]; intros s Hs; simpl; [done|].
  destruct (f s a) as [s'|e] eqn:E; simpl.
  - apply IH. by apply (HI s a).
  - by apply (HC s a).
Qed.

End FoldM.

Lemma valid_dataset_add_report self c r :
  valid_dataset self → valid_report r → valid_dataset (add_report self c r).
Proof.
  intros Hv Hr cid rs. unfold add_report. cbn [charger_reports].
  destruct (decide (cid = c)) as [->|Hne].
  - rewrite lookup_insert_eq. intros [= <-].
    apply Forall_app. split; [|by repeat constructor].
    unfold reports_of. destruct (charger_reports self !! c) eqn:E; simpl.
    + by apply (Hv c).
    + constructor.
  - rewrite lookup_insert_ne by done. apply Hv.
Qed.

Lemma find_sections_spec content :
  match find_sections content with
  | Ok (a, b) =>
      list_index stations_marker content = Some a
      ∧ list_index reports_marker content = Some b
  | Raise e =>
      (list_index stations_marker content = None
       ∨ list_index reports_marker content = None) ∧ caught e
  end.
Proof.
  unfold find_sections.
  destruct (list_index stations_marker content),
    (list_index reports_marker content); simpl; auto.
Qed.

(** What the body of the [try] does. *)
Lemma parse_body_spec self file :
  match parse_body self file with
  | Ok self' => ¬ malformed_input file ∧ (valid_dataset self → valid_dataset self')
  | Raise e => malformed_input file ∧ caught e
  end.
Proof.
  unfold parse_body, malformed_input. destruct file as [text|]; [|done].
  set (content := file_content text).
  pose proof (find_sections_spec content) as Hsec.
  destruct (find_sections content) as [[a b]|e]; simpl.
  2:{ destruct Hsec as [[-> | ->] ?]; [done|].
      by destruct (list_index stations_marker content). }
  destruct Hsec as [-> ->].
  pose proof (foldM_result_Raise parse_station_line station_line_malformed
                parse_station_line_Raise self (station_lines content a b))
    as Hst.
  pose proof (foldM_result_invariant parse_station_line
                (fun s => valid_dataset self → valid_dataset s) caught
                self (station_lines content a b)) as Hst'.
  destruct (foldM_result parse_station_line self (station_lines content a b))
    as [self1|e1]; simpl.
  2:{ split.
      - left. apply Hst. eauto.
      - apply Hst'; [|apply parse_station_line_caught|done].
        intros s l s' Hs Hl Hv. apply Hs in Hv.
        intros cid rs. rewrite (parse_station_line_reports _ _ _ Hl).
        apply Hv. }
  assert (valid_dataset self → valid_dataset self1) as Hv1.
  { apply Hst'; [|apply parse_station_line_caught|done].
    intros s l s' Hs Hl Hv. apply Hs in Hv.
    intros cid rs. rewrite (parse_station_line_reports _ _ _ Hl).
    apply Hv. }
  pose proof (foldM_result_Raise parse_report_line report_line_malformed
                parse_report_line_Raise self1 (report_lines content b))
    as Hrp.
  pose proof (foldM_result_invariant parse_report_line
                (fun s => valid_dataset self → valid_dataset s) caught
                self1 (report_lines content b)) as Hrp'.
  destruct (foldM_result parse_report_line self1 (report_lines content b))
    as [self2|e2].
  - split.
    + intros [Hbad|Hbad].
      * apply Hst in Hbad as [e [=]].
      * apply Hrp in Hbad as [e [=]].
    + apply Hrp'; [| |done].
      * intros s l s' Hs Hl Hv. specialize (Hs Hv).
        pose proof (parse_report_line_cases s l) as Hc. rewrite Hl in Hc.
        destruct Hc as [_ [->|(c & r & -> & Hr)]]; [done|].
        by apply valid_dataset_add_report.
      * intros s l e Hl.
        pose proof (parse_report_line_cases s l) as Hc. rewrite Hl in Hc.
        by destruct Hc.
  - split.
    + right. apply Hrp. eauto.
    + apply Hrp'; [| |done].
      * intros s l s' Hs Hl Hv. specialize (Hs Hv).
        pose proof (parse_report_line_cases s l) as Hc. rewrite Hl in Hc.
        destruct Hc as [_ [->|(c & r & -> & Hr)]]; [done|].
        by apply valid_dataset_add_report.
      * intros s l e Hl.
        pose proof (parse_report_line_cases s l) as Hc. rewrite Hl in Hc.
        by destruct Hc.
Qed.



(** ** The calculator in the store *)

Lemma extends_refl s : Heap.extends s s.
Proof. repeat split. exists []. by rewrite app_nil_r. Qed.

Lemma extends_trans s1 s2 s3 :
  Heap.extends s1 s2 → Heap.extends s2 s3 → Heap.extends s1 s3.
Proof.
  intros (H1 & H2 & new1 & H3) (H4 & H5 & new2 & H6).
  split; [congruence|]. split; [congruence|].
  exists (new1 ++ new2). by rewrite H6, H3, app_assoc.
Qed.

Lemma extends_lookup s s' l o :
  Heap.extends s s' →
  Heap.objects s !! l = Some o → Heap.objects s' !! l = Some o.
Proof.
  intros (_ & _ & new & ->) H. by apply lookup_app_l_Some.
Qed.

Lemma extends_well_formed s s' :
  Heap.extends s s' → Heap.well_formed s → Heap.well_formed s'.
Proof.
  intros Hext Hwf cid l Hl. destruct Hext as (H1 & H2 & new & H3).
  rewrite H2 in Hl. destruct (Hwf cid l Hl) as [rs Hrs].
  exists rs. rewrite H3. by apply lookup_app_l_Some.
Qed.

Lemma extends_view s s' :
  Heap.extends s s' → Heap.well_formed s → Heap.view s' = Heap.view s.
Proof.
  intros Hext Hwf. pose proof Hext as (H1 & H2 & _).
  unfold Heap.view. rewrite H1, H2. f_equal.
  apply map_eq. intros cid. rewrite !lookup_omap.
  destruct (Heap.charger_reports s !! cid) as [l|] eqn:E; simpl; [|done].
  destruct (Hwf cid l E) as [rs Hrs].
  by rewrite Hrs, (extends_lookup _ _ _ _ Hext Hrs).
Qed.

Lemma view_reports s cid :
  Heap.well_formed s →
  charger_reports (Heap.view s) !! cid =
  match Heap.charger_reports s !! cid with
  | Some l =>
      match Heap.objects s !! l with
      | Some (Heap.ReportList rs) => Some rs
      | _ => None
      end
  | None => None
  end.
Proof.
  intros Hwf. unfold Heap.view. cbn [charger_reports].
  rewrite lookup_omap. by destruct (Heap.charger_reports s !! cid).
Qed.

(** Reading a charger's reports leaves the store as it is. *)
Lemma heap_visit_charger s st cid :
  Heap.well_formed s →
  Heap.visit_charger st cid s = Ok (visit_charger (Heap.view s) st cid, s).
Proof.
  intros Hwf. unfold Heap.visit_charger, Heap.bind, Heap.get_charger,
    visit_charger.
  rewrite view_reports by done.
  destruct (Heap.charger_reports s !! cid) as [l|] eqn:E; [|done].
  destruct (Hwf cid l E) as [rs Hrs].
  unfold Heap.read_reports. by rewrite Hrs.
Qed.

Lemma heap_scan s st cids :
  Heap.well_formed s →
  Heap.foldlM Heap.visit_charger st cids s =
  Ok (foldl (visit_charger (Heap.view s)) st cids, s).
Proof.
  intros Hwf. revert st. induction cids as [|cid cids IH]; intros st.
  - done.
  - cbn [Heap.foldlM foldl]. unfold Heap.bind at 1.
    rewrite heap_visit_charger by done. apply IH.
Qed.

(** The merge sorts the object it is given, and nothing else. *)
Lemma heap__merge_intervals s ivs :
  Heap._merge_intervals (length (Heap.objects s))
    (Heap.mkStore (Heap.station_chargers s) (Heap.charger_reports s)
       (Heap.objects s ++ [Heap.IntervalList ivs])) =
  Ok (_merge_intervals ivs,
      Heap.mkStore (Heap.station_chargers s) (Heap.charger_reports s)
        (Heap.objects s
         ++ [Heap.IntervalList (_merge_intervals_inplace ivs).1])).
Proof.
  unfold Heap._merge_intervals, Heap.bind, Heap.read_intervals.
  cbn [Heap.objects].
  rewrite (lookup_app_r _ _ _ (le_n _)), Nat.sub_diag. cbn [lookup list_lookup].
  destruct ivs as [|iv ivs]; [done|].
  unfold Heap.write_intervals. cbn [Heap.objects Heap.station_chargers
                                      Heap.charger_reports].
  rewrite (insert_app_r_alt _ _ _ _ (le_n _)), Nat.sub_diag.
  cbn [insert list_insert].
  rewrite (lookup_app_r _ _ _ (le_n _)), Nat.sub_diag. cbn [lookup list_lookup].
  unfold _merge_intervals, _merge_intervals_inplace.
  destruct (py_sorted interval_leb (iv :: ivs)) as [|first rest] eqn:E.
  - by apply py_sorted_nil_inv in E.
  - done.
Qed.

Lemma heap_station_uptime s charger_ids :
  Heap.well_formed s →
  ∃ s', Heap.extends s s'
    ∧ Heap.station_uptime charger_ids s =
      match station_uptime (Heap.view s) charger_ids with
      | Ok p => Ok (p, s')
      | Raise e => Raise e
      end.
Proof.
  intros Hwf. unfold Heap.station_uptime, station_uptime, station_percentage,
    scan_station, scan_chargers.
  unfold Heap.bind at 1. rewrite heap_scan by done.
  set (st := foldl (visit_charger (Heap.view s)) initial_state
               (elements charger_ids)).
  destruct (window st) as [[lo hi]|].
  2:{ exists s. split; [apply extends_refl|done]. }
  destruct (lo =? hi).
  { exists s. split; [apply extends_refl|done]. }
  unfold Heap.bind, Heap.alloc.
  rewrite heap__merge_intervals.
  unfold Heap.lift.
  eexists. split; [|by destruct (uptime_percentage _ _)].
  repeat split. by eexists.
Qed.

Lemma heap_mapM s0 (stations : gmap Z (gset Z)) ids s :
  Heap.well_formed s0 → Heap.extends s0 s →
  ∃ s', Heap.extends s s'
    ∧ Heap.mapM
        (fun station_id =>
           match stations !! station_id with
           | Some charger_ids =>
               Heap.bind (Heap.station_uptime charger_ids)
                 (fun p => Heap.ret (station_id, p))
           | None => Heap.lift (Raise IndexError)
           end) ids s =
      match mapM_result
              (fun station_id =>
                 match stations !! station_id with
                 | Some charger_ids =>
                     let* p := station_uptime (Heap.view s0) charger_ids in
                     Ok (station_id, p)
                 | None => Raise IndexError
                 end) ids with
      | Ok results => Ok (results, s')
      | Raise e => Raise e
      end.
Proof.
  intros Hwf0. revert s. induction ids as [|sid ids IH]; intros s Hext.
  - exists s. split; [apply extends_refl|done].
  - cbn [mapM_result Heap.mapM].
    pose proof (extends_well_formed _ _ Hext Hwf0) as Hwf.
    pose proof (extends_view _ _ Hext Hwf0) as Hview.
    unfold Heap.bind at 1.
    destruct (stations !! sid) as [cids|].
    2:{ exists s. split; [apply extends_refl|done]. }
    destruct (heap_station_uptime s cids Hwf) as (s1 & Hext1 & Hst).
    rewrite Hview in Hst. unfold Heap.bind at 1. rewrite Hst.
    destruct (station_uptime (Heap.view s0) cids) as [p|e]; cbn beta iota.
    2:{ exists s. split; [apply extends_refl|done]. }
    destruct (IH s1 (extends_trans _ _ _ Hext Hext1)) as (s2 & Hext2 & Hmap).
    unfold Heap.ret at 1. cbn beta iota. unfold Heap.bind at 1. rewrite Hmap.
    exists s2. split; [by eapply extends_trans|].
    cbn [rbind]. by destruct (mapM_result _ ids).
Qed.

Lemma heap_calculate s :
  Heap.well_formed s →
  ∃ s', Heap.extends s s'
    ∧ Heap.calculate_station_uptime s =
      match calculate_station_uptime (Heap.view s) with
      | Ok results => Ok (results, s')
      | Raise e => Raise e
      end.
Proof.
  intros Hwf. unfold Heap.calculate_station_uptime, calculate_station_uptime.
  unfold Heap.bind at 1, Heap.get_stations.
  change (station_chargers (Heap.view s)) with (Heap.station_chargers s).
  apply (heap_mapM s); [done|apply extends_refl].
Qed.

(** The store model computes what the value model computes. *)
Lemma heap_calculate_view s results s' :
  Heap.well_formed s →
  Heap.calculate_station_uptime s = Ok (results, s') →
  calculate_station_uptime (Heap.view s) = Ok results ∧ Heap.extends s s'.
Proof.
  intros Hwf Hrun. destruct (heap_calculate s Hwf) as (s1 & Hext & H).
  rewrite Hrun in H.
  destruct (calculate_station_uptime (Heap.view s)) as [res|e]; [|done].
  by injection H as -> ->.
Qed.

(** C10.  A call of [calculate_station_uptime] leaves the calculator as
    it was: the dictionaries [station_chargers] and [charger_reports]
    are the same, every list object that existed before the call has
    the same contents after it (the only list that is sorted in place is
    one that the call has created), and a second call returns the same
    result list. *)
Theorem calculate_leaves_state (s s' : Heap.state)
    (results : list (Z * Z)) :
  Heap.well_formed s →
  Heap.calculate_station_uptime s = Ok (results, s') →
  Heap.station_chargers s' = Heap.station_chargers s
  ∧ Heap.charger_reports s' = Heap.charger_reports s
  ∧ (∀ l o, Heap.objects s !! l = Some o → Heap.objects s' !! l = Some o)
  ∧ ∃ s'', Heap.calculate_station_uptime s' = Ok (results, s'').
Proof.
  intros Hwf Hrun.
  destruct (heap_calculate_view _ _ _ Hwf Hrun) as [Hpure Hext].
  pose proof Hext as (H1 & H2 & _).
  split; [done|]. split; [done|]. split.
  - intros l o. by apply extends_lookup.
  - destruct (heap_calculate s' (extends_well_formed _ _ Hext Hwf))
      as (s'' & _ & H).
    rewrite (extends_view _ _ Hext Hwf), Hpure in H. eauto.
Qed.

(** On valid reports the call returns. *)
Lemma heap_calculate_returns s :
  Heap.well_formed s → valid_dataset (Heap.view s) →
  ∃ results s', Heap.calculate_station_uptime s = Ok (results, s').
Proof.
  intros Hwf Hv. destruct (heap_calculate s Hwf) as (s' & _ & H).
  destruct (calculate_station_uptime_returns _ Hv) as (results & Hr).
  rewrite Hr in H. eauto.
Qed.

Lemma calculate_leaves_state_witness :
  let s := Heap.mkStore {[0 := {[1]}]} {[1 := 0%nat]}
             [Heap.ReportList [up 1 75 100; up 1 0 50]] in
  let s' := Heap.mkStore {[0 := {[1]}]} {[1 := 0%nat]}
              [Heap.ReportList [up 1 75 100; up 1 0 50];
               Heap.IntervalList [(0, 50); (75, 100)]] in
  Heap.objects s' !! 0%nat = Some (Heap.ReportList [up 1 75 100; up 1 0 50])
  ∧ ∃ s'', Heap.calculate_station_uptime s' = Ok ([(0, 75)], s'').
Proof.
  intros s s'.
  assert (Heap.well_formed s) as Hwf.
  { intros cid l Hl. unfold s in Hl. cbn [Heap.charger_reports] in Hl.
    apply lookup_singleton_Some in Hl as [<- <-]. by eexists. }
  assert (Heap.calculate_station_uptime s = Ok ([(0, 75)], s')) as Hrun.
  { vm_compute. reflexivity. }
  destruct (calculate_leaves_state s s' [(0, 75)] Hwf Hrun)
    as (_ & _ & Hobj & Hagain).
  split; [|exact Hagain]. by apply Hobj.
Defined.

(** ** Further properties of the calculator *)

(** *** The list of results *)

Lemma StronglySorted_leb_NoDup l :
  StronglySorted (fun x y => (x <=? y) = true) l → NoDup l →
  StronglySorted Z.lt l.
Proof.
  induction 1 as [|x l Hl IH Hx]; intros Hnd; [constructor|].
  apply NoDup_cons in Hnd as [Hnotin Hnd].
  constructor; [by apply IH|].
  rewrite Forall_forall in Hx |- *. intros y Hy.
  specialize (Hx y Hy). apply Z.leb_le in Hx.
  assert (x ≠ y) by (intros ->; contradiction). lia.
Qed.

Lemma calculate_station_uptime_entries self results :
  calculate_station_uptime self = Ok results →
  results.*1 = py_sorted Z.leb (elements (dom (station_chargers self)))
  ∧ Forall (fun entry : Z * Z =>
              ∃ charger_ids,
                station_chargers self !! entry.1 = Some charger_ids
                ∧ station_uptime self charger_ids = Ok entry.2) results.
Proof.
  unfold calculate_station_uptime. intros H%mapM_result_inv.
  induction H as [|sid entry ids results Hentry _ [IH1 IH2]];
    [by split; [|constructor]|].
  destruct (station_chargers self !! sid) as [charger_ids|] eqn:Hsid;
    [|discriminate].
  apply rbind_Ok in Hentry as (p & Hp & [= <-]).
  split; [cbn; by f_equal|]. constructor; [|done].
  exists charger_ids. by split.
Qed.

Lemma calculate_station_uptime_ascending self results :
  calculate_station_uptime self = Ok results →
  StronglySorted Z.lt results.*1.
Proof.
  intros [-> _]%calculate_station_uptime_entries.
  apply StronglySorted_leb_NoDup.
  - apply py_sorted_StronglySorted; [apply Zleb_total|apply Zleb_trans].
  - rewrite py_sorted_Permutation. apply NoDup_elements.
Qed.

(** X1.  [calculate_station_uptime] returns one entry for each station
    of [station_chargers] and no other, in strictly ascending order of
    the station ids, and the percentage of an entry is the one computed
    from the station's own set of chargers. *)
Theorem results_by_station (self : StationUptimeCalculator)
    (results : list (Z * Z)) :
  calculate_station_uptime self = Ok results →
  StronglySorted Z.lt results.*1
  ∧ length results = size (dom (station_chargers self))
  ∧ (∀ sid, sid ∈ results.*1 ↔ is_Some (station_chargers self !! sid))
  ∧ (∀ sid p, (sid, p) ∈ results →
       ∃ charger_ids, station_chargers self !! sid = Some charger_ids
                      ∧ station_uptime self charger_ids = Ok p).
Proof.
  intros Hresults.
  pose proof (calculate_station_uptime_entries _ _ Hresults)
    as [Hids Hentries].
  split; [|split; [|split]].
  - by apply (calculate_station_uptime_ascending self).
  - rewrite <- (length_fmap fst), Hids, py_sorted_length. done.
  - intros sid. rewrite Hids. apply elem_of_station_ids.
  - intros sid p Hin. rewrite Forall_forall in Hentries.
    apply (Hentries _ Hin).
Qed.

Lemma results_by_station_witness :
  StronglySorted Z.lt [0; 1; 5]
  ∧ (∃ charger_ids,
       station_chargers
         (calc_of [(5, [3]); (0, [1; 2]); (1, [3])]
            [(1, [up 1 0 10; down 1 5 30]); (2, [up 2 20 25])])
         !! 5 = Some charger_ids
       ∧ station_uptime
           (calc_of [(5, [3]); (0, [1; 2]); (1, [3])]
              [(1, [up 1 0 10; down 1 5 30]); (2, [up 2 20 25])])
           charger_ids = Ok 0).
Proof.
  pose proof (results_by_station
    (calc_of [(5, [3]); (0, [1; 2]); (1, [3])]
       [(1, [up 1 0 10; down 1 5 30]); (2, [up 2 20 25])])
    [(0, 33); (1, 0); (5, 0)] ltac:(vm_compute; reflexivity))
    as (Hsorted & _ & _ & Hentry).
  split; [exact Hsorted|].
  apply (Hentry 5 0). set_solver.
Defined.

(** *** Stations without confirmed up time *)

Lemma uptime_percentage_zero t : t ≠ 0 → uptime_percentage 0 t = Ok 0.
Proof. intros Ht. by destruct t as [|p|p]. Qed.

(** X2.  A station none of whose reports is an up report gets 0,
    whatever the reports are (no condition on their time ranges): in
    particular a station whose chargers have no reports at all, and a
    station with down reports only. *)
Theorem station_without_up_report (self : StationUptimeCalculator)
    (charger_ids : gset Z) :
  (∀ r, r ∈ station_reports self charger_ids → is_up r = false) →
  station_uptime self charger_ids = Ok 0.
Proof.
  intros Hdown.
  assert (Hnone : station_intervals self charger_ids = []).
  { destruct (station_intervals self charger_ids) as [|iv l] eqn:E; [done|].
    destruct (station_intervals_have_up self charger_ids iv) as (u & Hu & Hup).
    - rewrite E. by left.
    - rewrite (Hdown u Hu) in Hup. discriminate. }
  unfold station_uptime, station_percentage.
  destruct (window (scan_station self charger_ids)) as [[lo hi]|]; [|done].
  cbv zeta. destruct (lo =? hi) eqn:Hinst.
  - destruct (existsb _ _) eqn:Hex; [|done].
    apply existsb_up_at in Hex as (iv & Hiv & _).
    rewrite scan_station_intervals, Hnone in Hiv. by apply elem_of_nil in Hiv.
  - rewrite scan_station_intervals, Hnone. apply Z.eqb_neq in Hinst.
    apply uptime_percentage_zero. lia.
Qed.

Lemma station_without_up_report_witness :
  station_uptime
    (calc_of [(0, [1; 2])] [(1, [down 1 0 10; down 1 30 20])]) {[1; 2]}
  = Ok 0.
Proof.
  apply station_without_up_report.
  intros r Hr. vm_compute in Hr.
  repeat (apply elem_of_cons in Hr as [->|Hr]; [reflexivity|]).
  by apply elem_of_nil in Hr.
Defined.

(** *** Order of the chargers and of the reports *)

(** X3.  The loop over [charger_ids] visits the members of a set in an
    order that the language leaves open.  Whatever the order, the
    percentage is the one that the model computes with the order of
    [elements]; no condition on the reports is needed. *)
Theorem charger_order_irrelevant (self : StationUptimeCalculator)
    (charger_ids : gset Z) (order : list Z) :
  order ≡ₚ elements charger_ids →
  station_percentage (scan_chargers self order)
  = station_uptime self charger_ids.
Proof.
  intros Horder. unfold station_uptime, scan_station.
  by apply station_percentage_any_order.
Qed.

Lemma charger_order_irrelevant_witness :
  station_percentage
    (scan_chargers
       (calc_of [(0, [1; 2; 3])]
          [(1, [up 1 0 10]); (2, [down 2 0 40]); (3, [up 3 5 20])])
       [3; 1; 2])
  = station_uptime
      (calc_of [(0, [1; 2; 3])]
         [(1, [up 1 0 10]); (2, [down 2 0 40]); (3, [up 3 5 20])])
      {[1; 2; 3]}.
Proof.
  apply charger_order_irrelevant.
  replace (elements ({[1; 2; 3]} : gset Z)) with [3; 2; 1]
    by (vm_compute; reflexivity).
  apply perm_skip, perm_swap.
Defined.

Lemma observed_window_ext rs rs' w :
  (∀ r, r ∈ rs ↔ r ∈ rs') → observed_window rs w → observed_window rs' w.
Proof.
  intros Hmem. destruct w as [[lo hi]|]; cbn.
  - intros ((r1 & H1 & E1) & Hlo & (r2 & H2 & E2) & Hhi).
    split; [exists r1; split; [by apply Hmem|done]|].
    split; [intros r Hr; apply Hlo; by apply Hmem|].
    split; [exists r2; split; [by apply Hmem|done]|].
    intros r Hr. apply Hhi. by apply Hmem.
  - intros ->. destruct rs' as [|r rs']; [done|].
    exfalso. apply (elem_of_nil r), Hmem. by left.
Qed.

(** X4.  The order in which the reports of a charger are stored is not
    meaningful: on reports with [start_time <= end_time], listing the
    reports of each charger of the station in another order gives the
    same percentage. *)
Theorem report_order_irrelevant (self self' : StationUptimeCalculator)
    (charger_ids : gset Z) :
  Forall valid_report (station_reports self charger_ids) →
  (∀ cid, cid ∈ charger_ids →
     reports_of self' cid ≡ₚ reports_of self cid) →
  station_uptime self' charger_ids = station_uptime self charger_ids.
Proof.
  intros Hvalid Hperm.
  assert (Hmem : ∀ r, r ∈ station_reports self charger_ids
                      ↔ r ∈ station_reports self' charger_ids).
  { intros r. rewrite !elem_of_station_reports.
    split; intros (cid & Hcid & Hr); exists cid; (split; [done|]).
    - by rewrite (Hperm cid Hcid).
    - by rewrite <- (Hperm cid Hcid). }
  assert (Hvalid' : Forall valid_report (station_reports self' charger_ids)).
  { rewrite Forall_forall in Hvalid |- *. intros r Hr.
    by apply Hvalid, Hmem. }
  pose proof (scan_station_window self charger_ids) as Hw.
  pose proof (observed_window_ext _ _ _ Hmem Hw) as Hw'.
  destruct (station_uptime_char self charger_ids _ Hvalid Hw)
    as (p & -> & _ & Hp).
  destruct (station_uptime_char self' charger_ids _ Hvalid' Hw')
    as (p' & -> & _ & Hp').
  f_equal.
  destruct (window (scan_station self charger_ids)) as [[lo hi]|];
    [|congruence].
  destruct Hp as (_ & Hinst & Hpos), Hp' as (_ & Hinst' & Hpos').
  destruct (decide (lo = hi)) as [->|Hne].
  - assert (Hup : (∃ iv, iv ∈ station_intervals self charger_ids
                         ∧ iv.1 ≤ hi ≤ iv.2)
                  ↔ (∃ iv, iv ∈ station_intervals self' charger_ids
                           ∧ iv.1 ≤ hi ≤ iv.2)).
    { split; intros (iv & Hiv & _).
      - destruct (station_intervals_have_up _ _ _ Hiv) as (u & Hu & Hup).
        apply (station_instant_up self' charger_ids hi u); try done.
        by apply Hmem.
      - destruct (station_intervals_have_up _ _ _ Hiv) as (u & Hu & Hup).
        apply (station_instant_up self charger_ids hi u); try done.
        by apply Hmem. }
    destruct (Hinst eq_refl) as [[-> H1]|[-> H1]],
             (Hinst' eq_refl) as [[-> H2]|[-> H2]]; try done.
    + exfalso. by apply H2, Hup.
    + exfalso. by apply H1, Hup.
  - rewrite (Hpos Hne), (Hpos' Hne). f_equal.
    unfold up_length. apply count_cells_ext. intros k _.
    apply bool_eq_iff. rewrite !cover_station_intervals.
    split; intros (cid & Hcid & Hc); exists cid; (split; [done|]).
    + by apply (cell_confirmed_Permutation _ _ k (Hperm cid Hcid)).
    + by apply (cell_confirmed_Permutation _ _ k (Hperm cid Hcid)).
Qed.

Lemma report_order_irrelevant_witness :
  station_uptime
    (calc_of [(0, [1])] [(1, [up 1 60 70; down 1 25 100; up 1 0 50])]) {[1]}
  = station_uptime
      (calc_of [(0, [1])] [(1, [up 1 0 50; down 1 25 100; up 1 60 70])])
      {[1]}.
Proof.
  apply report_order_irrelevant.
  - vm_compute station_reports.
    repeat constructor; unfold valid_report; cbn; lia.
  - intros cid ->%elem_of_singleton.
    change ([up 1 60 70; down 1 25 100; up 1 0 50]
            ≡ₚ [up 1 0 50; down 1 25 100; up 1 60 70]).
    etrans; [apply perm_swap|]. etrans; [apply perm_skip, perm_swap|].
    apply perm_swap.
Defined.

(** *** The instant window *)

(** X5.  When all the reports of a station lie at one instant [t] (the
    observed window is [(t, t)] and the reports have
    [start_time <= end_time]), the station gets 100 as soon as one of
    its reports is an up report, and 0 otherwise: a down report at the
    instant does not cancel an up report. *)
Theorem instant_window_up_report (self : StationUptimeCalculator)
    (charger_ids : gset Z) (t : Z) :
  Forall valid_report (station_reports self charger_ids) →
  observed_window (station_reports self charger_ids) (Some (t, t)) →
  station_uptime self charger_ids =
  Ok (if existsb is_up (station_reports self charger_ids) then 100 else 0).
Proof.
  intros Hvalid Hw.
  destruct (station_uptime_char self charger_ids _ Hvalid Hw)
    as (p & -> & _ & _ & Hinst & _).
  f_equal.
  destruct (Hinst eq_refl) as [[-> (iv & Hiv & _)]|[-> Hnone]].
  - destruct (station_intervals_have_up _ _ _ Hiv) as (u & Hu & Hup).
    destruct (existsb _ _) eqn:Hex; [done|].
    rewrite <- not_true_iff_false in Hex. exfalso. apply Hex.
    apply existsb_exists. exists u. split; [|done].
    by apply list_elem_of_In.
  - destruct (existsb _ _) eqn:Hex; [|done].
    apply existsb_exists in Hex as (u & Hu%list_elem_of_In & Hup).
    exfalso. apply Hnone.
    by apply (station_instant_up self charger_ids t u).
Qed.

Lemma instant_window_up_report_witness :
  station_uptime
    (calc_of [(0, [1; 2])] [(1, [up 1 7 7; down 1 7 7]); (2, [down 2 7 7])])
    {[1; 2]} = Ok 100.
Proof.
  etrans; [apply (instant_window_up_report
    (calc_of [(0, [1; 2])] [(1, [up 1 7 7; down 1 7 7]); (2, [down 2 7 7])])
    {[1; 2]} 7)|vm_compute; reflexivity].
  - vm_compute station_reports.
    repeat constructor; unfold valid_report; cbn; lia.
  - vm_compute station_reports. cbn.
    split; [exists (down 2 7 7); split; [set_solver|done]|].
    split; [intros r Hr;
            repeat (apply elem_of_cons in Hr as [->|Hr]; [cbn; lia|]);
            by apply elem_of_nil in Hr|].
    split; [exists (down 2 7 7); split; [set_solver|done]|].
    intros r Hr.
    repeat (apply elem_of_cons in Hr as [->|Hr]; [cbn; lia|]).
    by apply elem_of_nil in Hr.
Defined.

(** *** The reconciliation of one charger, by unit of time *)

(** X6.  What the reconciliation of a charger's reports (sorted by the
    key of the code, then applied one by one) confirms: the unit of time
    [[k, k + 1)] lies in one of the resulting intervals exactly when an
    up report covers it and every down report that covers it starts
    strictly earlier than that up report.  So a down report wins over
    an up report with the same or an earlier start, and loses to an up
    report that starts later. *)
Theorem reconciled_units (rs : list ChargerReport) (k : Z) :
  (∃ iv, iv ∈ reconcile (py_sorted report_leb rs) ∧ iv.1 ≤ k < iv.2)
  ↔ ∃ u, u ∈ rs ∧ is_up u = true ∧ start_time u ≤ k < end_time u
         ∧ ∀ d, d ∈ rs → is_up d = false →
                start_time d ≤ k < end_time d →
                start_time d < start_time u.
Proof.
  rewrite <- cover_spec, cover_confirmed. unfold cell_confirmed, report_cell.
  split; intros (u & Hu & Hup & Hk & Hd); exists u;
    (split; [done|]); (split; [done|]).
  - apply in_cell_spec in Hk. split; [done|].
    intros d Hd1 Hd2 Hd3. apply (Hd d Hd1 Hd2). by apply in_cell_spec.
  - split; [by apply in_cell_spec|].
    intros d Hd1 Hd2 Hd3%in_cell_spec. by apply (Hd d Hd1 Hd2).
Qed.

(** *** [_merge_intervals] *)

(** X7.  [_merge_intervals] keeps the covered time and measures it: the
    merged intervals cover the same units of time as the intervals
    given, and, for intervals with [start <= end] inside
    [[lo, lo + n]], the sum of the lengths of the merged intervals is
    the number of covered units, hence at most [n]. *)
Theorem merged_length_counts_units (l : list Interval) (lo : Z) (n : nat) :
  Forall valid_interval l →
  Forall (fun iv : Interval => lo ≤ iv.1 ∧ iv.2 ≤ lo + Z.of_nat n) l →
  (∀ k, (∃ iv, iv ∈ _merge_intervals l ∧ iv.1 ≤ k < iv.2)
        ↔ (∃ iv, iv ∈ l ∧ iv.1 ≤ k < iv.2))
  ∧ sum_lengths (_merge_intervals l) = count_cells (cover l) lo n
  ∧ 0 ≤ sum_lengths (_merge_intervals l) ≤ Z.of_nat n.
Proof.
  intros Hvalid Hin.
  split; [|split].
  - intros k. by rewrite <- !cover_spec, cover__merge_intervals.
  - by apply total_up_time_count.
  - rewrite (total_up_time_count l lo n Hvalid Hin).
    apply count_cells_bounds.
Qed.

Lemma merged_length_counts_units_witness :
  sum_lengths (_merge_intervals [(5, 9); (0, 3); (2, 6); (12, 12)])
  = count_cells (cover [(5, 9); (0, 3); (2, 6); (12, 12)]) 0 20
  ∧ 0 ≤ sum_lengths (_merge_intervals [(5, 9); (0, 3); (2, 6); (12, 12)])
      ≤ 20.
Proof.
  apply (merged_length_counts_units [(5, 9); (0, 3); (2, 6); (12, 12)] 0 20).
  - repeat constructor; unfold valid_interval; cbn; lia.
  - repeat constructor; cbn; lia.
Defined.

Lemma merge_from_ends cur rest j :
  j ∈ merge_from cur rest → ∃ i, i ∈ cur :: rest ∧ j.1 = i.1 ∧ i.2 ≤ j.2.
Proof.
  revert cur. induction rest as [|iv rest IH]; intros cur; cbn.
  - intros ->%list_elem_of_singleton. exists cur. split; [by left|lia].
  - destruct (iv.1 <=? cur.2) eqn:E.
    + intros (i & Hi & H1 & H2)%IH.
      apply elem_of_cons in Hi as [->|Hi].
      * exists cur. split; [by left|]. cbn in *. lia.
      * exists i. split; [by do 2 right|done].
    + intros [->|Hj]%elem_of_cons.
      * exists cur. split; [by left|lia].
      * apply IH in Hj as (i & Hi & H12). exists i. split; [by right|done].
Qed.

Lemma merge_from_lex cur rest :
  StronglySorted (fun i j => interval_leb i j = true) (cur :: rest) →
  StronglySorted (fun i j => interval_leb i j = true) (merge_from cur rest).
Proof.
  revert cur. induction rest as [|iv rest IH]; intros cur Hs; cbn.
  - repeat constructor.
  - apply StronglySorted_inv in Hs as [Hrest Hcur].
    apply StronglySorted_inv in Hrest as [Hrest Hiv].
    apply Forall_cons in Hcur as [Hci Hcur].
    destruct (iv.1 <=? cur.2) eqn:E.
    + apply IH. constructor; [done|].
      rewrite Forall_forall in Hcur, Hiv |- *. intros j Hj.
      specialize (Hcur j Hj). specialize (Hiv j Hj).
      apply interval_leb_spec in Hcur, Hiv, Hci.
      apply interval_leb_spec. cbn. lia.
    + constructor; [apply IH; by constructor|].
      rewrite Forall_forall. intros j (i & Hi & H1 & H2)%merge_from_ends.
      assert (Hle : interval_leb cur i = true).
      { apply elem_of_cons in Hi as [->|Hi]; [done|].
        rewrite Forall_forall in Hcur. by apply Hcur. }
      apply interval_leb_spec in Hle. apply interval_leb_spec. lia.
Qed.

(** X8.  [_merge_intervals] is idempotent on every list of intervals:
    merging the merged list gives the merged list again. *)
Theorem merge_of_merged (l : list Interval) :
  _merge_intervals (_merge_intervals l) = _merge_intervals l.
Proof.
  assert (Hlex : Sorted (fun i j => interval_leb i j = true)
                   (_merge_intervals l)).
  { apply StronglySorted_Sorted. rewrite _merge_intervals_unfold.
    pose proof (py_sorted_StronglySorted interval_leb interval_leb_total
                  interval_leb_trans l) as Hs.
    destruct (py_sorted interval_leb l) as [|first rest]; [constructor|].
    by apply merge_from_lex. }
  assert (Hsep : Sorted separated (_merge_intervals l)).
  { apply StronglySorted_Sorted.
    eapply StronglySorted_weaken; [|apply _merge_intervals_sorted].
    by intros i j [_ H]. }
  rewrite (_merge_intervals_unfold (_merge_intervals l)).
  rewrite (py_sorted_id _ _ Hlex).
  destruct (_merge_intervals l) as [|first rest]; [done|].
  by apply merge_from_separated.
Qed.

(** X9.  [_merge_intervals] changes the list it is given: after the
    call the caller's list holds the same intervals in ascending order
    (by start, then by end), and nothing else in the store has
    changed.  The returned list is the one of the value model. *)
Theorem merge_sorts_argument_in_place (s : Heap.state) (l : nat)
    (ivs : list Interval) :
  Heap.objects s !! l = Some (Heap.IntervalList ivs) →
  ∃ sorted,
    Heap._merge_intervals l s =
    Ok (_merge_intervals ivs,
        Heap.mkStore (Heap.station_chargers s) (Heap.charger_reports s)
          (<[l := Heap.IntervalList sorted]> (Heap.objects s)))
    ∧ sorted ≡ₚ ivs
    ∧ StronglySorted (fun i j => i.1 < j.1 ∨ (i.1 = j.1 ∧ i.2 ≤ j.2)) sorted.
Proof.
  intros Hl. exists (py_sorted interval_leb ivs).
  split; [|split].
  - unfold Heap._merge_intervals, Heap.bind, Heap.read_intervals.
    rewrite Hl. destruct ivs as [|iv ivs].
    + cbn. rewrite (list_insert_id _ _ _ Hl). by destruct s.
    + unfold Heap.write_intervals. cbn [Heap.objects].
      rewrite list_lookup_insert_eq by (by eapply lookup_lt_Some).
      unfold _merge_intervals, _merge_intervals_inplace.
      destruct (py_sorted interval_leb (iv :: ivs)) as [|first rest] eqn:E.
      * by apply py_sorted_nil_inv in E.
      * done.
  - apply py_sorted_Permutation.
  - eapply StronglySorted_weaken;
      [|apply (py_sorted_StronglySorted interval_leb interval_leb_total
                 interval_leb_trans)].
    intros i j H. by apply interval_leb_spec.
Qed.

Lemma merge_sorts_argument_in_place_witness :
  ∃ sorted,
    Heap._merge_intervals 1
      (Heap.mkStore ∅ ∅
         [Heap.ReportList [up 1 0 5];
          Heap.IntervalList [(4, 9); (0, 5); (0, 2)]]) =
    Ok (_merge_intervals [(4, 9); (0, 5); (0, 2)],
        Heap.mkStore ∅ ∅
          (<[1%nat := Heap.IntervalList sorted]>
             [Heap.ReportList [up 1 0 5];
              Heap.IntervalList [(4, 9); (0, 5); (0, 2)]]))
    ∧ sorted ≡ₚ [(4, 9); (0, 5); (0, 2)]
    ∧ StronglySorted (fun i j => i.1 < j.1 ∨ (i.1 = j.1 ∧ i.2 ≤ j.2)) sorted.
Proof.
  apply (merge_sorts_argument_in_place
    (Heap.mkStore ∅ ∅
       [Heap.ReportList [up 1 0 5];
        Heap.IntervalList [(4, 9); (0, 5); (0, 2)]]) 1
    [(4, 9); (0, 5); (0, 2)]).
  reflexivity.
Defined.

(** *** The percentage in floating point *)

(** The rounding of [A / B] is off by at most one step [d] of the
    target exponent, and the step is [1] or at most [A / B / 2 ^ 52]. *)
Lemma RN_error A B :
  0 ≤ A → 0 < B →
  ∃ d, 0 < d ∧ (d = 1 ∨ d * 2 ^ 52 * B ≤ A)
       ∧ RN A B * B - d * B ≤ A ≤ RN A B * B + d * B.
Proof.
  intros HA HB. unfold RN.
  set (n := Z.max (Zdigits2 (A / B) - prec) 0).
  assert (Hn : 0 ≤ n) by lia.
  pose proof (pow2_pos n Hn) as Hpow.
  exists (2 ^ n). split; [done|]. split.
  - destruct (decide (n = 0)) as [->|Hn0]; [by left|right].
    assert (Hd : n = Zdigits2 (A / B) - prec) by lia.
    assert (Hq : 0 < A / B).
    { destruct (decide (0 < A / B)) as [|Hq]; [done|].
      assert (A / B = 0) as E by (pose proof (Z.div_pos A B); lia).
      rewrite E in Hd. cbn in Hd. rewrite prec_eq in Hd. lia. }
    pose proof (Zdigits2_spec (A / B) Hq) as [Hlow _].
    rewrite prec_eq in Hd.
    replace (Zdigits2 (A / B) - 1) with (n + 52) in Hlow by lia.
    rewrite Z.pow_add_r in Hlow by lia.
    pose proof (Z.mul_div_le A B HB).
    transitivity (A / B * B); [|lia].
    apply Z.mul_le_mono_nonneg_r; lia.
  - set (D := B * 2 ^ n).
    assert (HD : 0 < D) by (unfold D; lia).
    pose proof (rne_bounds (code_of A D)) as Hr.
    rewrite (code_of_div4 A D HD) in Hr.
    pose proof (Z.mul_div_le A D HD) as H1.
    pose proof (Z.mul_succ_div_gt A D HD) as H2.
    replace (rne (code_of A D) * 2 ^ n * B) with (rne (code_of A D) * D)
      by (unfold D; ring).
    replace (2 ^ n * B) with D by (unfold D; ring).
    nia.
Qed.

Lemma rounded_percentage_near_floor u t :
  0 ≤ u ≤ t → 0 < t →
  exact_percentage u t - 1 ≤ rounded_percentage u t
  ≤ exact_percentage u t + 1.
Proof.
  intros Hu Ht.
  unfold rounded_percentage, exact_percentage.
  pose proof (RN_le_one u t Hu Ht) as HX1.
  rewrite emin_eq in *. change (- -1074) with 1074 in *.
  set (K := 2 ^ 1074) in *.
  set (Q := 2 ^ 1022).
  assert (HK : K = 2 ^ 52 * Q) by (unfold K, Q; by rewrite <- Z.pow_add_r).
  assert (HQ : 0 < Q) by (by apply pow2_pos).
  assert (HKpos : 0 < K) by lia.
  assert (HX0 : 0 ≤ RN (u * K) t) by (apply RN_nonneg; nia).
  destruct (RN_error (u * K) t) as (d1 & Hd1 & Hd1' & Hlo1 & Hhi1);
    [nia|done|].
  set (X := RN (u * K) t) in *.
  destruct (RN_error (X * 100) 1) as (d2 & Hd2 & Hd2' & Hlo2 & Hhi2);
    [lia|lia|].
  set (R := RN (X * 100) 1) in *.
  assert (Hd1Q : d1 ≤ Q).
  { destruct Hd1' as [->|Hd1']; [lia|].
    assert (d1 * 2 ^ 52 * t ≤ Q * 2 ^ 52 * t) by nia.
    apply (Z.mul_le_mono_pos_r _ _ (2 ^ 52 * t)); lia. }
  assert (Hd2Q : d2 ≤ 100 * Q).
  { destruct Hd2' as [->|Hd2']; [lia|].
    apply (Z.mul_le_mono_pos_r _ _ (2 ^ 52)); lia. }
  assert (Herr : (100 * d1 + d2) * t < K * t).
  { apply Z.mul_lt_mono_pos_r; [done|]. lia. }
  assert (Hup : R * t ≤ 100 * (u * K) + (100 * d1 + d2) * t) by nia.
  assert (Hdown : 100 * (u * K) - (100 * d1 + d2) * t ≤ R * t) by nia.
  pose proof (Z.mul_div_le (100 * u) t Ht) as He1.
  pose proof (Z.mul_succ_div_gt (100 * u) t Ht) as He2.
  set (e := 100 * u / t) in *.
  split.
  - assert ((e - 1) * K ≤ R); [|apply Z.div_le_lower_bound; lia].
    apply (Z.mul_le_mono_pos_r _ _ t); [done|]. nia.
  - assert (R < (e + 2) * K);
      [|assert (R / K < e + 2); [apply Z.div_lt_upper_bound; lia|lia]].
    apply (Z.mul_lt_mono_pos_r t); [done|]. nia.
Qed.

(** X10.  The percentage computed in floating point is within one of
    the exact floor of [100 * total_up_time / total_time]: the two
    roundings can move it across an integer (as for 29 / 100, which
    gives 28), but never further. *)
Theorem float_percentage_near_floor (u t : Z) :
  0 ≤ u ≤ t → 0 < t →
  ∃ p, uptime_percentage u t = Ok p
       ∧ exact_percentage u t - 1 ≤ p ≤ exact_percentage u t + 1.
Proof.
  intros Hu Ht. exists (rounded_percentage u t).
  split; [by apply uptime_percentage_rounded|].
  by apply rounded_percentage_near_floor.
Qed.

Lemma float_percentage_near_floor_witness :
  ∃ p, uptime_percentage 29 100 = Ok p
       ∧ exact_percentage 29 100 - 1 ≤ p ≤ exact_percentage 29 100 + 1.
Proof. apply float_percentage_near_floor; lia. Defined.

(** X11.  The percentage computed in floating point grows with the
    quotient [total_up_time / total_time], and a window that is up
    throughout gets exactly 100. *)
Theorem float_percentage_monotone (u t u' t' : Z) :
  0 ≤ u ≤ t → 0 ≤ u' ≤ t' → 0 < t → 0 < t' → u * t' ≤ u' * t →
  ∃ p p', uptime_percentage u t = Ok p ∧ uptime_percentage u' t' = Ok p'
          ∧ p ≤ p' ∧ uptime_percentage t t = Ok 100.
Proof.
  intros Hu Hu' Ht Ht' Hle.
  exists (rounded_percentage u t), (rounded_percentage u' t').
  split; [by apply uptime_percentage_rounded|].
  split; [by apply uptime_percentage_rounded|].
  split; [apply rounded_percentage_mono; lia|].
  rewrite uptime_percentage_rounded by lia.
  by rewrite rounded_percentage_full.
Qed.

Lemma float_percentage_monotone_witness :
  ∃ p p', uptime_percentage 1 3 = Ok p ∧ uptime_percentage 29 80 = Ok p'
          ∧ p ≤ p' ∧ uptime_percentage 3 3 = Ok 100.
Proof. apply float_percentage_monotone; lia. Defined.

(** *** Stations are independent *)

Lemma foldl_visit_charger_ext self1 self2 order st :
  (∀ cid, cid ∈ order →
     charger_reports self1 !! cid = charger_reports self2 !! cid) →
  foldl (visit_charger self1) st order = foldl (visit_charger self2) st order.
Proof.
  revert st. induction order as [|cid order IH]; intros st Hsame; [done|].
  cbn [foldl]. unfold visit_charger at 2 4.
  rewrite (Hsame cid) by by left.
  apply IH. intros cid' Hcid'. apply Hsame. by right.
Qed.

(** X12.  The percentage of a station depends only on the reports of
    its own chargers: two calculators that agree on the reports of the
    station's chargers give the station the same result (a percentage
    or an exception), whatever else they hold. *)
Theorem station_depends_on_own_chargers
    (self1 self2 : StationUptimeCalculator) (charger_ids : gset Z) :
  (∀ cid, cid ∈ charger_ids →
     charger_reports self1 !! cid = charger_reports self2 !! cid) →
  station_uptime self1 charger_ids = station_uptime self2 charger_ids.
Proof.
  intros Hsame. unfold station_uptime, scan_station, scan_chargers.
  f_equal. apply foldl_visit_charger_ext.
  intros cid Hcid. apply Hsame. by apply elem_of_elements.
Qed.

Lemma station_depends_on_own_chargers_witness :
  station_uptime
    (add_report
       (calc_of [(0, [1; 2]); (1, [3])]
          [(1, [up 1 0 10; down 1 5 30]); (3, [up 3 20 25])])
       3 (down 3 0 100)) {[1; 2]}
  = station_uptime
      (calc_of [(0, [1; 2]); (1, [3])]
         [(1, [up 1 0 10; down 1 5 30]); (3, [up 3 20 25])]) {[1; 2]}.
Proof.
  apply station_depends_on_own_chargers.
  intros cid Hcid. unfold add_report. cbn [charger_reports].
  apply lookup_insert_ne. intros <-. revert Hcid.
  rewrite elem_of_union, !elem_of_singleton. by intros [|].
Defined.

(** *** What the parser stores *)

Lemma parse_station_line_Ok self line self' :
  parse_station_line self line = Ok self' →
  self' = self
  ∨ ∃ station_id (ids : list Z),
      ids ≠ []
      ∧ self' = mkCalc (<[station_id := list_to_set ids]>
                          (station_chargers self))
                  (charger_reports self).
Proof.
  unfold parse_station_line.
  destruct (is_blank line); [intros [= <-]; by left|].
  destruct (Nat.ltb_spec (length (str_split_ws line)) 2) as [|Hlen];
    [done|].
  destruct (str_split_ws line) as [|p0 rest]; [done|].
  intros (station_id & _ & (ids & Hids & [= <-])%rbind_Ok)%rbind_Ok.
  right. exists station_id, ids. split; [|done].
  apply mapM_result_inv, Forall2_length in Hids.
  intros ->. cbn in Hlen, Hids. lia.
Qed.

Lemma parse_report_line_Ok self line self' :
  parse_report_line self line = Ok self' →
  self' = self
  ∨ ∃ c s e b, s ≤ e ∧ self' = add_report self c (mkReport c s e b).
Proof.
  unfold parse_report_line.
  destruct (is_blank line); [intros [= <-]; by left|].
  destruct (negb _); [done|].
  destruct (str_split_ws line) as [|p0 [|p1 [|p2 [|p3 [|]]]]]; try done.
  intros (c & _ & (s & _ & (e & _ & H)%rbind_Ok)%rbind_Ok)%rbind_Ok.
  destruct (Z.gtb_spec s e) as [|Hle]; [done|].
  injection H as <-. right. by exists c, s, e, (String.eqb (str_lower p3) "true").
Qed.

Lemma parse_input_file_invariant (I : StationUptimeCalculator → Prop)
    self file self' :
  (∀ c line c', I c → parse_station_line c line = Ok c' → I c') →
  (∀ c line c', I c → parse_report_line c line = Ok c' → I c') →
  I self → parse_input_file self file = Ok self' → I self'.
Proof.
  intros Hstation Hreport Hself. unfold parse_input_file.
  destruct (parse_body self file) as [c|e] eqn:Hbody;
    [|by destruct e]. cbn. intros [= <-].
  unfold parse_body in Hbody. destruct file as [text|]; [|done].
  apply rbind_Ok in Hbody as (sections & _ & Hbody).
  apply rbind_Ok in Hbody as (c1 & H1 & H2).
  pose proof (foldM_result_invariant parse_station_line I (fun _ => True)
                self (station_lines (file_content text) sections.1
                        sections.2) Hstation (fun _ _ _ _ => Logic.I) Hself)
    as Hc1.
  rewrite H1 in Hc1.
  pose proof (foldM_result_invariant parse_report_line I (fun _ => True)
                c1 (report_lines (file_content text) sections.2)
                Hreport (fun _ _ _ _ => Logic.I) Hc1) as Hc.
  by rewrite H2 in Hc.
Qed.

(** X13.  The dataset that [parse_input_file] builds in a new
    calculator: every station has at least one charger, every charger
    with an entry in [charger_reports] has at least one report, and
    every report is stored under its own [charger_id] and has
    [start_time <= end_time]. *)
Theorem parsed_dataset_shape (file : option string)
    (self : StationUptimeCalculator) :
  parse_input_file empty_calculator file = Ok self →
  (∀ station_id charger_ids,
     station_chargers self !! station_id = Some charger_ids →
     charger_ids ≠ ∅)
  ∧ (∀ cid rs,
       charger_reports self !! cid = Some rs →
       rs ≠ []
       ∧ Forall (fun r => charger_id r = cid ∧ start_time r ≤ end_time r)
           rs).
Proof.
  apply (parse_input_file_invariant
    (fun c =>
       (∀ station_id charger_ids,
          station_chargers c !! station_id = Some charger_ids →
          charger_ids ≠ ∅)
       ∧ (∀ cid rs,
            charger_reports c !! cid = Some rs →
            rs ≠ []
            ∧ Forall (fun r => charger_id r = cid
                               ∧ start_time r ≤ end_time r) rs))).
  - intros c line c' [Hs Hr] [->|(sid & ids & Hids & ->)]%parse_station_line_Ok;
      [done|].
    split; [|done]. cbn. intros station_id charger_ids.
    destruct (decide (sid = station_id)) as [->|Hne].
    + rewrite lookup_insert_eq. intros [= <-].
      destruct ids as [|z ids]; [done|]. cbn. intros Hempty.
      apply (not_elem_of_empty (C:=gset Z) z). rewrite <- Hempty.
      by apply elem_of_union_l, elem_of_singleton.
    + rewrite lookup_insert_ne by done. apply Hs.
  - intros c line c' [Hs Hr]
      [->|(cid0 & s & e & b & Hse & ->)]%parse_report_line_Ok; [done|].
    split; [done|]. cbn. intros cid rs.
    destruct (decide (cid0 = cid)) as [->|Hne].
    + rewrite lookup_insert_eq. intros [= <-].
      split; [by destruct (reports_of c cid)|].
      apply Forall_app. split; [|by repeat constructor].
      unfold reports_of. destruct (charger_reports c !! cid) as [rs|] eqn:E;
        [|constructor]. by apply (Hr cid rs).
    + rewrite lookup_insert_ne by done. apply Hr.
  - unfold empty_calculator. cbn [station_chargers charger_reports].
    split; intros ? ?; by rewrite lookup_empty.
Qed.

Lemma parsed_dataset_shape_witness :
  [mkReport 1000 0 100 true] ≠ []
  ∧ Forall (fun r => charger_id r = 1000 ∧ start_time r ≤ end_time r)
      [mkReport 1000 0 100 true].
Proof.
  assert (Hparse :
    parse_input_file empty_calculator (Some "[Stations]
0 1000

[Charger Availability Reports]
1000 0 100 true"%string)
    = Ok (add_report (mkCalc {[0 := {[1000]}]} ∅) 1000
            (mkReport 1000 0 100 true))) by (vm_compute; reflexivity).
  destruct (parsed_dataset_shape _ _ Hparse) as [_ Hreports].
  apply (Hreports 1000). reflexivity.
Defined.

(** X14.  [parse_input_file] adds to the calculator it is called on:
    the reports that a charger already had stay, in their order, at the
    front of the charger's list, and every station that was known stays
    known (its set of chargers is replaced when the file has a line for
    it). *)
Theorem parse_keeps_earlier_data (self self' : StationUptimeCalculator)
    (file : option string) :
  parse_input_file self file = Ok self' →
  (∀ cid, reports_of self cid `prefix_of` reports_of self' cid)
  ∧ (∀ station_id,
       is_Some (station_chargers self !! station_id) →
       is_Some (station_chargers self' !! station_id)).
Proof.
  apply (parse_input_file_invariant
    (fun c =>
       (∀ cid, reports_of self cid `prefix_of` reports_of c cid)
       ∧ (∀ station_id,
            is_Some (station_chargers self !! station_id) →
            is_Some (station_chargers c !! station_id)))).
  - intros c line c' [Hr Hs] [->|(sid & ids & _ & ->)]%parse_station_line_Ok;
      [done|].
    split; [done|]. cbn. intros station_id Hsome.
    destruct (decide (sid = station_id)) as [->|Hne].
    + by rewrite lookup_insert_eq.
    + rewrite lookup_insert_ne by done. by apply Hs.
  - intros c line c' [Hr Hs]
      [->|(cid0 & s & e & b & _ & ->)]%parse_report_line_Ok; [done|].
    split; [|done]. intros cid. unfold reports_of at 2, add_report.
    cbn [charger_reports].
    destruct (decide (cid0 = cid)) as [->|Hne].
    + rewrite lookup_insert_eq. cbn. by apply prefix_app_r.
    + rewrite lookup_insert_ne by done. apply Hr.
  - done.
Qed.

Lemma parse_keeps_earlier_data_witness :
  [up 7 0 5] `prefix_of`
  reports_of
    (add_report (mkCalc {[0 := {[7]}]} {[7 := [up 7 0 5]]}) 7 (down 7 2 9))
    7.
Proof.
  assert (Hparse :
    parse_input_file (mkCalc ∅ {[7 := [up 7 0 5]]})
      (Some "[Stations]
0 7
[Charger Availability Reports]
7 2 9 false"%string)
    = Ok (add_report (mkCalc {[0 := {[7]}]} {[7 := [up 7 0 5]]}) 7
            (down 7 2 9))) by (vm_compute; reflexivity).
  destruct (parse_keeps_earlier_data _ _ _ Hparse) as [Hreports _].
  exact (Hreports 7).
Defined.

Lemma list_index_lookup x l i : list_index x l = Some i → l !! i = Some x.
Proof.
  revert i. induction l as [|y l IH]; intros i; cbn; [done|].
  destruct (String.eqb_spec y x) as [->|_].
  - by intros [= <-].
  - destruct (list_index x l) as [j|]; [|done].
    intros [= <-]. by apply IH.
Qed.

(** X15.  The two sections have to come in the order of the format: a
    file whose first [[Charger Availability Reports]] line comes before
    its first [[Stations]] line is rejected, whatever the lines are
    (the stations section is then empty and the [[Stations]] line is
    read as a report line). *)
Theorem reports_section_first_is_rejected (self : StationUptimeCalculator)
    (text : string) (stations_start reports_start : nat) :
  list_index stations_marker (file_content text) = Some stations_start →
  list_index reports_marker (file_content text) = Some reports_start →
  (reports_start < stations_start)%nat →
  ∃ msg, parse_input_file self (Some text) = Raise (ValueError msg).
Proof.
  intros Ha Hb Hlt.
  assert (Hbad : malformed_input (Some text)).
  { unfold malformed_input. cbv zeta. rewrite Ha, Hb. right.
    exists stations_marker. split.
    - unfold report_lines. apply list_elem_of_lookup.
      exists (stations_start - (reports_start + 1))%nat.
      rewrite lookup_drop.
      replace (reports_start + 1 + (stations_start - (reports_start + 1)))%nat
        with stations_start by lia.
      by apply list_index_lookup.
    - split; [reflexivity|]. left. vm_compute. lia. }
  unfold parse_input_file.
  pose proof (parse_body_spec self (Some text)) as Hspec.
  destruct (parse_body self (Some text)) as [c|e].
  - by destruct Hspec as [Hgood _].
  - destruct Hspec as [_ Hcaught]. destruct e; try done; by eexists.
Qed.

Lemma reports_section_first_is_rejected_witness :
  ∃ msg,
    parse_input_file empty_calculator
      (Some "[Charger Availability Reports]
1000 0 100 true
[Stations]
0 1000"%string) = Raise (ValueError msg).
Proof.
  apply (reports_section_first_is_rejected _ _ 2 0);
    [vm_compute; reflexivity..|lia].
Defined.

(** *** The process *)





(** *** The percentage of a station from its reports *)

Lemma unit_confirmed_spec rs k :
  unit_confirmed rs k = true ↔ cell_confirmed rs k.
Proof.
  unfold unit_confirmed, cell_confirmed. rewrite existsb_exists.
  split.
  - intros (u & Hu%list_elem_of_In & H).
    apply andb_true_iff in H as [H Hall].
    apply andb_true_iff in H as [Hup Hk].
    exists u. repeat split; [done..|].
    intros d Hd%list_elem_of_In Hdown Hdk.
    rewrite forallb_forall in Hall. specialize (Hall d Hd).
    rewrite Hdown, Hdk in Hall. cbn in Hall. by apply Z.ltb_lt.
  - intros (u & Hu & Hup & Hk & Hall). exists u.
    split; [by apply list_elem_of_In|].
    rewrite Hup, Hk. cbn. apply forallb_forall.
    intros d Hd%list_elem_of_In.
    destruct (is_up d) eqn:Hdown; [done|].
    destruct (report_cell k d) eqn:Hdk; [|done]. cbn.
    apply Z.ltb_lt. by apply Hall.
Qed.

Lemma station_up_units_length self charger_ids lo hi :
  station_up_units self charger_ids lo hi = up_length self charger_ids lo hi.
Proof.
  unfold station_up_units, up_length. apply count_cells_ext. intros k _.
  apply bool_eq_iff. rewrite cover_station_intervals, existsb_exists.
  split.
  - intros (cid & Hcid%list_elem_of_In%elem_of_elements & H%unit_confirmed_spec).
    by exists cid.
  - intros (cid & Hcid & H). exists cid.
    split; [by apply list_elem_of_In, elem_of_elements|].
    by apply unit_confirmed_spec.
Qed.

(** X17.  What [calculate_station_uptime] computes for a station whose
    reports span a window of positive length (reports with
    [start_time <= end_time]): count the units of time of the window
    that some charger of the station confirms, a unit being confirmed by
    a charger when one of its up reports covers it and every down report
    of the charger that covers it starts strictly earlier.  The
    percentage is the floor of 100 times that count over the length of
    the window, up to the rounding of the floats, which moves it by at
    most one; it is 0 when no unit is confirmed and 100 when all are. *)
Theorem station_uptime_from_reports (self : StationUptimeCalculator)
    (charger_ids : gset Z) (lo hi : Z) :
  Forall valid_report (station_reports self charger_ids) →
  observed_window (station_reports self charger_ids) (Some (lo, hi)) →
  lo ≠ hi →
  let n := station_up_units self charger_ids lo hi in
  0 ≤ n ≤ hi - lo
  ∧ ∃ p, station_uptime self charger_ids = Ok p
         ∧ exact_percentage n (hi - lo) - 1 ≤ p
           ≤ exact_percentage n (hi - lo) + 1
         ∧ (n = 0 → p = 0) ∧ (n = hi - lo → p = 100).
Proof.
  intros Hvalid Hw Hne. cbv zeta. rewrite station_up_units_length.
  pose proof (observed_window_ordered _ lo hi Hvalid Hw) as Hle.
  pose proof (up_length_bounds self charger_ids lo hi Hle) as Hn.
  split; [done|].
  exists (rounded_percentage (up_length self charger_ids lo hi) (hi - lo)).
  split.
  - rewrite (station_uptime_positive self charger_ids lo hi) by done.
    apply uptime_percentage_rounded; lia.
  - split; [apply rounded_percentage_near_floor; lia|].
    split; intros ->.
    + apply rounded_percentage_zero. lia.
    + apply rounded_percentage_full. lia.
Qed.

Lemma station_uptime_from_reports_witness :
  let self := calc_of [(0, [1; 2])]
                [(1, [up 1 0 50; down 1 25 100]); (2, [up 2 40 60])] in
  let n := station_up_units self {[1; 2]} 0 100 in
  0 ≤ n ≤ 100 - 0
  ∧ ∃ p, station_uptime self {[1; 2]} = Ok p
         ∧ exact_percentage n (100 - 0) - 1 ≤ p
           ≤ exact_percentage n (100 - 0) + 1
         ∧ (n = 0 → p = 0) ∧ (n = 100 - 0 → p = 100).
Proof.
  intros self.
  apply (station_uptime_from_reports self {[1; 2]} 0 100).
  - vm_compute station_reports.
    repeat constructor; unfold valid_report; cbn; lia.
  - vm_compute station_reports. cbn.
    split; [exists (up 1 0 50); split; [set_solver|done]|].
    split; [intros r Hr;
            repeat (apply elem_of_cons in Hr as [->|Hr]; [cbn; lia|]);
            by apply elem_of_nil in Hr|].
    split; [exists (down 1 25 100); split; [set_solver|done]|].
    intros r Hr.
    repeat (apply elem_of_cons in Hr as [->|Hr]; [cbn; lia|]).
    by apply elem_of_nil in Hr.
  - lia.
Defined.

(** *** Exceptions of the calculation *)

Lemma mapM_result_Raise {A B} (f : A → result B) l e :
  mapM_result f l = Raise e → ∃ a, a ∈ l ∧ f a = Raise e.
Proof.
  induction l as [|a l IH]; cbn; [done|].
  destruct (f a) as [b|e'] eqn:Ha; cbn.
  - destruct (mapM_result f l) as [bs|e'']; cbn; [done|].
    intros [= ->]. destruct IH as (a' & Ha' & Hf); [done|].
    exists a'. split; [by right|done].
  - intros [= ->]. exists a. split; [by left|done].
Qed.

Lemma uptime_percentage_Raise u t e :
  t ≠ 0 → uptime_percentage u t = Raise e →
  e = OverflowError ∨ ∃ msg, e = ValueError msg.
Proof.
  intros Ht. unfold uptime_percentage, int_true_div.
  destruct (Z.eqb_spec t 0) as [|_]; [done|].
  destruct (is_infinity _); cbn [rbind]; [intros [= <-]; by left|].
  unfold float_mul_int. rewrite float_of_int_100. cbn [rbind].
  destruct (SFmul _ _ _ _) as [| | |s m ex]; cbn; intros [= <-];
    [by left|right; by eexists].
Qed.

(** X18.  On any dataset, also one whose reports do not satisfy
    [start_time <= end_time], [calculate_station_uptime] never divides
    by zero and never fails on a lookup: the instant window is handled
    before the division, and the station ids come from the dictionary
    itself.  The only exceptions left are those of the float
    arithmetic. *)
Theorem calculate_never_divides_by_zero (self : StationUptimeCalculator)
    (e : exn) :
  calculate_station_uptime self = Raise e →
  e = OverflowError ∨ ∃ msg, e = ValueError msg.
Proof.
  unfold calculate_station_uptime.
  intros (sid & Hsid & He)%mapM_result_Raise.
  apply elem_of_station_ids in Hsid as [charger_ids Hsid].
  rewrite Hsid in He.
  destruct (station_uptime self charger_ids) as [p|e'] eqn:Hp; [done|].
  cbn in He. injection He as ->.
  unfold station_uptime, station_percentage in Hp.
  destruct (window (scan_station self charger_ids)) as [[lo hi]|]; [|done].
  cbv zeta in Hp. destruct (Z.eqb_spec lo hi) as [|Hne]; [done|].
  apply uptime_percentage_Raise in Hp; [done|lia].
Qed.

Lemma calculate_never_divides_by_zero_witness :
  calculate_station_uptime
    (calc_of [(0, [1])] [(1, [up 1 0 1; up 1 (2 ^ 2000) 1])])
  = Raise OverflowError
  ∧ (OverflowError = OverflowError ∨ ∃ msg, OverflowError = ValueError msg).
Proof.
  assert (H : calculate_station_uptime
                (calc_of [(0, [1])] [(1, [up 1 0 1; up 1 (2 ^ 2000) 1])])
              = Raise OverflowError) by (vm_compute; reflexivity).
  split; [exact H|].
  exact (calculate_never_divides_by_zero _ _ H).
Defined.

(** ** The repository's tests, run on the model *)

Example test_basic_single_charger :
  run (Some "[Stations]
0 1000

[Charger Availability Reports]
1000 0 100 true"%string) = Ok [(0, 100)].
Proof. vm_compute. reflexivity. Qed.

Example test_basic_multiple_chargers :
  run (Some "[Stations]
0 1000 1001

[Charger Availability Reports]
1000 0 100 true
1001 0 100 false"%string) = Ok [(0, 100)].
Proof. vm_compute. reflexivity. Qed.

Example test_overlapping_periods :
  run (Some "[Stations]
0 1000 1001

[Charger Availability Reports]
1000 0 50 true
1001 25 75 true"%string) = Ok [(0, 100)].
Proof. vm_compute. reflexivity. Qed.

Example test_gaps_in_coverage :
  run (Some "[Stations]
0 1000

[Charger Availability Reports]
1000 0 50 true
1000 75 100 true"%string) = Ok [(0, 75)].
Proof. vm_compute. reflexivity. Qed.

Example test_multiple_stations :
  run (Some "[Stations]
0 1000
1 1001
2 1002

[Charger Availability Reports]
1000 0 100 true
1001 0 100 false
1001 50 100 true
1002 0 100 true
1002 25 100 false"%string) = Ok [(0, 100); (1, 50); (2, 25)].
Proof. vm_compute. reflexivity. Qed.

Example test_no_reports_for_station :
  run (Some "[Stations]
0 1000

[Charger Availability Reports]"%string) = Ok [(0, 0)].
Proof. vm_compute. reflexivity. Qed.

Example test_invalid_file_format :
  run (Some "Invalid content"%string) =
  Raise (ValueError "Error parsing input file: Missing required sections").
Proof. vm_compute. reflexivity. Qed.

Example test_invalid_station_format :
  run (Some "[Stations]
0

[Charger Availability Reports]"%string) =
  Raise (ValueError "Error parsing input file: Invalid station line format").
Proof. vm_compute. reflexivity. Qed.

Example test_invalid_report_format :
  run (Some "[Stations]
0 1000

[Charger Availability Reports]
1000 0 100"%string) =
  Raise (ValueError "Error parsing input file: Invalid report line format").
Proof. vm_compute. reflexivity. Qed.

Example test_invalid_time_range :
  is_ok (run (Some "[Stations]
0 1000

[Charger Availability Reports]
1000 100 0 true"%string)) = false.
Proof. vm_compute. reflexivity. Qed.

Example test_example_1 :
  run (Some "[Stations]
0 1001 1002
1 1003
2 1004

[Charger Availability Reports]
1001 0 50000 true
1001 50000 100000 true
1002 50000 100000 true
1003 25000 75000 false
1004 0 50000 true
1004 100000 200000 true"%string) = Ok [(0, 100); (1, 0); (2, 75)].
Proof. vm_compute. reflexivity. Qed.

Example test_example_2 :
  run (Some "[Stations]
0 0
1 1

[Charger Availability Reports]
0 10 20 true
0 20 30 false
0 30 40 true
1 0 1 true"%string) = Ok [(0, 66); (1, 100)].
Proof. vm_compute. reflexivity. Qed.

Example test_zero_duration_period :
  run (Some "[Stations]
0 1000

[Charger Availability Reports]
1000 100 100 true"%string) = Ok [(0, 100)].
Proof. vm_compute. reflexivity. Qed.

Example unreadable_file :
  run None =
  Raise (ValueError "Error parsing input file: cannot read the file").
Proof. reflexivity. Qed.

(** [main] on the second example of the task, and without an argument. *)
Example main_prints_results :
  main ["station_uptime.py"; "input_2.txt"]%string
    (fun _ => Some "[Stations]
0 0
1 1

[Charger Availability Reports]
0 10 20 true
0 20 30 false
0 30 40 true
1 0 1 true"%string)
  = mkOutcome ["0 66"; "1 100"]%string 0.
Proof. vm_compute. reflexivity. Qed.

Example main_without_argument :
  main ["station_uptime.py"%string] (fun _ => None)
  = mkOutcome ["ERROR"%string] 1.
Proof. reflexivity. Qed.

